(** * brainfuck-assembly: a register-machine assembler targeting a tape machine

    The development embeds the four Python sources of the repository:
    - [registers.py]: the register file (tape layout);
    - [assembler.py]: the code generator ([BFGen]), the instruction compilers
      ([BFI]) and the driver [assemble];
    - [bfas.py]: the parser of the front end (on the token stream);
    - [bfc.py]: the tape machine ([compile] and [BrainFuckMachine]).

    Python integers are [Z], Python [str] is [string], Python lists are
    lists, the label dictionary is a [gmap string Label].  Raised exceptions
    and [exit(1)] are values of the error monad [py]. *)

From Stdlib Require Import ZArith Lia Ascii String List.
From stdpp Require Import base tactics option list strings pretty gmap.

Local Open Scope string_scope.
Local Open Scope list_scope.
Local Open Scope Z_scope.

#[local] Arguments String.append !s1 s2 : simpl nomatch.

(** ** Python exceptions *)

Inductive exn : Type :=
  | ValueError (msg : string)
  | IndexError
  | ZeroDivisionError
  | SystemExit (printed : string). (* print(...) followed by exit(1) *)

Inductive py (A : Type) : Type :=
  | Ok (a : A)
  | Raise (e : exn).
Arguments Ok {A} a.
Arguments Raise {A} e.

Definition bind {A B : Type} (m : py A) (k : A -> py B) : py B :=
  match m with
  | Ok a => k a
  | Raise e => Raise e
  end.

Notation "'do' x <- m ; k" := (bind m (fun x => k))
  (at level 10, x name, m at level 99, k at level 200).

(** ** Python built-ins used by the sources *)

Definition nl : string := String "010"%char EmptyString.

Definition len {A : Type} (l : list A) : Z := Z.of_nat (List.length l).

Fixpoint str_rep (s : string) (n : nat) : string :=
  match n with
  | O => ""
  | S k => s +:+ str_rep s k
  end.

(** [s * n] on a Python string: the empty string when [n <= 0]. *)
Definition str_mul (s : string) (n : Z) : string := str_rep s (Z.to_nat n).

(** [l[k]] on a Python list: negative indices count from the end. *)
Definition py_index {A : Type} (l : list A) (k : Z) : py A :=
  if (0 <=? k) && (k <? len l) then
    match l !! Z.to_nat k with Some a => Ok a | None => Raise IndexError end
  else if (- len l <=? k) && (k <? 0) then
    match l !! Z.to_nat (k + len l) with Some a => Ok a | None => Raise IndexError end
  else Raise IndexError.

(** [l[k] = a] on a Python list. *)
Definition py_setitem {A : Type} (l : list A) (k : Z) (a : A) : py (list A) :=
  if (0 <=? k) && (k <? len l) then Ok (<[Z.to_nat k := a]> l)
  else if (- len l <=? k) && (k <? 0) then Ok (<[Z.to_nat (k + len l) := a]> l)
  else Raise IndexError.

(** [x in l] for a list of strings. *)
Definition str_in (x : string) (l : list string) : bool :=
  existsb (String.eqb x) l.

(** [l.index(x)] once [x in l] is known; [0] stands for the [ValueError] of
    an absent element, which [address_of] rules out beforehand. *)
Fixpoint index (x : string) (l : list string) : Z :=
  match l with
  | [] => 0
  | y :: r => if String.eqb x y then 0 else 1 + index x r
  end.

Definition is_space (c : ascii) : bool :=
  let n := nat_of_ascii c in
  ((9 <=? n) && (n <=? 13))%nat || (n =? 32)%nat.

Definition digit_val (c : ascii) : option Z :=
  let n := nat_of_ascii c in
  if ((48 <=? n) && (n <=? 57))%nat then Some (Z.of_nat n - 48) else None.

Fixpoint lstrip (s : string) : string :=
  match s with
  | String c r => if is_space c then lstrip r else s
  | EmptyString => s
  end.

(** Decimal digits, a single underscore allowed between two digits;
    [acc] is the value read so far and [after_digit] tells whether the
    previous character was a digit. Trailing white space is accepted. *)
Fixpoint int_digits (s : string) (acc : Z) (after_digit : bool) : option Z :=
  match s with
  | EmptyString => if after_digit then Some acc else None
  | String c r =>
      match digit_val c with
      | Some d => int_digits r (10 * acc + d) true
      | None =>
          if Ascii.eqb c "_" then
            (if after_digit then
               match r with
               | String c' _ =>
                   match digit_val c' with
                   | Some _ => int_digits r acc false
                   | None => None
                   end
               | EmptyString => None
               end
             else None)
          else if after_digit && (match lstrip s with EmptyString => true | _ => false end)
               then Some acc else None
      end
  end.

(** [int(s)] with the default base 10. *)
Definition int (s : string) : py Z :=
  let bad := Raise (ValueError ("invalid literal for int() with base 10: " +:+ s)) in
  match lstrip s with
  | String "-" r => match int_digits r 0 false with Some v => Ok (- v) | None => bad end
  | String "+" r => match int_digits r 0 false with Some v => Ok v | None => bad end
  | t => match int_digits t 0 false with Some v => Ok v | None => bad end
  end.

Fixpoint str_last (s : string) : option ascii :=
  match s with
  | EmptyString => None
  | String c EmptyString => Some c
  | String _ r => str_last r
  end.

(** [s[:-1]] *)
Fixpoint str_drop_last (s : string) : string :=
  match s with
  | EmptyString => EmptyString
  | String _ EmptyString => EmptyString
  | String c r => String c (str_drop_last r)
  end.

(** [s.endswith("C")] *)
Definition endswith_C (s : string) : bool :=
  match str_last s with Some c => Ascii.eqb c "C" | None => false end.

(** ** registers.py *)

Definition IRegisters : list string :=
  ["BJR"; "FJR"; "IC"; "TR1"; "TR2"; "TR3"; "TR4"; "TR5"].
Definition URegisters : list string :=
  ["CRR"; "PC"; "R1"; "R2"; "R3"; "R4"; "R5"].
Definition Registers : list string := IRegisters ++ URegisters.

Definition check_reg (reg : string) : py unit :=
  if negb (str_in reg Registers)
  then Raise (ValueError ("Undefined register " +:+ reg)) else Ok tt.

Definition check_ureg (reg : string) : py unit :=
  if negb (str_in reg URegisters)
  then Raise (ValueError ("Undefined register " +:+ reg)) else Ok tt.

Definition address_of (reg : string) : py Z :=
  do _ <- check_reg reg; Ok (index reg Registers).

(** ** assembler.py: data classes *)

Module OperandType.
Inductive t : Type :=
  | REFERENCE (* Could be register or label *)
  | ADDRESS
  | CONSTANT.
End OperandType.

Record Operand : Type := mkOperand { val : string; type : OperandType.t }.

Record Instruction : Type := mkInstruction { name : string; operands : list Operand }.

(** The field [name] of the Python class [Label] is [label_name] here. *)
Record Label : Type := mkLabel { label_name : string; ip : Z }.

(** ** assembler.py: class BFGen *)

Module BFGen.

Definition ptr (src dst : string) : py string :=
  do src <- address_of src;
  do dst <- address_of dst;
  if dst >? src then Ok (str_mul ">" (dst - src))
  else Ok (str_mul "<" (src - dst)).

Definition inc (val : Z) : string := str_mul "+" val.

Definition clr : string := "[-]".

Definition set (val : Z) : string := "[-]" +:+ str_mul "+" val.

Definition mv (src dst : string) : py string :=
  do sd <- ptr src dst;
  do ds <- ptr dst src;
  Ok ("[-" +:+ sd +:+ "+" +:+ ds +:+ "]").

Definition cp (src dst tmp : string) : py string :=
  do sd <- ptr src dst;
  do dt <- ptr dst tmp;
  do ts <- ptr tmp src;
  do st <- ptr src tmp;
  do m <- mv tmp src;
  do ts' <- ptr tmp src;
  Ok ("[-" +:+ sd +:+ "+" +:+ dt +:+ "+" +:+ ts +:+ "]" +:+ st +:+ m +:+ ts').

Definition set_pc (pc : Z) : py string :=
  do a <- ptr "FJR" "PC";
  do b <- ptr "PC" "FJR";
  Ok (a +:+ clr +:+ inc pc +:+ b +:+ nl).

Definition fjump_wrap (inst : string) : string :=
  ">+<" +:+
  "[>-]" +:+
  ">[>]<" +:+ nl +:+
  "[-" +:+ nl +:+ "    " +:+ inst +:+ nl +:+ "]" +:+ nl +:+
  "+<[>-]>[>]<<->[-<+>]<" +:+ nl.

Definition bjump_post : string := "<]>" +:+ nl.

Definition wrap (inst : string) (pc : Z) : py string :=
  do s <- set_pc pc;
  Ok (s +:+ fjump_wrap inst +:+ bjump_post).

Definition bjump_pre (ni : Z) : string :=
  inc ni +:+ nl +:+ str_mul "[-" ni +:+ nl +:+ ">" +:+ nl.

Definition gt_setup (rega regb : string) : py string :=
  do cpa5 <- cp rega "TR5" "TR4";
  do cpb3 <- cp regb "TR3" "TR4";
  do cpa1 <- cp "TR5" "TR1" "TR2";
  do ab <- ptr rega regb;
  do b5 <- ptr regb "TR5";
  Ok (cpa5 +:+ ab +:+ cpb3 +:+ b5 +:+ cpa1).

Definition clear_cond (curr_ptr : string) : py string :=
  do a <- ptr curr_ptr "CRR";
  do b <- ptr "CRR" curr_ptr;
  Ok (a +:+ "[-]" +:+ b).

Definition gt : string := "[-<<[<<->]>[>]<->>]<<[+]<<".

Definition inot (a dst : string) : py string :=
  do ad <- ptr a dst;
  do da <- ptr dst a;
  Ok (ad +:+ "+" +:+ da +:+ "[[-]" +:+ ad +:+ "-" +:+ da +:+ "]").

Definition cond (inst : string) : py string :=
  do a <- ptr "IC" "CRR";
  do c <- cp "CRR" "IC" "TR1";
  do b <- ptr "CRR" "IC";
  Ok (a +:+ c +:+ b +:+ "[-" +:+ inst +:+ "]").

End BFGen.

(** ** assembler.py: class BFI *)

Module BFI.

(** [i.operands[k]] *)
Definition operand (i : Instruction) (k : Z) : py Operand :=
  py_index (operands i) k.

Definition add (i : Instruction) (labels : gmap string Label) (pc : Z) : py string :=
  if negb (len (operands i) =? 2) then Raise (SystemExit "Not enough operands in ADD")
  else
    do o0 <- operand i 0;
    let regadd := val o0 in
    do _ <- check_ureg regadd;
    do o1 <- operand i 1;
    match type o1 with
    | OperandType.REFERENCE =>
        let regsrc := val o1 in
        do _ <- check_ureg regsrc;
        do t2s <- BFGen.ptr "TR1" regsrc;
        do s2d <- BFGen.ptr regsrc regadd;
        do d2t <- BFGen.ptr regadd "TR1";
        do a <- BFGen.ptr "IC" regsrc;
        do m <- BFGen.mv regsrc "TR1";
        do b <- BFGen.ptr regsrc "TR1";
        do c <- BFGen.ptr "TR1" "IC";
        Ok (a +:+ m +:+ b +:+ ("[-" +:+ t2s +:+ "+" +:+ s2d +:+ "+" +:+ d2t +:+ "]") +:+ c)
    | OperandType.CONSTANT =>
        let v := val o1 in
        do a <- BFGen.ptr "IC" regadd;
        do n <- int v;
        do b <- BFGen.ptr regadd "IC";
        Ok (a +:+ str_mul "+" n +:+ b)
    | _ => Raise (SystemExit "Unexpected operand type in ADD")
    end.

Definition mov (i : Instruction) (labels : gmap string Label) (pc : Z) : py string :=
  if negb (len (operands i) =? 2) then Raise (SystemExit "Not enough operands in MOV")
  else
    do o0 <- operand i 0;
    let dstv := val o0 in
    do _ <- check_ureg dstv;
    do o1 <- operand i 1;
    let srct := type o1 in
    let srcv := val o1 in
    match srct with
    | OperandType.CONSTANT =>
        do a <- BFGen.ptr "IC" dstv;
        do n <- int srcv;
        do b <- BFGen.ptr dstv "IC";
        Ok (a +:+ BFGen.clr +:+ str_mul "+" n +:+ b)
    | _ => Raise (SystemExit "Unexpected operand type in MOV")
    end.

Definition out (i : Instruction) (labels : gmap string Label) (pc : Z) : py string :=
  if negb (len (operands i) =? 1) then Raise (SystemExit "Not enough operands in OUT")
  else
    do o0 <- operand i 0;
    let dstv := val o0 in
    do _ <- check_ureg dstv;
    do a <- BFGen.ptr "IC" dstv;
    do b <- BFGen.ptr dstv "IC";
    Ok (a +:+ "." +:+ b).

(** The two run-time subtractions of the register-indirect branch:
    [back] leaves PC - DST in TR3, [fwd] leaves DST - PC in TR3. *)
Definition branch_sub (from dstv first second : string) : py string :=
  do a <- BFGen.ptr from "PC";
  do c1 <- BFGen.cp "PC" first "TR5";
  do b <- BFGen.ptr "PC" dstv;
  do c2 <- BFGen.cp dstv second "TR5";
  do c <- BFGen.ptr dstv "TR4";
  Ok (a +:+ c1 +:+ b +:+ c2 +:+ c +:+ "[-<->]<").

Definition branch (i : Instruction) (labels : gmap string Label) (pc : Z) : py string :=
  if negb (len (operands i) =? 1) then Raise (SystemExit "Not enough operands in B")
  else
    do o0 <- operand i 0;
    let dstv := val o0 in
    if str_in dstv URegisters then
      let cmd := "" in
      do a <- BFGen.ptr "IC" "PC";
      let cmd := cmd +:+ a in
      do g <- BFGen.gt_setup "PC" dstv;
      let cmd := cmd +:+ g in
      let cmd := cmd +:+ (BFGen.gt +:+ nl) in
      do c <- BFGen.cp "TR1" "TR3" "TR4";
      let cmd := cmd +:+ c in
      do p <- BFGen.ptr "TR1" "TR3";
      let cmd := cmd +:+ p in
      do n <- BFGen.inot "TR3" "TR2";
      let cmd := cmd +:+ n in
      do q <- BFGen.ptr "TR3" "TR1";
      let cmd := cmd +:+ (q +:+ nl) in
      (* Jump back: PC - DST + 1 *)
      do sub <- branch_sub "TR1" dstv "TR3" "TR4";
      do m <- BFGen.mv "TR3" "BJR";
      do r <- BFGen.ptr "TR3" "TR1";
      let cmd := cmd +:+ ("[" +:+ sub +:+ nl +:+ "+" +:+ m +:+ r +:+ "-]" +:+ nl) in
      (* Jump fwd: DST - PC *)
      do sub <- branch_sub "TR2" dstv "TR4" "TR3";
      do m <- BFGen.mv "TR3" "FJR";
      do r <- BFGen.ptr "TR3" "TR2";
      do e <- BFGen.ptr "TR2" "IC";
      let cmd := cmd +:+ (">[" +:+ sub +:+ m +:+ r +:+ "-]" +:+ e) in
      Ok cmd
    else
      match labels !! dstv with
      | None => Raise (SystemExit "Undefined label")
      | Some lbl =>
          if ip lbl >? pc then
            (* Jump forward *)
            do a <- BFGen.ptr "IC" "FJR";
            do b <- BFGen.ptr "FJR" "IC";
            Ok (a +:+ BFGen.inc (ip lbl - pc) +:+ b)
          else
            (* Jump back *)
            let v := pc - ip lbl + 1 in
            do a <- BFGen.ptr "IC" "BJR";
            do b <- BFGen.ptr "BJR" "IC";
            Ok (a +:+ BFGen.inc v +:+ b)
      end.

Definition gt (i : Instruction) (labels : gmap string Label) (pc : Z) : py string :=
  do o0 <- operand i 0;
  let a := val o0 in
  do o1 <- operand i 1;
  let b := val o1 in
  do cc <- BFGen.clear_cond "IC";
  do pa <- BFGen.ptr "IC" a;
  do gs <- BFGen.gt_setup a b;
  do m <- BFGen.mv "TR1" "CRR";
  do e <- BFGen.ptr "TR1" "IC";
  Ok (cc +:+ pa +:+ nl +:+ gs +:+ nl +:+ BFGen.gt +:+ nl +:+ m +:+ nl +:+ e).

End BFI.

(** ** assembler.py: the opcode table and the driver *)

Definition compiler : Type := Instruction -> gmap string Label -> Z -> py string.

Definition IPtr : list (string * compiler) :=
  [ ("ADD", BFI.add); ("MOV", BFI.mov); ("OUT", BFI.out);
    ("GT", BFI.gt); ("B", BFI.branch) ].

(** [IPtr[key]] when [key in IPtr], [None] otherwise. *)
Fixpoint dict_get {A : Type} (key : string) (d : list (string * A)) : option A :=
  match d with
  | [] => None
  | (k, v) :: r => if String.eqb key k then Some v else dict_get key r
  end.

(** The body of the [for (pc, i) in enumerate(instructions)] loop, with the
    accumulated text [bf]. *)
Fixpoint assemble_loop (pc : Z) (instructions : list Instruction)
    (labels : gmap string Label) (bf : string) : py string :=
  match instructions with
  | [] => Ok bf
  | i :: rest =>
      match (if endswith_C (name i) then dict_get (str_drop_last (name i)) IPtr else None) with
      | Some f =>
          do istr <- f i labels pc;
          do c <- BFGen.cond istr;
          do w <- BFGen.wrap c pc;
          assemble_loop (pc + 1) rest labels (bf +:+ w)
      | None =>
          match dict_get (name i) IPtr with
          | Some f =>
              do istr <- f i labels pc;
              do w <- BFGen.wrap istr pc;
              assemble_loop (pc + 1) rest labels (bf +:+ w)
          | None => Raise (SystemExit ("Unrecognized instruction: " +:+ name i))
          end
      end
  end.

Definition assemble (instructions : list Instruction) (labels : gmap string Label) : py string :=
  do bf <- assemble_loop 0 instructions labels "";
  Ok (BFGen.bjump_pre (len instructions) +:+ bf).

(** ** bfas.py: the parser *)

Module TokenType.
Inductive t : Type := NEWLINE | LABEL | COMMA | WORD | CONSTANT | ADDRESS | COMMENT.

Definition name (k : t) : string :=
  match k with
  | NEWLINE => "NEWLINE" | LABEL => "LABEL" | COMMA => "COMMA" | WORD => "WORD"
  | CONSTANT => "CONSTANT" | ADDRESS => "ADDRESS" | COMMENT => "COMMENT"
  end.
End TokenType.

Record Token : Type := mkToken {
  value : string;
  token_type : TokenType.t; (* the field [type] of the Python class *)
  line : Z;
  cols : Z * Z
}.

Module ParserState.
Inductive t : Type := STATEMENT | OPERAND_1 | OPERAND_CONT | OPERAND_2.
End ParserState.

Module bfas.

(** [Token.__repr__] *)
Definition repr (t : Token) : string :=
  "{" +:+ TokenType.name (token_type t) +:+ ": " +:+ value t +:+ " (" +:+
  pretty (line t) +:+ "-" +:+ pretty (fst (cols t)) +:+ ":" +:+ pretty (snd (cols t)) +:+ ")}".

(** [x is d] for a string [x] and a dictionary [d]: object identity
    between a [str] and a [dict] never holds. *)
Definition is_ (x : string) (d : gmap string Label) : bool := false.

(** The local variables of [parser]. *)
Record locals : Type := mkLocals {
  state : ParserState.t;
  instructions : list Instruction;
  labels : gmap string Label;
  ic : Z;
  curr_inst : Instruction
}.

Definition complete_instruction (l : locals) : locals :=
  {| state := state l;
     instructions := instructions l ++ [curr_inst l];
     labels := labels l;
     ic := ic l + 1;
     curr_inst := curr_inst l |}.

Definition set_state (s : ParserState.t) (l : locals) : locals :=
  {| state := s; instructions := instructions l; labels := labels l;
     ic := ic l; curr_inst := curr_inst l |}.

Definition set_curr_inst (c : Instruction) (l : locals) : locals :=
  {| state := state l; instructions := instructions l; labels := labels l;
     ic := ic l; curr_inst := c |}.

Definition set_labels (d : gmap string Label) (l : locals) : locals :=
  {| state := state l; instructions := instructions l; labels := d;
     ic := ic l; curr_inst := curr_inst l |}.

Definition unexpected (t : Token) : py locals :=
  Raise (SystemExit ("Unexpected token: " +:+ repr t)).

(** One iteration of [for t in tokens]. *)
Definition parser_step (t : Token) (l : locals) : py locals :=
  match token_type t with
  | TokenType.COMMENT => Ok l
  | _ =>
    match state l with
    | ParserState.STATEMENT =>
        match token_type t with
        | TokenType.LABEL =>
            if is_ (value t) (labels l)
            then Raise (SystemExit ("Duplicate label: " +:+ repr t))
            else Ok (set_labels (<[value t := mkLabel (value t) (ic l)]> (labels l)) l)
        | TokenType.WORD =>
            Ok (set_state ParserState.OPERAND_1
                  (set_curr_inst (mkInstruction (value t) (operands (curr_inst l))) l))
        | TokenType.NEWLINE => Ok l
        | _ => unexpected t
        end
    | ParserState.OPERAND_1 =>
        match token_type t with
        | TokenType.WORD =>
            Ok (set_state ParserState.OPERAND_CONT
                  (set_curr_inst
                     (mkInstruction (name (curr_inst l))
                        [mkOperand (value t) OperandType.REFERENCE]) l))
        | TokenType.NEWLINE =>
            Ok (set_state ParserState.STATEMENT (complete_instruction l))
        | _ => unexpected t
        end
    | ParserState.OPERAND_CONT =>
        match token_type t with
        | TokenType.COMMA => Ok (set_state ParserState.OPERAND_2 l)
        | TokenType.NEWLINE =>
            Ok (set_state ParserState.STATEMENT (complete_instruction l))
        | _ => unexpected t
        end
    | ParserState.OPERAND_2 =>
        let push k :=
          Ok (set_state ParserState.OPERAND_CONT
                (set_curr_inst
                   (mkInstruction (name (curr_inst l))
                      (operands (curr_inst l) ++ [mkOperand (value t) k])) l)) in
        match token_type t with
        | TokenType.WORD => push OperandType.REFERENCE
        | TokenType.ADDRESS => push OperandType.ADDRESS
        | TokenType.CONSTANT => push OperandType.CONSTANT
        | _ => unexpected t
        end
    end
  end.

Fixpoint parser_loop (tokens : list Token) (l : locals) : py locals :=
  match tokens with
  | [] => Ok l
  | t :: rest => do l' <- parser_step t l; parser_loop rest l'
  end.

Definition parser (tokens : list Token) : py (list Instruction * gmap string Label) :=
  do l <- parser_loop tokens
            {| state := ParserState.STATEMENT; instructions := []; labels := ∅;
               ic := 0; curr_inst := mkInstruction "" [] |};
  Ok (instructions l, labels l).

End bfas.

(** ** bfc.py: the tape machine *)

Module ISet.
Inductive t : Type :=
  | NOP  (* NOP *)
  | ADD  (* ADD, value    adds 'value' to the current memory cell *)
  | MV   (* MV, offset    moves the memory pointer by 'offset' *)
  | JMP  (* JMP, ptr      sets the program counter to 'ptr' *)
  | JZ   (* JZ, ptr       sets the pc to 'ptr' only if the current cell is 0 *)
  | OUT  (* OUT           prints the value of the current cell *)
  | DBG. (* DBG           debug instruction *)

Definition eqb (a b : t) : bool :=
  match a, b with
  | NOP, NOP | ADD, ADD | MV, MV | JMP, JMP | JZ, JZ | OUT, OUT | DBG, DBG => true
  | _, _ => false
  end.
End ISet.

Module Result.
Inductive t : Type := OK | END | SEGFAULT | BUSFAULT.
End Result.

Module bfc.

Record Instruction : Type := mkInstruction {
  i : ISet.t;
  data : Z;
  bfp : Z (* Pointer to the original brainfuck instruction *)
}.

(** [Instruction(instruction, bfp, data)] *)
Definition new (instruction : ISet.t) (bfp : Z) (data : Z) : Instruction :=
  mkInstruction instruction data bfp.

Definition add_data (ins : Instruction) (k : Z) : Instruction :=
  mkInstruction (i ins) (data ins + k) (bfp ins).

Definition set_data (ins : Instruction) (v : Z) : Instruction :=
  mkInstruction (i ins) v (bfp ins).

(** The shared shape of the four cases "+", "-", ">" and "<": bump the
    last instruction when it has the operation [op], append otherwise. *)
Definition bump (op : ISet.t) (k : Z) (pos : Z) (program : list Instruction)
    : py (list Instruction) :=
  do l <- py_index program (-1);
  if ISet.eqb (i l) op then py_setitem program (-1) (add_data l k)
  else Ok (program ++ [new op pos k]).

(** One iteration of [for (i, b) in enumerate(bf)]; the loop stack has its
    top at the head. *)
Definition compile_char (pos : Z) (b : ascii) (st : list Instruction * list Z)
    : py (list Instruction * list Z) :=
  let '(program, loop_stack) := st in
  if Ascii.eqb b "+" then do p <- bump ISet.ADD 1 pos program; Ok (p, loop_stack)
  else if Ascii.eqb b "-" then do p <- bump ISet.ADD (-1) pos program; Ok (p, loop_stack)
  else if Ascii.eqb b ">" then do p <- bump ISet.MV 1 pos program; Ok (p, loop_stack)
  else if Ascii.eqb b "<" then do p <- bump ISet.MV (-1) pos program; Ok (p, loop_stack)
  else if Ascii.eqb b "." then Ok (program ++ [new ISet.OUT pos 0], loop_stack)
  else if Ascii.eqb b "!" then Ok (program ++ [new ISet.DBG pos 0], loop_stack)
  else if Ascii.eqb b "[" then
    let program := program ++ [new ISet.JZ pos 0] in
    Ok (program, (len program - 1) :: loop_stack)
  else if Ascii.eqb b "]" then
    match loop_stack with
    | [] => Raise IndexError (* pop from empty list *)
    | addr :: loop_stack =>
        let program := program ++ [new ISet.JMP pos addr] in
        do a <- py_index program addr;
        do program <- py_setitem program addr (set_data a (len program));
        Ok (program, loop_stack)
    end
  else Ok st.

Fixpoint compile_loop (pos : Z) (bf : string) (st : list Instruction * list Z)
    : py (list Instruction * list Z) :=
  match bf with
  | EmptyString => Ok st
  | String b rest => do st' <- compile_char pos b st; compile_loop (pos + 1) rest st'
  end.

Definition compile (bf : string) : py (list Instruction) :=
  do st <- compile_loop 0 bf ([new ISet.NOP 0 0], []);
  Ok (fst st).

(** The attributes of the Python class, and [printed]: the values written
    to standard output by OUT, oldest first. *)
Record BrainFuckMachine : Type := mkMachine {
  program : list Instruction;
  data_size : Z;
  memory_size : Z;
  memory : list Z;
  pc : Z;       (* Program counter *)
  last_pc : Z;
  mp : Z;       (* Memory pointer *)
  printed : list Z
}.

(** [BrainFuckMachine(program, data_size, memory_size)] *)
Definition init (program : list Instruction) (data_size memory_size : Z) : BrainFuckMachine :=
  {| program := program; data_size := data_size; memory_size := memory_size;
     memory := replicate (Z.to_nat memory_size) 0;
     pc := 0; last_pc := 0; mp := 0; printed := [] |}.

Definition pcset (m : BrainFuckMachine) (v : Z) : BrainFuckMachine :=
  {| program := program m; data_size := data_size m; memory_size := memory_size m;
     memory := memory m; pc := v; last_pc := pc m; mp := mp m; printed := printed m |}.

Definition pcinc (m : BrainFuckMachine) (offset : Z) : BrainFuckMachine :=
  pcset m (pc m + offset).

Definition set_memory (m : BrainFuckMachine) (mem : list Z) : BrainFuckMachine :=
  {| program := program m; data_size := data_size m; memory_size := memory_size m;
     memory := mem; pc := pc m; last_pc := last_pc m; mp := mp m; printed := printed m |}.

Definition set_mp (m : BrainFuckMachine) (p : Z) : BrainFuckMachine :=
  {| program := program m; data_size := data_size m; memory_size := memory_size m;
     memory := memory m; pc := pc m; last_pc := last_pc m; mp := p; printed := printed m |}.

Definition print (m : BrainFuckMachine) (v : Z) : BrainFuckMachine :=
  {| program := program m; data_size := data_size m; memory_size := memory_size m;
     memory := memory m; pc := pc m; last_pc := last_pc m; mp := mp m;
     printed := printed m ++ [v] |}.

(** [a % b] *)
Definition py_mod (a b : Z) : py Z :=
  if b =? 0 then Raise ZeroDivisionError else Ok (a mod b).

(** The [match i.i] of [step]: [inl r] is an early [return r], [inr m] falls
    through to the test that follows the match. The memory dump of DBG is
    not modelled. *)
Definition execute (ins : Instruction) (m : BrainFuckMachine)
    : py (Result.t + BrainFuckMachine) :=
  match i ins with
  | ISet.NOP => Ok (inr (pcinc m 1))
  | ISet.ADD =>
      if (mp m <? 0) || (mp m >=? memory_size m) then Ok (inl Result.SEGFAULT)
      else
        do v <- py_index (memory m) (mp m);
        do mem <- py_setitem (memory m) (mp m) (v + data ins);
        do v <- py_index mem (mp m);
        do r <- py_mod v (data_size m);
        do mem <- py_setitem mem (mp m) r;
        Ok (inr (pcinc (set_memory m mem) 1))
  | ISet.MV => Ok (inr (pcinc (set_mp m (mp m + data ins)) 1))
  | ISet.JMP => Ok (inr (pcset m (data ins)))
  | ISet.JZ =>
      do v <- py_index (memory m) (mp m);
      if v =? 0 then Ok (inr (pcset m (data ins))) else Ok (inr (pcinc m 1))
  | ISet.OUT =>
      do v <- py_index (memory m) (mp m);
      Ok (inr (pcinc (print m v) 1))
  | ISet.DBG => Ok (inr (pcinc m 1))
  end.

Definition step (m : BrainFuckMachine) : py (Result.t * BrainFuckMachine) :=
  if (pc m <? 0) || (pc m >? len (program m)) then Ok (Result.BUSFAULT, m)
  else
    do ins <- py_index (program m) (pc m);
    do r <- execute ins m;
    match r with
    | inl res => Ok (res, m)
    | inr m' =>
        if pc m' =? len (program m') then Ok (Result.END, m')
        else Ok (Result.OK, m')
    end.

(** [run]: the loop [while res == Result.OK: res = self.step()], bounded
    by [fuel] iterations; [None] when the bound is reached. The
    diagnostics printed after the loop are not modelled. *)
Fixpoint run (fuel : nat) (m : BrainFuckMachine) : option (py (Result.t * BrainFuckMachine)) :=
  match fuel with
  | O => None
  | S fuel' =>
      match step m with
      | Raise e => Some (Raise e)
      | Ok (Result.OK, m') => run fuel' m'
      | Ok (res, m') => Some (Ok (res, m'))
      end
  end.

End bfc.

(** * Verification infrastructure

    Tape programs are read as structured code ([cmd]) with a big-step
    semantics [exec]; [placed] says where the instructions of a piece of
    structured code sit in a compiled program, and [read] rebuilds the
    structured code from the text, character by character, the way
    [bfc.compile] consumes it. *)

#[local] Unset Elimination Schemes.
Inductive cmd : Type :=
  | CAdd (d : Z)
  | CMv (d : Z)
  | COut
  | CDbg
  | CLoop (body : list cmd).
#[local] Set Elimination Schemes.

(** What a run observes of the machine: the cells, the pointer and the
    printed values. *)
Record tape : Type := mkTape { cells : list Z; head : Z; out : list Z }.

Definition tape_of (m : bfc.BrainFuckMachine) : tape :=
  mkTape (bfc.memory m) (bfc.mp m) (bfc.printed m).

(** Cell [a] of a memory, and its update. *)
Definition rd (c : list Z) (a : Z) : Z := c !!! Z.to_nat a.
Definition upd (a v : Z) (c : list Z) : list Z := <[Z.to_nat a := v]> c.

(** The pointer designates a cell the machine can read and write. *)
Definition inside (MS : Z) (t : tape) : Prop :=
  0 <= head t < MS /\ head t < len (cells t).

Definition t_add (D : Z) (d : Z) (t : tape) : tape :=
  mkTape (upd (head t) ((rd (cells t) (head t) + d) mod D) (cells t)) (head t) (out t).
Definition t_mv (d : Z) (t : tape) : tape :=
  mkTape (cells t) (head t + d) (out t).
Definition t_out (t : tape) : tape :=
  mkTape (cells t) (head t) (out t ++ [rd (cells t) (head t)]).

(** Big-step semantics of structured code on a machine with cell base [D]
    and [MS] cells; only fault-free runs are derivable. *)
Inductive exec (D MS : Z) : list cmd -> tape -> tape -> Prop :=
  | exec_nil t : exec D MS [] t t
  | exec_add d c t t' :
      inside MS t -> D <> 0 ->
      exec D MS c (t_add D d t) t' -> exec D MS (CAdd d :: c) t t'
  | exec_mv d c t t' :
      exec D MS c (t_mv d t) t' -> exec D MS (CMv d :: c) t t'
  | exec_out c t t' :
      0 <= head t < len (cells t) ->
      exec D MS c (t_out t) t' -> exec D MS (COut :: c) t t'
  | exec_dbg c t t' :
      exec D MS c t t' -> exec D MS (CDbg :: c) t t'
  | exec_loop_skip body c t t' :
      0 <= head t < len (cells t) -> rd (cells t) (head t) = 0 ->
      exec D MS c t t' -> exec D MS (CLoop body :: c) t t'
  | exec_loop_iter body c t t1 t' :
      0 <= head t < len (cells t) -> rd (cells t) (head t) <> 0 ->
      exec D MS body t t1 -> exec D MS (CLoop body :: c) t1 t' ->
      exec D MS (CLoop body :: c) t t'.

(** Instruction [k] of program [P] has operation [op] and datum [d]. *)
Definition holds (P : list bfc.Instruction) (k : Z) (op : ISet.t) (d : Z) : Prop :=
  0 <= k /\ exists ins, P !! Z.to_nat k = Some ins /\ bfc.i ins = op /\ bfc.data ins = d.

(** [placed P b c e]: the instructions of [c] occupy [P[b:e]]. *)
Inductive placed (P : list bfc.Instruction) : Z -> list cmd -> Z -> Prop :=
  | placed_nil b : placed P b [] b
  | placed_add b d c e :
      holds P b ISet.ADD d -> placed P (b + 1) c e -> placed P b (CAdd d :: c) e
  | placed_mv b d c e :
      holds P b ISet.MV d -> placed P (b + 1) c e -> placed P b (CMv d :: c) e
  | placed_out b d c e :
      holds P b ISet.OUT d -> placed P (b + 1) c e -> placed P b (COut :: c) e
  | placed_dbg b d c e :
      holds P b ISet.DBG d -> placed P (b + 1) c e -> placed P b (CDbg :: c) e
  | placed_loop b body m c e :
      holds P b ISet.JZ (m + 1) -> placed P (b + 1) body m ->
      holds P m ISet.JMP b -> placed P (m + 1) c e ->
      placed P b (CLoop body :: c) e.

(** The reader's state: the block being read, last command first, and the
    enclosing blocks, innermost first. *)
Definition rstate : Type := list cmd * list (list cmd).

Definition push_add (k : Z) (cur : list cmd) : list cmd :=
  match cur with
  | CAdd d :: r => CAdd (d + k) :: r
  | _ => CAdd k :: cur
  end.

Definition push_mv (k : Z) (cur : list cmd) : list cmd :=
  match cur with
  | CMv d :: r => CMv (d + k) :: r
  | _ => CMv k :: cur
  end.

Definition read_char (b : ascii) (st : rstate) : option rstate :=
  let '(cur, stk) := st in
  if Ascii.eqb b "+" then Some (push_add 1 cur, stk)
  else if Ascii.eqb b "-" then Some (push_add (-1) cur, stk)
  else if Ascii.eqb b ">" then Some (push_mv 1 cur, stk)
  else if Ascii.eqb b "<" then Some (push_mv (-1) cur, stk)
  else if Ascii.eqb b "." then Some (COut :: cur, stk)
  else if Ascii.eqb b "!" then Some (CDbg :: cur, stk)
  else if Ascii.eqb b "[" then Some ([], cur :: stk)
  else if Ascii.eqb b "]" then
    match stk with
    | [] => None
    | p :: stk' => Some (CLoop (rev cur) :: p, stk')
    end
  else Some st.

Fixpoint read (s : string) (st : rstate) : option rstate :=
  match s with
  | EmptyString => Some st
  | String b rest =>
      match read_char b st with
      | Some st' => read rest st'
      | None => None
      end
  end.

(** The compiler's loop stack against the reader's enclosing blocks: every
    open loop has its JZ in place, and the blocks before it are placed. *)
Inductive frames (P : list bfc.Instruction) : Z -> list (list cmd) -> list Z -> Prop :=
  | frames_top d : holds P 0 ISet.NOP d -> frames P 1 [] []
  | frames_open s0 parent stk addr ls d :
      frames P s0 stk ls -> placed P s0 (rev parent) addr ->
      holds P addr ISet.JZ d ->
      frames P (addr + 1) (parent :: stk) (addr :: ls).

Definition tracks (st : list bfc.Instruction * list Z) (rs : rstate) : Prop :=
  exists start, frames (fst st) start (snd rs) (snd st) /\
                placed (fst st) start (rev (fst rs)) (len (fst st)).

(** The text of a loop. *)
Definition loop (body : string) : string := "[" +:+ body +:+ "]".

(** [s] is well bracketed: read inside any block, it extends that block. *)
Definition Bal (s : string) : Prop :=
  forall cur, exists cur', read s (cur, []) = Some (cur', []).

(** [Runs D MS s t t']: the text [s], appended to any text read so far,
    carries a run that has reached [t] on to [t']. *)
Definition Runs (D MS : Z) (s : string) (t t' : tape) : Prop :=
  forall cur, exists cur',
    read s (cur, []) = Some (cur', []) /\
    forall t0, exec D MS (rev cur) t0 t -> exec D MS (rev cur') t0 t'.

(** One fault-free step of the machine, whatever result it reports. *)
Definition moves (m m' : bfc.BrainFuckMachine) : Prop :=
  exists r, bfc.step m = Ok (r, m') /\ (r = Result.OK \/ r = Result.END).

Inductive reach : bfc.BrainFuckMachine -> bfc.BrainFuckMachine -> Prop :=
  | reach_refl m : reach m m
  | reach_step m m1 m2 : moves m m1 -> reach m1 m2 -> reach m m2.

(** The parts of a machine that a run leaves alone. *)
Definition same_setup (m m' : bfc.BrainFuckMachine) : Prop :=
  bfc.program m' = bfc.program m /\ bfc.data_size m' = bfc.data_size m /\
  bfc.memory_size m' = bfc.memory_size m.

(** A machine in which [code] has been loaded: the compiled program, the
    program counter at the start. *)
Definition loaded (code : string) (m : bfc.BrainFuckMachine) : Prop :=
  bfc.compile code = Ok (bfc.program m) /\ bfc.pc m = 0.

(** The machine runs to its normal end and stops in [m']. *)
Definition ends (m m' : bfc.BrainFuckMachine) : Prop :=
  exists fuel, bfc.run fuel m = Some (Ok (Result.END, m')).

(** The operation of the last compiled instruction, as the reader's state
    determines it. *)
Definition last_op (rs : rstate) : ISet.t :=
  match fst rs with
  | [] => match snd rs with [] => ISet.NOP | _ => ISet.JZ end
  | CAdd _ :: _ => ISet.ADD
  | CMv _ :: _ => ISet.MV
  | COut :: _ => ISet.OUT
  | CDbg :: _ => ISet.DBG
  | CLoop _ :: _ => ISet.JMP
  end.

(** Adding [d] to cell [a], modulo the base [D]. *)
Definition bump (D : Z) (a d : Z) (c : list Z) : list Z :=
  upd a ((rd c a + d) mod D) c.

(** The texts of the generator on tape addresses: [go x y] is the pointer
    move of [BFGen.ptr], and so on. *)
Definition go (x y : Z) : string :=
  if y >? x then str_mul ">" (y - x) else str_mul "<" (x - y).

Definition mv_text (x y : Z) : string :=
  loop ("-" +:+ go x y +:+ "+" +:+ go y x).

Definition cp_text (x y z : Z) : string :=
  loop ("-" +:+ go x y +:+ "+" +:+ go y z +:+ "+" +:+ go z x)
  +:+ go x z +:+ mv_text z x +:+ go z x.

Definition gt_setup_text (xa xb : Z) : string :=
  cp_text xa 7 6 +:+ go xa xb +:+ cp_text xb 5 6 +:+ go xb 7 +:+ cp_text 7 3 4.

Definition gt_text : string :=
  loop ("-<<" +:+ loop "<<->" +:+ ">" +:+ loop ">" +:+ "<->>")
  +:+ "<<" +:+ loop "+" +:+ "<<".

Definition inot_text (x y : Z) : string :=
  go x y +:+ "+" +:+ go y x +:+ loop (loop "-" +:+ go x y +:+ "-" +:+ go y x).

(** Every cell holds a value below the base. *)
Definition canon (D : Z) (c : list Z) : Prop :=
  forall a, 0 <= a < len c -> 0 <= rd c a < D.

(** [bumps D l k c]: for every pair [(a, d)] of [l], add [k * d] to cell
    [a]; [weight l a] is what one round adds to cell [a]. *)
Fixpoint bumps (D : Z) (l : list (Z * Z)) (k : Z) (c : list Z) : list Z :=
  match l with
  | [] => c
  | (a, d) :: r => bump D a (k * d) (bumps D r k c)
  end.

Fixpoint weight (l : list (Z * Z)) (a : Z) : Z :=
  match l with
  | [] => 0
  | (a', d) :: r => if a' =? a then d + weight r a else weight r a
  end.

(** The addresses of a list of bumps are cells of [c]. *)
Definition within (l : list (Z * Z)) (c : list Z) : Prop :=
  Forall (fun p => 0 <= fst p < len c) l.

(** One round of the comparison loop of [BFGen.gt], the pointer on TR5:
    TR5 and TR3 lose one, TR1 loses one unless TR3 was empty. *)
Definition gt_round (D : Z) (c : list Z) : list Z :=
  let c1 := bump D 7 (-1) c in
  let c2 := if rd c 5 =? 0 then c1 else bump D 3 (-1) c1 in
  bump D 5 (-1) c2.

(** The tape cell of a register, and the value a machine holds in it. *)
Definition cell (r : string) : Z := index r Registers.

Definition reg (m : bfc.BrainFuckMachine) (r : string) : Z :=
  rd (bfc.memory m) (cell r).

(** A machine as [BrainFuckMachine.__init__] and [step] keep it: a positive
    base, room for the fifteen registers, as many cells as [memory_size]
    says, every cell below the base. *)
Definition ready (m : bfc.BrainFuckMachine) : Prop :=
  0 < bfc.data_size m /\ 15 <= bfc.memory_size m /\
  len (bfc.memory m) = bfc.memory_size m /\
  Forall (fun v => 0 <= v < bfc.data_size m) (bfc.memory m).

(** The five scratch registers are empty. *)
Definition scratch_clear (m : bfc.BrainFuckMachine) : Prop :=
  Forall (fun r => reg m r = 0) ["TR1"; "TR2"; "TR3"; "TR4"; "TR5"].

(** A machine about to run [code]: the compiled program, base [D], the given
    memory and pointer. *)
Definition machine_at (code : string) (D : Z) (mem : list Z) (p : Z) : bfc.BrainFuckMachine :=
  {| bfc.program := match bfc.compile code with Ok P => P | Raise _ => [] end;
     bfc.data_size := D; bfc.memory_size := len mem; bfc.memory := mem;
     bfc.pc := 0; bfc.last_pc := 0; bfc.mp := p; bfc.printed := [] |}.

(** Fifteen empty cells in which the listed registers hold the listed
    values. *)
Fixpoint mem_with (l : list (string * Z)) : list Z :=
  match l with
  | [] => replicate 15 0
  | (r, v) :: rest => upd (cell r) v (mem_with rest)
  end.

(** The text of [gt_setup("R1", "R2")]. *)
Definition gt_setup_R1_R2 : string :=
  Eval vm_compute in
    match BFGen.gt_setup "R1" "R2" with Ok s => s | Raise _ => "" end.

(** The text of [cp("R1", "R2", "R3")]. *)
Definition cp_R1_R2_R3 : string :=
  Eval vm_compute in
    match BFGen.cp "R1" "R2" "R3" with Ok s => s | Raise _ => "" end.

(** [cp("R1", "R2", "R3")] about to run with 1 in each of the three
    registers, and the machine at the end of that run. *)
Definition cp_clash : bfc.BrainFuckMachine :=
  machine_at cp_R1_R2_R3 256 (mem_with [("R1", 1); ("R2", 1); ("R3", 1)]) (cell "R1").

Definition cp_clash_end : bfc.BrainFuckMachine :=
  Eval vm_compute in
    match bfc.run 100 cp_clash with Some (Ok (_, m')) => m' | _ => cp_clash end.

(** The text of [inot("R1", "R2")]. *)
Definition inot_R1_R2 : string :=
  Eval vm_compute in
    match BFGen.inot "R1" "R2" with Ok s => s | Raise _ => "" end.

(** [inot("R1", "R2")] about to run with 1 in R1 and 1 in R2, and the
    machine at the end of that run. *)
Definition inot_clash : bfc.BrainFuckMachine :=
  machine_at inot_R1_R2 256 (mem_with [("R1", 1); ("R2", 1)]) (cell "R1").

Definition inot_clash_end : bfc.BrainFuckMachine :=
  Eval vm_compute in
    match bfc.run 100 inot_clash with Some (Ok (_, m')) => m' | _ => inot_clash end.

(** The texts of [ptr("R1", "TR3")] and [ptr("TR3", "R1")]. *)
Definition ptr_R1_TR3 : string :=
  Eval vm_compute in match BFGen.ptr "R1" "TR3" with Ok s => s | Raise _ => "" end.
Definition ptr_TR3_R1 : string :=
  Eval vm_compute in match BFGen.ptr "TR3" "R1" with Ok s => s | Raise _ => "" end.

(** The text a branch to a label is claimed to emit: towards a later
    instruction, FJR gains the distance; otherwise BJR gains the distance
    plus one. *)
Definition branch_text (target_ip pc : Z) : string :=
  if target_ip >? pc then "<" +:+ BFGen.inc (target_ip - pc) +:+ ">"
  else "<<" +:+ BFGen.inc (pc - target_ip + 1) +:+ ">>".

(** A branch to the label [L], bound to instruction 5, and a machine about
    to run what it emits at instruction 2. *)
Definition branch_L : Instruction :=
  mkInstruction "B" [mkOperand "L" OperandType.REFERENCE].
Definition labels_L : gmap string Label := {[ "L" := mkLabel "L" 5 ]}.

(** Instructions for the instruction compilers: a well-formed GT, a GT with
    a third operand, a GT on scratch registers, a GT whose second operand is
    an address, an ADD with a third operand. *)
Definition ref (r : string) : Operand := mkOperand r OperandType.REFERENCE.
Definition gt_R1_R2 : Instruction := mkInstruction "GT" [ref "R1"; ref "R2"].
Definition gt_three : Instruction := mkInstruction "GT" [ref "R1"; ref "R2"; ref "R3"].
Definition gt_scratch : Instruction := mkInstruction "GT" [ref "TR1"; ref "FJR"].
Definition gt_address : Instruction :=
  mkInstruction "GT" [ref "R1"; mkOperand "R2" OperandType.ADDRESS].
Definition add_three : Instruction := mkInstruction "ADD" [ref "R1"; ref "R2"; ref "R3"].

(** [MOV R1, #0x10] and [MOV R1, #16] as the parser hands them over. *)
Definition mov_hex : Instruction :=
  mkInstruction "MOV" [ref "R1"; mkOperand "0x10" OperandType.CONSTANT].
Definition mov_dec : Instruction :=
  mkInstruction "MOV" [ref "R1"; mkOperand "16" OperandType.CONSTANT].

(** The tokens of the three lines [L:], [MOV R1, #1], [L:]. *)
Definition twice_L : list Token :=
  [ mkToken "L" TokenType.LABEL 1 (1, 2); mkToken "" TokenType.NEWLINE 1 (3, 4);
    mkToken "MOV" TokenType.WORD 2 (1, 4); mkToken "R1" TokenType.WORD 2 (5, 7);
    mkToken "," TokenType.COMMA 2 (7, 8); mkToken "1" TokenType.CONSTANT 2 (10, 11);
    mkToken "" TokenType.NEWLINE 2 (11, 12);
    mkToken "L" TokenType.LABEL 3 (1, 2); mkToken "" TokenType.NEWLINE 3 (3, 4) ].

(** The number of occurrences of a character in a text. *)
Fixpoint count_char (c : ascii) (s : string) : Z :=
  match s with
  | EmptyString => 0
  | String b rest => (if Ascii.eqb b c then 1 else 0) + count_char c rest
  end.

(** The concatenation of a list of texts. *)
Fixpoint str_concat (l : list string) : string :=
  match l with
  | [] => ""
  | s :: rest => s +:+ str_concat rest
  end.

(** A program of two instructions, [MOV R1, #5] and [OUT R1]. *)
Definition mov_out : list Instruction :=
  [ mkInstruction "MOV" [ref "R1"; mkOperand "5" OperandType.CONSTANT];
    mkInstruction "OUT" [ref "R1"] ].

(** What [assemble] emits for [mov_out]. *)
Definition mov_out_text : string :=
  Eval vm_compute in match assemble mov_out ∅ with Ok s => s | Raise _ => "" end.

(** The bodies the instruction compilers emit, on tape addresses: ADD with
    a register source [s] and with a constant, MOV, OUT, GT, and the branch
    to a register [d] with its two run-time subtractions. *)
Definition add_reg_text (s a : Z) : string :=
  go 2 s +:+ mv_text s 3 +:+ go s 3
  +:+ loop ("-" +:+ go 3 s +:+ "+" +:+ go s a +:+ "+" +:+ go a 3) +:+ go 3 2.

Definition add_const_text (a n : Z) : string :=
  go 2 a +:+ str_mul "+" n +:+ go a 2.

Definition mov_text (d n : Z) : string :=
  go 2 d +:+ BFGen.clr +:+ str_mul "+" n +:+ go d 2.

Definition out_text (d : Z) : string := go 2 d +:+ "." +:+ go d 2.

Definition gt_instr_text (x y : Z) : string :=
  (go 2 8 +:+ loop "-" +:+ go 8 2) +:+ go 2 x +:+ nl +:+ gt_setup_text x y +:+ nl
  +:+ gt_text +:+ nl +:+ mv_text 3 8 +:+ nl +:+ go 3 2.

Definition sub_text (from d first second : Z) : string :=
  go from 9 +:+ cp_text 9 first 7 +:+ go 9 d +:+ cp_text d second 7 +:+ go d 6
  +:+ loop "-<->" +:+ "<".

Definition branch_reg_text (d : Z) : string :=
  go 2 9 +:+ gt_setup_text 9 d +:+ gt_text +:+ nl
  +:+ cp_text 3 5 6 +:+ go 3 5 +:+ inot_text 5 4 +:+ go 5 3 +:+ nl
  +:+ loop (sub_text 3 d 5 6 +:+ nl +:+ "+" +:+ mv_text 5 0 +:+ go 5 3 +:+ "-") +:+ nl
  +:+ ">" +:+ loop (sub_text 4 d 6 5 +:+ mv_text 5 1 +:+ go 5 4 +:+ "-") +:+ go 4 2.

(** The scratch cells TR1 to TR5 of a memory are empty. *)
Definition clear (c : list Z) : Prop :=
  rd c 3 = 0 /\ rd c 4 = 0 /\ rd c 5 = 0 /\ rd c 6 = 0 /\ rd c 7 = 0.

(** The inner contract of a body: entered on IC with the scratch cells
    empty, it comes back to IC, with IC as it was and the scratch cells empty
    again. *)
Definition Contract (D MS : Z) (body : string) : Prop :=
  forall c o, len c = MS -> canon D c -> clear c ->
    exists c' o', Runs D MS body (mkTape c 2 o) (mkTape c' 2 o') /\
      len c' = MS /\ canon D c' /\ clear c' /\ rd c' 2 = rd c 2.

(** The gated loops around a body: the one of [BFGen.fjump_wrap], which
    the dispatcher enters with IC set, and the one of [BFGen.cond]. *)
Definition dispatch_gate (inst : string) : string :=
  "[-" +:+ nl +:+ "    " +:+ inst +:+ nl +:+ "]".

Definition cond_gate (inst : string) : string := "[-" +:+ inst +:+ "]".

(** [OUT R1] and the body [BFI.out] emits for it. *)
Definition out_R1 : Instruction := mkInstruction "OUT" [ref "R1"].

Definition out_R1_text : string :=
  Eval vm_compute in match BFI.out out_R1 ∅ 0 with Ok s => s | Raise _ => "" end.

(** Bracket nesting of a text: the depth after reading [s] at depth [n],
    [None] when a closing bracket has no opening one. *)
Fixpoint depth (s : string) (n : nat) : option nat :=
  match s with
  | EmptyString => Some n
  | String b rest =>
      if Ascii.eqb b "[" then depth rest (S n)
      else if Ascii.eqb b "]" then
        match n with O => None | S k => depth rest k end
      else depth rest n
  end.

(** [s] closes every loop it opens and no other. *)
Definition Neutral (s : string) : Prop := forall k, depth s k = Some k.

(** [s] closes one loop that was opened before it, and is neutral otherwise. *)
Definition Closes (s : string) : Prop := forall k, depth s (S k) = Some k.

(** The text of [BFGen.set_pc] on tape addresses, and the body of a block: what [BFGen.wrap] emits up to the bracket that
    closes the block. *)
Definition set_pc_text (k : Z) : string :=
  go 1 9 +:+ BFGen.clr +:+ BFGen.inc k +:+ go 9 1 +:+ nl.

Definition cond_text (inst : string) : string :=
  go 2 8 +:+ cp_text 8 2 3 +:+ go 8 2 +:+ cond_gate inst.

Definition block_text (k : Z) (inst : string) : string :=
  set_pc_text k +:+ BFGen.fjump_wrap inst +:+ "<".

(** The two halves of the dispatcher around its gated loop: the probe sets
    IC when FJR is empty, the settling part takes one off a pending FJR. *)
Definition probe_text : string := "+<" +:+ loop ">-" +:+ ">" +:+ loop ">" +:+ "<".

Definition settle_text : string := "<->" +:+ loop "-<+>" +:+ "<".

(** The body that [assemble] hands to [BFGen.wrap] for one instruction: the
    text of its compiler, inside [BFGen.cond] when the name carries the
    conditional suffix; and the bodies of a whole program. *)
Definition body_of (i : Instruction) (labels : gmap string Label) (pc : Z) : py string :=
  match (if endswith_C (name i) then dict_get (str_drop_last (name i)) IPtr else None) with
  | Some f => do istr <- f i labels pc; BFGen.cond istr
  | None =>
      match dict_get (name i) IPtr with
      | Some f => f i labels pc
      | None => Raise (SystemExit ("Unrecognized instruction: " +:+ name i))
      end
  end.

Fixpoint bodies_of (pc : Z) (instructions : list Instruction)
    (labels : gmap string Label) : py (list string) :=
  match instructions with
  | [] => Ok []
  | i :: rest =>
      do b <- body_of i labels pc;
      do bs <- bodies_of (pc + 1) rest labels;
      Ok (b :: bs)
  end.

(** The blocks of consecutive instructions as [assemble] lays them out. *)
Fixpoint wraps (k : Z) (bs : list string) : string :=
  match bs with
  | [] => ""
  | b :: r => (block_text k b +:+ "]>" +:+ nl) +:+ wraps (k + 1) r
  end.

(** The same text read as nested loops: the loop opened last in the
    prologue holds the first block, and each block closes the loop that
    holds every block before it. *)
Fixpoint nest (g : string) (k : Z) (bs : list string) : string :=
  match bs with
  | [] => g
  | b :: r => nest (loop ("-" +:+ g +:+ block_text k b) +:+ ">" +:+ nl) (k + 1) r
  end.

(** Between two blocks: the cells are well formed, no backward jump is
    pending, IC and TR1 are empty. *)
Definition Inv (D MS : Z) (c : list Z) : Prop :=
  len c = MS /\ canon D c /\ rd c 0 = 0 /\ rd c 2 = 0 /\ rd c 3 = 0.

(** What block [k] does to the cells and the output, the pointer on FJR
    before and after: with no forward jump pending, PC is set to [k], the
    body runs from IC back to IC and a forward jump it has set loses one;
    with a forward jump pending, PC is set to [k], the body is skipped and
    the jump loses one. *)
Inductive Block (D MS : Z) (k : Z) (inst : string)
    : list Z -> list Z -> list Z -> list Z -> Prop :=
  | Block_exec c o c2 o2 :
      rd c 1 = 0 ->
      Runs D MS inst (mkTape (upd 9 (k mod D) c) 2 o) (mkTape c2 2 o2) ->
      Inv D MS c2 ->
      Block D MS k inst c o (upd 1 (if rd c2 1 =? 0 then 0 else rd c2 1 - 1) c2) o2
  | Block_skip c o :
      rd c 1 <> 0 -> Bal inst ->
      Block D MS k inst c o (upd 1 (rd c 1 - 1) (upd 9 (k mod D) c)) o.

(** Consecutive blocks, from block [k] on. *)
Inductive Blocks (D MS : Z) : Z -> list string
    -> list Z -> list Z -> list Z -> list Z -> Prop :=
  | Blocks_nil k c o : Blocks D MS k [] c o c o
  | Blocks_cons k b bs c o c1 o1 c' o' :
      Block D MS k b c o c1 o1 -> Blocks D MS (k + 1) bs c1 o1 c' o' ->
      Blocks D MS k (b :: bs) c o c' o'.

(** [b] is one of the characters of [cs]; every character of [s] is. *)
Fixpoint char_in (b : ascii) (cs : string) : bool :=
  match cs with
  | EmptyString => false
  | String c r => Ascii.eqb b c || char_in b r
  end.

Fixpoint all_in (cs s : string) : bool :=
  match s with
  | EmptyString => true
  | String b r => char_in b cs && all_in cs r
  end.

(** The characters of a text that [bfc.compile] acts on, and a compiled
    program without the positions it records. *)
Fixpoint ops_of (s : string) : string :=
  match s with
  | EmptyString => EmptyString
  | String b r => if char_in b "+-><.![]" then String b (ops_of r) else ops_of r
  end.

Definition code_of (P : list bfc.Instruction) : list (ISet.t * Z) :=
  map (fun ins => (bfc.i ins, bfc.data ins)) P.

Definition proj_code (ins : bfc.Instruction) : ISet.t * Z := (bfc.i ins, bfc.data ins).

(** Two results of the same kind whose programs agree up to positions. *)
Definition same_code {A} (code : A -> list (ISet.t * Z) * list Z) (r r' : py A) : Prop :=
  match r, r' with
  | Ok a, Ok b => code a = code b
  | Raise e, Raise e' => e = e'
  | _, _ => False
  end.

Definition state_code (st : list bfc.Instruction * list Z) : list (ISet.t * Z) * list Z :=
  (code_of (fst st), snd st).

(** Tokens by kind. *)
Definition is_comment (t : Token) : bool :=
  match token_type t with TokenType.COMMENT => true | _ => false end.

Definition is_newline (t : Token) : bool :=
  match token_type t with TokenType.NEWLINE => true | _ => false end.

(** The local variables of [parser] before the first token. *)
Definition parser_init : bfas.locals :=
  {| bfas.state := ParserState.STATEMENT; bfas.instructions := []; bfas.labels := ∅;
     bfas.ic := 0; bfas.curr_inst := mkInstruction "" [] |}.

(** The operands an instruction without operands is left with: those of
    the instruction completed before it. *)
Definition inherited (instrs : list Instruction) : list Operand :=
  match last instrs with Some i => operands i | None => [] end.

(** The first operand, when there is one, is a reference. *)
Definition head_is_reference (ops : list Operand) : Prop :=
  match ops with [] => True | o :: _ => type o = OperandType.REFERENCE end.

(** Instructions, texts and machines on which the properties are run. *)
Definition add_R1_R2 : Instruction := mkInstruction "ADD" [ref "R1"; ref "R2"].
Definition add_R1_R2_text : string :=
  Eval vm_compute in match BFI.add add_R1_R2 ∅ 0 with Ok s => s | Raise _ => "" end.
Definition add_R1_R2_machine : bfc.BrainFuckMachine :=
  machine_at add_R1_R2_text 256 (mem_with [("R1", 3); ("R2", 4)]) (cell "IC").

Definition add_R1_7 : Instruction :=
  mkInstruction "ADD" [ref "R1"; mkOperand "7" OperandType.CONSTANT].
Definition add_R1_7_text : string :=
  Eval vm_compute in match BFI.add add_R1_7 ∅ 0 with Ok s => s | Raise _ => "" end.
Definition add_R1_7_machine : bfc.BrainFuckMachine :=
  machine_at add_R1_7_text 256 (mem_with [("R1", 250)]) (cell "IC").

Definition mov_dec_text : string :=
  Eval vm_compute in match BFI.mov mov_dec ∅ 0 with Ok s => s | Raise _ => "" end.
Definition mov_dec_machine : bfc.BrainFuckMachine :=
  machine_at mov_dec_text 256 (mem_with [("R1", 9)]) (cell "IC").

Definition out_R1_machine : bfc.BrainFuckMachine :=
  machine_at out_R1_text 256 (mem_with [("R1", 5)]) (cell "IC").

Definition gt_R1_R2_text : string :=
  Eval vm_compute in match BFI.gt gt_R1_R2 ∅ 0 with Ok s => s | Raise _ => "" end.
Definition gt_R1_R2_machine : bfc.BrainFuckMachine :=
  machine_at gt_R1_R2_text 256 (mem_with [("R1", 3); ("R2", 2); ("CRR", 7)]) (cell "IC").

Definition b_R1 : Instruction := mkInstruction "B" [ref "R1"].
Definition b_R1_text : string :=
  Eval vm_compute in match BFI.branch b_R1 ∅ 0 with Ok s => s | Raise _ => "" end.
Definition b_R1_machine : bfc.BrainFuckMachine :=
  machine_at b_R1_text 256 (mem_with [("PC", 4); ("R1", 1)]) (cell "IC").

Definition mv_R1_R2_text : string :=
  Eval vm_compute in match BFGen.mv "R1" "R2" with Ok s => s | Raise _ => "" end.
Definition mv_R1_R2_machine : bfc.BrainFuckMachine :=
  machine_at mv_R1_R2_text 256 (mem_with [("R1", 3); ("R2", 4)]) (cell "R1").

Definition set_5_machine : bfc.BrainFuckMachine :=
  machine_at (BFGen.set 5) 256 (mem_with [("R1", 9)]) (cell "R1").

Definition set_pc_3_text : string :=
  Eval vm_compute in match BFGen.set_pc 3 with Ok s => s | Raise _ => "" end.
Definition set_pc_3_machine : bfc.BrainFuckMachine :=
  machine_at set_pc_3_text 256 (mem_with [("PC", 1)]) (cell "FJR").

Definition skip_machine : bfc.BrainFuckMachine :=
  machine_at (BFGen.fjump_wrap out_R1_text) 256 (mem_with [("FJR", 2); ("R1", 5)]) (cell "FJR").
Definition exec_machine : bfc.BrainFuckMachine :=
  machine_at (BFGen.fjump_wrap out_R1_text) 256 (mem_with [("R1", 5)]) (cell "FJR").

Definition cond_out_R1_text : string :=
  Eval vm_compute in match BFGen.cond out_R1_text with Ok s => s | Raise _ => "" end.
Definition cond_off_machine : bfc.BrainFuckMachine :=
  machine_at cond_out_R1_text 256 (mem_with [("R1", 5)]) (cell "IC").
Definition cond_on_machine : bfc.BrainFuckMachine :=
  machine_at cond_out_R1_text 256 (mem_with [("CRR", 1); ("R1", 5)]) (cell "IC").

Definition mov_out_bodies : list string :=
  Eval vm_compute in match bodies_of 0 mov_out ∅ with Ok l => l | Raise _ => [] end.
Definition mov_out_machine : bfc.BrainFuckMachine :=
  machine_at mov_out_text 256 (mem_with []) (cell "BJR").
Definition mov_out_small_machine : bfc.BrainFuckMachine :=
  machine_at mov_out_text 2 (mem_with [("R1", 1)]) (cell "BJR").

(** A machine that runs [+] and the machine at the end of that run. *)
Definition plus_machine : bfc.BrainFuckMachine := machine_at "+" 256 (mem_with []) 0.
Definition plus_machine_end : bfc.BrainFuckMachine :=
  Eval vm_compute in
    match bfc.run 10 plus_machine with Some (Ok (_, m')) => m' | _ => plus_machine end.

(** A machine about to run an OUT with the pointer one cell left of the
    tape. *)
Definition left_machine : bfc.BrainFuckMachine :=
  {| bfc.program := [bfc.new ISet.NOP 0 0; bfc.new ISet.MV 0 (-1); bfc.new ISet.OUT 1 0];
     bfc.data_size := 256; bfc.memory_size := 15; bfc.memory := mem_with [("R5", 9)];
     bfc.pc := 2; bfc.last_pc := 1; bfc.mp := -1; bfc.printed := [] |}.

(** The tokens of the lines [OUT R1] and [HLT], and of a line [L:]. *)
Definition tok (v : string) (k : TokenType.t) : Token := mkToken v k 1 (1, 2).
Definition out_line : list Token := [tok "OUT" TokenType.WORD; tok "R1" TokenType.WORD].
Definition label_line : list Token := [tok "L" TokenType.LABEL; tok "" TokenType.NEWLINE].

(** The program compiled from the text of [BFGen.clr]. *)
Definition clr_program : list bfc.Instruction :=
  Eval vm_compute in match bfc.compile "[-]" with Ok P => P | Raise _ => [] end.

(** * Cells *)

Lemma len_upd a v c : len (upd a v c) = len c.
Proof. unfold len, upd. by rewrite length_insert. Qed.

Lemma rd_upd_eq a v c : 0 <= a < len c -> rd (upd a v c) a = v.
Proof.
  intros H. unfold rd, upd, len in *.
  apply list_lookup_total_insert_eq. lia.
Qed.

Lemma rd_upd_ne a b v c : 0 <= a -> 0 <= b -> a <> b -> rd (upd a v c) b = rd c b.
Proof.
  intros Ha Hb Hne. unfold rd, upd.
  apply list_lookup_total_insert_ne. lia.
Qed.

Lemma upd_upd_eq a v w c : upd a v (upd a w c) = upd a v c.
Proof. unfold upd. apply list_insert_insert_eq. Qed.

Lemma upd_upd_ne a b v w c :
  0 <= a -> 0 <= b -> a <> b -> upd a v (upd b w c) = upd b w (upd a v c).
Proof.
  intros Ha Hb Hne. unfold upd. apply list_insert_insert_ne. lia.
Qed.

Lemma upd_rd a c : 0 <= a < len c -> upd a (rd c a) c = c.
Proof.
  intros H. unfold upd, rd, len in *.
  apply list_insert_id. apply list_lookup_lookup_total_lt. lia.
Qed.

(** * Big-step semantics: sequencing *)

Section Semantics.

Variables D MS : Z.

Lemma exec_app c1 c2 t tm t' :
  exec D MS c1 t tm -> exec D MS c2 tm t' -> exec D MS (c1 ++ c2) t t'.
Proof.
  induction 1; intros Hrest; simpl; eauto using exec.
Qed.

Lemma exec_app_inv c1 c2 t t' :
  exec D MS (c1 ++ c2) t t' ->
  exists tm, exec D MS c1 t tm /\ exec D MS c2 tm t'.
Proof.
  intros H. remember (c1 ++ c2) as c eqn:E.
  revert c1 E. induction H; intros c1 E.
  - destruct c1; [|discriminate]. simpl in E. subst c2.
    eauto using exec.
  - destruct c1 as [|x c1]; simpl in E.
    + subst c2. eexists; split; [constructor|]. by constructor.
    + injection E as <- ->.
      destruct (IHexec c1 eq_refl) as (tm & ? & ?). eauto using exec.
  - destruct c1 as [|x c1]; simpl in E.
    + subst c2. eexists; split; [constructor|]. by constructor.
    + injection E as <- ->.
      destruct (IHexec c1 eq_refl) as (tm & ? & ?). eauto using exec.
  - destruct c1 as [|x c1]; simpl in E.
    + subst c2. eexists; split; [constructor|]. by constructor.
    + injection E as <- ->.
      destruct (IHexec c1 eq_refl) as (tm & ? & ?). eauto using exec.
  - destruct c1 as [|x c1]; simpl in E.
    + subst c2. eexists; split; [constructor|]. by constructor.
    + injection E as <- ->.
      destruct (IHexec c1 eq_refl) as (tm & ? & ?). eauto using exec.
  - destruct c1 as [|x c1]; simpl in E.
    + subst c2. eexists; split; [constructor|]. by apply exec_loop_skip.
    + injection E as <- ->.
      destruct (IHexec c1 eq_refl) as (tm & ? & ?).
      eauto using exec.
  - destruct c1 as [|x c1]; simpl in E.
    + subst c2. eexists; split; [constructor|]. eapply exec_loop_iter; eauto.
    + injection E as <- ->.
      destruct (IHexec2 (CLoop body :: c1) eq_refl) as (tm & ? & ?).
      exists tm. split; [|done]. eapply exec_loop_iter; eauto.
Qed.

Lemma exec_single_inv x t t' :
  exec D MS [x] t t' ->
  match x with
  | CAdd d => inside MS t /\ D <> 0 /\ t' = t_add D d t
  | CMv d => t' = t_mv d t
  | COut => 0 <= head t < len (cells t) /\ t' = t_out t
  | CDbg => t' = t
  | CLoop _ => True
  end.
Proof.
  intros H. inversion H; subst; try done;
    match goal with H : exec _ _ [] _ _ |- _ => inversion H; subst end; auto.
Qed.

Lemma t_add_add d k t :
  inside MS t -> t_add D k (t_add D d t) = t_add D (d + k) t.
Proof.
  intros [H1 H2]. unfold t_add; simpl. f_equal.
  rewrite rd_upd_eq by lia. rewrite upd_upd_eq.
  f_equal. rewrite Zplus_mod_idemp_l. f_equal. lia.
Qed.

Lemma t_mv_mv d k t : t_mv k (t_mv d t) = t_mv (d + k) t.
Proof. unfold t_mv; simpl. f_equal. lia. Qed.

Lemma inside_t_add d t : inside MS t -> inside MS (t_add D d t).
Proof. unfold inside, t_add; simpl. by rewrite len_upd. Qed.

(** Appending one "+" or "-" to the text read so far. *)
Lemma exec_push_add k cur t0 t :
  inside MS t -> D <> 0 ->
  exec D MS (rev cur) t0 t -> exec D MS (rev (push_add k cur)) t0 (t_add D k t).
Proof.
  intros Hin HD H.
  assert (Hgen : exec D MS (rev cur ++ [CAdd k]) t0 (t_add D k t)).
  { eapply exec_app; [done|]. apply exec_add; [done..|constructor]. }
  destruct cur as [|[d| | | |] r]; simpl in *; try done.
  apply exec_app_inv in H as (tm & H1 & H2).
  apply exec_single_inv in H2 as (Hi & _ & ->).
  rewrite t_add_add by done.
  eapply exec_app; [done|]. apply exec_add; [done..|constructor].
Qed.

(** Appending one ">" or "<" to the text read so far. *)
Lemma exec_push_mv k cur t0 t :
  exec D MS (rev cur) t0 t -> exec D MS (rev (push_mv k cur)) t0 (t_mv k t).
Proof.
  intros H.
  assert (Hgen : exec D MS (rev cur ++ [CMv k]) t0 (t_mv k t)).
  { eapply exec_app; [done|]. apply exec_mv; constructor. }
  destruct cur as [|[|d| | |] r]; simpl in *; try done.
  apply exec_app_inv in H as (tm & H1 & H2).
  apply exec_single_inv in H2 as ->.
  rewrite t_mv_mv.
  eapply exec_app; [done|]. apply exec_mv; constructor.
Qed.

End Semantics.

(** * The reader *)

Lemma str_app_assoc (a b c : string) : (a +:+ b) +:+ c = a +:+ (b +:+ c).
Proof. induction a as [|x a IH]; simpl; [done|]. f_equal. apply IH. Qed.

Lemma str_app_nil_r (a : string) : a +:+ "" = a.
Proof. induction a as [|x a IH]; simpl; [done|]. f_equal. apply IH. Qed.

#[local] Arguments read_char : simpl never.

Lemma read_app s1 s2 st :
  read (s1 +:+ s2) st =
  match read s1 st with Some st' => read s2 st' | None => None end.
Proof.
  revert st. induction s1 as [|b s1 IH]; intros st; simpl; [done|].
  destruct (read_char b st); [apply IH | done].
Qed.

Lemma read_char_frame b cur stk cur' stk' extra :
  read_char b (cur, stk) = Some (cur', stk') ->
  read_char b (cur, stk ++ extra) = Some (cur', stk' ++ extra).
Proof.
  unfold read_char.
  repeat (destruct (Ascii.eqb b _); [by intros [= <- <-] |]).
  destruct (Ascii.eqb b _).
  - destruct stk as [|p stk]; [done|]. by intros [= <- <-].
  - by intros [= <- <-].
Qed.

Lemma read_frame s cur stk cur' stk' extra :
  read s (cur, stk) = Some (cur', stk') ->
  read s (cur, stk ++ extra) = Some (cur', stk' ++ extra).
Proof.
  revert cur stk. induction s as [|b s IH]; intros cur stk; simpl.
  - by intros [= <- <-].
  - destruct (read_char b (cur, stk)) as [[c1 s1]|] eqn:E; [|done].
    rewrite (read_char_frame _ _ _ _ _ extra E). apply IH.
Qed.

Lemma read_loop body b' cur :
  read body ([], []) = Some (b', []) ->
  read (loop body) (cur, []) = Some (CLoop (rev b') :: cur, []).
Proof.
  intros H. unfold loop. simpl. rewrite read_app.
  apply (read_frame _ _ _ _ _ [cur]) in H. simpl in H. by rewrite H.
Qed.

Lemma Bal_nil : Bal "".
Proof. intros cur. by exists cur. Qed.

Lemma Bal_app s1 s2 : Bal s1 -> Bal s2 -> Bal (s1 +:+ s2).
Proof.
  intros H1 H2 cur. destruct (H1 cur) as [c1 E1]. destruct (H2 c1) as [c2 E2].
  exists c2. by rewrite read_app, E1.
Qed.

Lemma Bal_loop body : Bal body -> Bal (loop body).
Proof.
  intros H cur. destruct (H []) as [b' E].
  eexists. by apply read_loop.
Qed.

Lemma Bal_rep s n : Bal s -> Bal (str_rep s n).
Proof.
  intros H. induction n as [|n IH]; simpl; [apply Bal_nil | by apply Bal_app].
Qed.

Lemma Bal_mul s n : Bal s -> Bal (str_mul s n).
Proof. apply Bal_rep. Qed.

(** A character other than the two brackets never fails to be read. *)
Lemma Bal_char (b : ascii) :
  Ascii.eqb b "[" = false -> Ascii.eqb b "]" = false -> Bal (String b "").
Proof.
  intros H1 H2 cur. unfold read, read_char. rewrite H1, H2. clear H1 H2.
  repeat (destruct (Ascii.eqb b _); [eexists; reflexivity |]).
  eexists; reflexivity.
Qed.

Section Rules.

Variables D MS : Z.

Lemma Runs_Bal s t t' : Runs D MS s t t' -> Bal s.
Proof. intros H cur. destruct (H cur) as (c & E & _). by exists c. Qed.

Lemma Runs_nil t : Runs D MS "" t t.
Proof. intros cur. by exists cur. Qed.

Lemma Runs_app s1 s2 t1 t2 t3 :
  Runs D MS s1 t1 t2 -> Runs D MS s2 t2 t3 -> Runs D MS (s1 +:+ s2) t1 t3.
Proof.
  intros H1 H2 cur.
  destruct (H1 cur) as (c1 & E1 & X1). destruct (H2 c1) as (c2 & E2 & X2).
  exists c2. split; [by rewrite read_app, E1 | auto].
Qed.

Lemma Runs_plus t : inside MS t -> D <> 0 -> Runs D MS "+" t (t_add D 1 t).
Proof.
  intros Hin HD cur. exists (push_add 1 cur). split; [done|].
  intros t0. by apply exec_push_add.
Qed.

Lemma Runs_minus t : inside MS t -> D <> 0 -> Runs D MS "-" t (t_add D (-1) t).
Proof.
  intros Hin HD cur. exists (push_add (-1) cur). split; [done|].
  intros t0. by apply exec_push_add.
Qed.

Lemma Runs_right t : Runs D MS ">" t (t_mv 1 t).
Proof.
  intros cur. exists (push_mv 1 cur). split; [done|].
  intros t0. by apply exec_push_mv.
Qed.

Lemma Runs_left t : Runs D MS "<" t (t_mv (-1) t).
Proof.
  intros cur. exists (push_mv (-1) cur). split; [done|].
  intros t0. by apply exec_push_mv.
Qed.

Lemma Runs_dot t :
  0 <= head t < len (cells t) -> Runs D MS "." t (t_out t).
Proof.
  intros Hin cur. exists (COut :: cur). split; [done|].
  intros t0 H. simpl. eapply exec_app; [done|].
  apply exec_out; [done | constructor].
Qed.

(** Characters that are no instruction of the tape machine are skipped. *)
Lemma Runs_nl t : Runs D MS nl t t.
Proof. intros cur. by exists cur. Qed.

Lemma Runs_space t : Runs D MS " " t t.
Proof. intros cur. by exists cur. Qed.

Lemma Runs_loop_skip body t :
  Bal body -> 0 <= head t < len (cells t) -> rd (cells t) (head t) = 0 ->
  Runs D MS (loop body) t t.
Proof.
  intros HB Hin H0 cur. destruct (HB []) as [b' E].
  eexists. split; [by apply read_loop|].
  intros t0 H. simpl. eapply exec_app; [done|].
  apply exec_loop_skip; [done..|constructor].
Qed.

Lemma Runs_loop_iter body t t1 t' :
  0 <= head t < len (cells t) -> rd (cells t) (head t) <> 0 ->
  Runs D MS body t t1 -> Runs D MS (loop body) t1 t' ->
  Runs D MS (loop body) t t'.
Proof.
  intros Hin Hnz Hb Hl cur.
  destruct (Hb []) as (b' & E & Xb).
  eexists. split; [by apply read_loop|].
  intros t0 H. simpl. eapply exec_app; [done|].
  destruct (Hl []) as (l' & El & Xl).
  rewrite (read_loop _ _ _ E) in El. injection El as <-.
  apply exec_loop_iter with t1; [done..| |].
  - apply Xb. constructor.
  - apply (Xl t1). constructor.
Qed.

End Rules.

(** * The machine steps through placed code *)

Lemma py_index_ok {A} (l : list A) k a :
  0 <= k -> l !! Z.to_nat k = Some a -> py_index l k = Ok a.
Proof.
  intros Hk H. unfold py_index.
  assert (k < len l) by (apply lookup_lt_Some in H; unfold len; lia).
  replace ((0 <=? k) && (k <? len l)) with true by (symmetry; apply andb_true_iff; lia).
  by rewrite H.
Qed.

Lemma py_index_rd (mem : list Z) k :
  0 <= k < len mem -> py_index mem k = Ok (rd mem k).
Proof.
  intros H. apply py_index_ok; [lia|]. unfold rd, len in *.
  apply list_lookup_lookup_total_lt. lia.
Qed.

Lemma py_setitem_ok {A} (l : list A) k a :
  0 <= k < len l -> py_setitem l k a = Ok (<[Z.to_nat k := a]> l).
Proof.
  intros H. unfold py_setitem.
  by replace ((0 <=? k) && (k <? len l)) with true by (symmetry; apply andb_true_iff; lia).
Qed.

Lemma holds_lt P k op d : holds P k op d -> 0 <= k < len P.
Proof.
  intros (Hk & ins & H & _). apply lookup_lt_Some in H. unfold len. lia.
Qed.

(** Fetching a placed instruction. *)
Lemma step_fetch m op d :
  holds (bfc.program m) (bfc.pc m) op d ->
  exists ins, bfc.i ins = op /\ bfc.data ins = d /\
    bfc.step m =
      (do r <- bfc.execute ins m;
       match r with
       | inl res => Ok (res, m)
       | inr m' =>
           if bfc.pc m' =? len (bfc.program m') then Ok (Result.END, m')
           else Ok (Result.OK, m')
       end).
Proof.
  intros Hh. pose proof (holds_lt _ _ _ _ Hh) as Hlt.
  destruct Hh as (Hk & ins & Hl & Hi & Hd).
  exists ins. repeat split; [done..|].
  unfold bfc.step.
  replace ((bfc.pc m <? 0) || (bfc.pc m >? len (bfc.program m))) with false
    by (symmetry; apply orb_false_iff; lia).
  by rewrite (py_index_ok _ _ _ Hk Hl).
Qed.

Lemma moves_flag (b : bool) (m' : bfc.BrainFuckMachine) :
  exists r, (if b then Ok (Result.END, m') else Ok (Result.OK, m'))
            = Ok (r, m') /\ (r = Result.OK \/ r = Result.END).
Proof. destruct b; eauto. Qed.

Lemma moves_add m d :
  holds (bfc.program m) (bfc.pc m) ISet.ADD d ->
  inside (bfc.memory_size m) (tape_of m) -> bfc.data_size m <> 0 ->
  moves m (bfc.pcinc
             (bfc.set_memory m
                (upd (bfc.mp m) ((rd (bfc.memory m) (bfc.mp m) + d) mod bfc.data_size m)
                   (bfc.memory m))) 1).
Proof.
  intros Hh [H1 H2] HD. simpl in H1, H2.
  unfold moves. destruct (step_fetch _ _ _ Hh) as (ins & Hi & Hd & ->).
  unfold moves, bfc.execute. rewrite Hi, Hd.
  replace ((bfc.mp m <? 0) || (bfc.mp m >=? bfc.memory_size m)) with false
    by (symmetry; apply orb_false_iff; lia).
  rewrite py_index_rd by lia. cbn [bind].
  rewrite py_setitem_ok by lia. cbn [bind].
  fold (upd (bfc.mp m) (rd (bfc.memory m) (bfc.mp m) + d) (bfc.memory m)).
  rewrite py_index_rd by (rewrite len_upd; lia).
  rewrite rd_upd_eq by lia. cbn [bind]. unfold bfc.py_mod.
  destruct (bfc.data_size m =? 0) eqn:E; [lia|]. cbn [bind].
  rewrite py_setitem_ok by (rewrite len_upd; lia). cbn [bind].
  fold (upd (bfc.mp m) ((rd (bfc.memory m) (bfc.mp m) + d) mod bfc.data_size m)
          (upd (bfc.mp m) (rd (bfc.memory m) (bfc.mp m) + d) (bfc.memory m))).
  rewrite upd_upd_eq.
  apply moves_flag.
Qed.

Lemma moves_mv m d :
  holds (bfc.program m) (bfc.pc m) ISet.MV d ->
  moves m (bfc.pcinc (bfc.set_mp m (bfc.mp m + d)) 1).
Proof.
  intros Hh. unfold moves. destruct (step_fetch _ _ _ Hh) as (ins & Hi & Hd & ->).
  unfold moves, bfc.execute. rewrite Hi, Hd. simpl. apply moves_flag.
Qed.

Lemma moves_out m d :
  holds (bfc.program m) (bfc.pc m) ISet.OUT d ->
  0 <= bfc.mp m < len (bfc.memory m) ->
  moves m (bfc.pcinc (bfc.print m (rd (bfc.memory m) (bfc.mp m))) 1).
Proof.
  intros Hh Hin. unfold moves. destruct (step_fetch _ _ _ Hh) as (ins & Hi & Hd & ->).
  unfold moves, bfc.execute. rewrite Hi.
  rewrite py_index_rd by lia. simpl. apply moves_flag.
Qed.

Lemma moves_dbg m d :
  holds (bfc.program m) (bfc.pc m) ISet.DBG d -> moves m (bfc.pcinc m 1).
Proof.
  intros Hh. unfold moves. destruct (step_fetch _ _ _ Hh) as (ins & Hi & Hd & ->).
  unfold moves, bfc.execute. rewrite Hi. simpl. apply moves_flag.
Qed.

Lemma moves_nop m d :
  holds (bfc.program m) (bfc.pc m) ISet.NOP d -> moves m (bfc.pcinc m 1).
Proof.
  intros Hh. unfold moves. destruct (step_fetch _ _ _ Hh) as (ins & Hi & Hd & ->).
  unfold moves, bfc.execute. rewrite Hi. simpl. apply moves_flag.
Qed.

Lemma moves_jmp m d :
  holds (bfc.program m) (bfc.pc m) ISet.JMP d -> moves m (bfc.pcset m d).
Proof.
  intros Hh. unfold moves. destruct (step_fetch _ _ _ Hh) as (ins & Hi & Hd & ->).
  unfold moves, bfc.execute. rewrite Hi, Hd. simpl. apply moves_flag.
Qed.

Lemma moves_jz m d :
  holds (bfc.program m) (bfc.pc m) ISet.JZ d ->
  0 <= bfc.mp m < len (bfc.memory m) ->
  moves m (if rd (bfc.memory m) (bfc.mp m) =? 0 then bfc.pcset m d else bfc.pcinc m 1).
Proof.
  intros Hh Hin. unfold moves. destruct (step_fetch _ _ _ Hh) as (ins & Hi & Hd & ->).
  unfold moves, bfc.execute. rewrite Hi, Hd.
  rewrite py_index_rd by lia. simpl.
  destruct (rd (bfc.memory m) (bfc.mp m) =? 0); simpl; apply moves_flag.
Qed.

Lemma reach_trans m1 m2 m3 : reach m1 m2 -> reach m2 m3 -> reach m1 m3.
Proof. induction 1; eauto using reach. Qed.

Lemma reach_one m m' : moves m m' -> reach m m'.
Proof. eauto using reach. Qed.

Lemma same_setup_trans m1 m2 m3 :
  same_setup m1 m2 -> same_setup m2 m3 -> same_setup m1 m3.
Proof. unfold same_setup. intros (? & ? & ?) (? & ? & ?). repeat split; congruence. Qed.

Lemma reach_cont m m1 e t' :
  moves m m1 -> same_setup m m1 ->
  (exists m', reach m1 m' /\ bfc.pc m' = e /\ tape_of m' = t' /\ same_setup m1 m') ->
  exists m', reach m m' /\ bfc.pc m' = e /\ tape_of m' = t' /\ same_setup m m'.
Proof.
  intros Hm Hs (m' & Hr & Hpc & Ht & Hs').
  exists m'. repeat split; try done.
  - eapply reach_step; eauto.
  - eapply same_setup_trans; eauto.
  - eapply same_setup_trans; eauto.
  - eapply same_setup_trans; eauto.
Qed.

Lemma exec_reach D MS c t t' :
  exec D MS c t t' ->
  forall m e,
    placed (bfc.program m) (bfc.pc m) c e -> tape_of m = t ->
    bfc.data_size m = D -> bfc.memory_size m = MS ->
    exists m', reach m m' /\ bfc.pc m' = e /\ tape_of m' = t' /\ same_setup m m'.
Proof.
  induction 1 as [t | d c t t' Hin HD _ IH | d c t t' _ IH | c t t' Hin _ IH
                 | c t t' _ IH | body c t t' Hin Hz _ IH
                 | body c t t1 t' Hin Hnz _ IHb _ IHl];
    intros m e Hp Ht HDs HMs; subst t D MS.
  - inversion Hp; subst. exists m. by repeat split; try constructor.
  - inversion Hp as [|b d' c' e' Hh Hrest| | | |]; subst.
    eapply reach_cont; [by apply moves_add | done | by apply IH].
  - inversion Hp as [| |b d' c' e' Hh Hrest| | |]; subst.
    eapply reach_cont; [by apply moves_mv | done | by apply IH].
  - inversion Hp as [| | |b d' c' e' Hh Hrest| |]; subst.
    eapply reach_cont; [by eapply moves_out | done | by apply IH].
  - inversion Hp as [| | | |b d' c' e' Hh Hrest|]; subst.
    eapply reach_cont; [by eapply moves_dbg | done | by apply IH].
  - inversion Hp as [| | | | |b body' mid c' e' Hjz Hbody Hjmp Hrest]; subst.
    pose proof (moves_jz m _ Hjz Hin) as Hm. simpl in Hz.
    replace (rd (bfc.memory m) (bfc.mp m) =? 0) with true in Hm by (symmetry; lia).
    eapply reach_cont; [exact Hm | done | by apply IH].
  - inversion Hp as [| | | | |b body' mid c' e' Hjz Hbody Hjmp Hrest]; subst.
    pose proof (moves_jz m _ Hjz Hin) as Hm. simpl in Hnz.
    replace (rd (bfc.memory m) (bfc.mp m) =? 0) with false in Hm by (symmetry; lia).
    eapply reach_cont; [exact Hm | done |].
    destruct (IHb (bfc.pcinc m 1) mid) as (m1 & Hr1 & Hpc1 & Ht1 & Hs1); try done.
    pose proof Hs1 as (Hp1 & Hd1 & Hm1). simpl in Hp1, Hd1, Hm1.
    assert (Hjmp' : holds (bfc.program m1) (bfc.pc m1) ISet.JMP (bfc.pc m))
      by (by rewrite Hp1, Hpc1).
    destruct (IHl (bfc.pcset m1 (bfc.pc m)) e) as (m' & Hr & ? & ? & Hs2); try done.
    { simpl. by rewrite Hp1. }
    exists m'. split.
    + eapply reach_trans; [exact Hr1|].
      eapply reach_step; [by apply moves_jmp | exact Hr].
    + repeat split; try done; destruct Hs2 as (? & ? & ?); simpl in *; congruence.
Qed.

(** * From reachability to [run] *)

Lemma bind_Ok {A B} (x : py A) (f : A -> py B) b :
  bind x f = Ok b -> exists a, x = Ok a /\ f a = Ok b.
Proof. destruct x; simpl; [eauto | done]. Qed.

Lemma execute_program ins m m' :
  bfc.execute ins m = Ok (inr m') -> bfc.program m' = bfc.program m.
Proof.
  unfold bfc.execute. destruct (bfc.i ins).
  - by intros [= <-].
  - destruct (_ || _); [done|]. intros H.
    repeat (apply bind_Ok in H as (? & _ & H)). by injection H as <-.
  - by intros [= <-].
  - by intros [= <-].
  - intros H. apply bind_Ok in H as (v & _ & H).
    destruct (v =? 0); by injection H as <-.
  - intros H. apply bind_Ok in H as (v & _ & H). by injection H as <-.
  - by intros [= <-].
Qed.

Lemma execute_early ins m r :
  bfc.execute ins m = Ok (inl r) -> r = Result.SEGFAULT.
Proof.
  unfold bfc.execute. destruct (bfc.i ins); try done.
  - destruct (_ || _); [by intros [= <-]|]. intros H.
    repeat (apply bind_Ok in H as (? & _ & H)). done.
  - intros H. apply bind_Ok in H as (v & _ & H). by destruct (v =? 0).
  - intros H. apply bind_Ok in H as (v & _ & H). done.
Qed.

Lemma moves_inv m m1 :
  moves m m1 ->
  0 <= bfc.pc m < len (bfc.program m) /\ bfc.program m1 = bfc.program m /\
  bfc.step m = Ok (if bfc.pc m1 =? len (bfc.program m) then Result.END else Result.OK, m1).
Proof.
  intros (r & Hstep & Hr). unfold bfc.step in *.
  destruct ((bfc.pc m <? 0) || (bfc.pc m >? len (bfc.program m))) eqn:Ebus.
  { injection Hstep as <- <-. by destruct Hr. }
  apply orb_false_iff in Ebus as [E1 E2].
  assert (Hpc : 0 <= bfc.pc m < len (bfc.program m)).
  { split; [lia|].
    destruct (Z.eq_dec (bfc.pc m) (len (bfc.program m))) as [Heq|]; [|lia].
    unfold py_index in Hstep.
    replace ((0 <=? bfc.pc m) && (bfc.pc m <? len (bfc.program m))) with false in Hstep
      by (symmetry; apply andb_false_iff; lia).
    replace ((- len (bfc.program m) <=? bfc.pc m) && (bfc.pc m <? 0)) with false in Hstep
      by (symmetry; apply andb_false_iff; lia).
    done. }
  apply bind_Ok in Hstep as (ins & Hfetch & Hstep).
  apply bind_Ok in Hstep as ([res|m'] & Hex & Hstep).
  { apply execute_early in Hex as ->. injection Hstep as <- <-. by destruct Hr. }
  pose proof (execute_program _ _ _ Hex) as Hprog.
  rewrite Hfetch. cbn [bind]. rewrite Hex. cbn [bind]. rewrite Hprog in *.
  destruct (bfc.pc m' =? len (bfc.program m)) eqn:E;
    injection Hstep as <- <-; rewrite ?E; repeat split; try done; lia.
Qed.

Lemma reach_program m m' : reach m m' -> bfc.program m' = bfc.program m.
Proof.
  induction 1 as [|m m1 m2 Hm _ IH]; [done|].
  apply moves_inv in Hm as (_ & Hp & _). congruence.
Qed.

Lemma reach_ends m m' :
  reach m m' -> bfc.pc m' = len (bfc.program m') -> bfc.pc m <> len (bfc.program m) ->
  ends m m'.
Proof.
  induction 1 as [|m m1 m2 Hm Hr IH]; intros Hend Hstart; [done|].
  pose proof (moves_inv _ _ Hm) as (Hpc & Hp & Hstep).
  destruct (bfc.pc m1 =? len (bfc.program m)) eqn:E.
  - assert (m2 = m1) as ->.
    { inversion Hr as [|? m1' ? Hm1]; subst; [done|].
      apply moves_inv in Hm1 as (Hpc1 & _). rewrite Hp in Hpc1. lia. }
    exists 1%nat. simpl. by rewrite Hstep.
  - destruct IH as [fuel Hrun]; [done | rewrite Hp; lia |].
    exists (S fuel). simpl. by rewrite Hstep.
Qed.

(** * The compiler against the reader *)

Lemma len_snoc {A} (l : list A) x : len (l ++ [x]) = len l + 1.
Proof. unfold len. rewrite length_app. simpl. lia. Qed.

Lemma lookup_snoc_lt {A} (l : list A) x k :
  0 <= k < len l -> (l ++ [x]) !! Z.to_nat k = l !! Z.to_nat k.
Proof. intros H. apply lookup_app_l. unfold len in H. lia. Qed.

Lemma lookup_snoc_eq {A} (l : list A) x : (l ++ [x]) !! Z.to_nat (len l) = Some x.
Proof. unfold len. rewrite Nat2Z.id. apply list_lookup_middle. done. Qed.

Lemma holds_ext P P' k op d :
  holds P k op d -> P' !! Z.to_nat k = P !! Z.to_nat k -> holds P' k op d.
Proof. intros (Hk & ins & H & ?) E. split; [done|]. exists ins. by rewrite E. Qed.

Lemma placed_le P b c e : placed P b c e -> b <= e.
Proof. induction 1; lia. Qed.

Lemma placed_ext P P' b c e :
  placed P b c e ->
  (forall k, b <= k < e -> P' !! Z.to_nat k = P !! Z.to_nat k) ->
  placed P' b c e.
Proof.
  induction 1 as [b | b d c e Hh Hr IH | b d c e Hh Hr IH | b d c e Hh Hr IH
                 | b d c e Hh Hr IH | b body m c e Hjz Hb IHb Hjmp Hr IHr];
    intros Hsame.
  - constructor.
  - pose proof (placed_le _ _ _ _ Hr).
    constructor; [eapply holds_ext; [done | apply Hsame; lia] | apply IH].
    intros k Hk. apply Hsame. lia.
  - pose proof (placed_le _ _ _ _ Hr).
    constructor; [eapply holds_ext; [done | apply Hsame; lia] | apply IH].
    intros k Hk. apply Hsame. lia.
  - pose proof (placed_le _ _ _ _ Hr).
    econstructor; [eapply holds_ext; [done | apply Hsame; lia] | apply IH].
    intros k Hk. apply Hsame. lia.
  - pose proof (placed_le _ _ _ _ Hr).
    econstructor; [eapply holds_ext; [done | apply Hsame; lia] | apply IH].
    intros k Hk. apply Hsame. lia.
  - pose proof (placed_le _ _ _ _ Hr). pose proof (placed_le _ _ _ _ Hb).
    apply placed_loop with m.
    + eapply holds_ext; [done | apply Hsame; lia].
    + apply IHb. intros k Hk. apply Hsame. lia.
    + eapply holds_ext; [done | apply Hsame; lia].
    + apply IHr. intros k Hk. apply Hsame. lia.
Qed.

Lemma placed_app P b c1 m c2 e :
  placed P b c1 m -> placed P m c2 e -> placed P b (c1 ++ c2) e.
Proof. induction 1; intros Hrest; simpl; eauto using placed. Qed.

Lemma placed_app_inv P c1 : forall b c2 e,
  placed P b (c1 ++ c2) e -> exists m, placed P b c1 m /\ placed P m c2 e.
Proof.
  induction c1 as [|x c1 IH]; intros b c2 e H; simpl in H.
  - exists b. split; [constructor | done].
  - inversion H; subst;
      match goal with Hr : placed _ _ (c1 ++ c2) _ |- _ =>
        apply IH in Hr as (m' & ? & ?) end;
      exists m'; split; eauto using placed.
Qed.

Lemma frames_ge P s stk ls : frames P s stk ls -> 1 <= s.
Proof.
  induction 1 as [|s0 parent stk addr ls d _ IH Hp _]; [lia|].
  apply placed_le in Hp. lia.
Qed.

Lemma frames_ext P P' s stk ls :
  frames P s stk ls ->
  (forall k, 0 <= k < s -> P' !! Z.to_nat k = P !! Z.to_nat k) ->
  frames P' s stk ls.
Proof.
  induction 1 as [d Hh | s0 parent stk addr ls d Hf IH Hp Hjz]; intros Hsame.
  - apply frames_top with d. eapply holds_ext; [done | apply Hsame; lia].
  - pose proof (placed_le _ _ _ _ Hp). pose proof (frames_ge _ _ _ _ Hf).
    apply frames_open with s0 d.
    + apply IH. intros k Hk. apply Hsame. lia.
    + eapply placed_ext; [done|]. intros k Hk. apply Hsame. lia.
    + eapply holds_ext; [done | apply Hsame; lia].
Qed.

(** The last compiled instruction is the one the reader's state announces. *)
Lemma tracks_last P ls cur stk :
  tracks (P, ls) (cur, stk) ->
  exists ins, P !! Z.to_nat (len P - 1) = Some ins /\ 1 <= len P /\
    bfc.i ins = last_op (cur, stk) /\
    (forall d r, cur = CAdd d :: r -> bfc.data ins = d) /\
    (forall d r, cur = CMv d :: r -> bfc.data ins = d).
Proof.
  intros (start & Hf & Hp). simpl in *.
  destruct cur as [|x r]; simpl in Hp.
  - inversion Hp; subst.
    inversion Hf as [d (_ & ins & Hl & Hi & _) Hs | s0 parent stk' addr ls' d _ _
                       (Ha & ins & Hl & Hi & _) Hs]; subst.
    + exists ins. simpl. by repeat split.
    + exists ins.
      replace (addr + 1 - 1) with addr by lia. repeat split; try done. lia.
  - apply placed_app_inv in Hp as (m & _ & Hp).
    inversion Hp as [| ? ? ? ? Hh Hr | ? ? ? ? Hh Hr | ? ? ? ? Hh Hr | ? ? ? ? Hh Hr
                    | ? ? mid ? ? Hjz Hb Hh Hr]; subst;
      inversion Hr; subst;
      destruct Hh as (Hk & ins & Hl & Hi & Hd);
      exists ins; rewrite Z.add_simpl_r;
      repeat split; try done; try lia; by intros ? ? [= <- _].
Qed.

Lemma len_insert {A} (l : list A) i x : len (<[i := x]> l) = len l.
Proof. unfold len. by rewrite length_insert. Qed.

Lemma py_index_last {A} (l : list A) a :
  1 <= len l -> l !! Z.to_nat (len l - 1) = Some a -> py_index l (-1) = Ok a.
Proof.
  intros Hlen H. unfold py_index.
  replace ((0 <=? -1) && (-1 <? len l)) with false by done.
  replace ((- len l <=? -1) && (-1 <? 0)) with true by (symmetry; apply andb_true_iff; lia).
  replace (-1 + len l) with (len l - 1) by lia. by rewrite H.
Qed.

Lemma py_setitem_last {A} (l : list A) a :
  1 <= len l -> py_setitem l (-1) a = Ok (<[Z.to_nat (len l - 1) := a]> l).
Proof.
  intros Hlen. unfold py_setitem.
  replace ((0 <=? -1) && (-1 <? len l)) with false by done.
  replace ((- len l <=? -1) && (-1 <? 0)) with true by (symmetry; apply andb_true_iff; lia).
  by replace (-1 + len l) with (len l - 1) by lia.
Qed.

Lemma holds_snoc P ins :
  holds (P ++ [ins]) (len P) (bfc.i ins) (bfc.data ins).
Proof.
  split; [unfold len; lia|]. exists ins. by rewrite lookup_snoc_eq.
Qed.

Lemma tracks_snoc P ls cur stk ins x :
  tracks (P, ls) (cur, stk) ->
  placed (P ++ [ins]) (len P) [x] (len P + 1) ->
  tracks (P ++ [ins], ls) (x :: cur, stk).
Proof.
  intros (start & Hf & Hp) Hx. simpl in *.
  pose proof (placed_le _ _ _ _ Hp) as Hle. pose proof (frames_ge _ _ _ _ Hf) as Hge.
  exists start. simpl. split.
  - eapply frames_ext; [done|]. intros k Hk. apply lookup_snoc_lt. lia.
  - rewrite len_snoc. eapply placed_app; [|done].
    eapply placed_ext; [done|]. intros k Hk. apply lookup_snoc_lt. lia.
Qed.

Lemma tracks_push_add P ls cur stk k pos :
  tracks (P, ls) (cur, stk) ->
  exists P', bfc.bump ISet.ADD k pos P = Ok P' /\ tracks (P', ls) (push_add k cur, stk).
Proof.
  intros Ht.
  destruct (tracks_last _ _ _ _ Ht) as (ins & Hl & Hlen & Hi & Hadd & _).
  unfold bfc.bump. rewrite (py_index_last _ _ Hlen Hl). cbn [bind]. rewrite Hi.
  assert (Hnew : tracks (P ++ [bfc.new ISet.ADD pos k], ls) (CAdd k :: cur, stk)).
  { apply tracks_snoc; [done|].
    eapply placed_add; [apply (holds_snoc P (bfc.new ISet.ADD pos k)) | constructor]. }
  destruct cur as [|[d| | | |] r]; try (destruct stk; by eexists).
  simpl. rewrite (py_setitem_last _ _ Hlen). eexists. split; [done|].
  destruct Ht as (start & Hf & Hp). simpl in *.
  apply placed_app_inv in Hp as (m & Hp1 & Hp2).
  inversion Hp2 as [|? ? ? ? Hh Hr| | | |]; subst. inversion Hr; subst.
  pose proof (placed_le _ _ _ _ Hp1) as Hle. pose proof (frames_ge _ _ _ _ Hf) as Hge.
  rewrite ?Z.add_simpl_r in *.
  assert (Hm : (Z.to_nat m < length P)%nat) by (unfold len in *; lia).
  exists start. simpl. split.
  - eapply frames_ext; [done|]. intros j Hj. apply list_lookup_insert_ne. lia.
  - rewrite len_insert.
    match goal with H : m + 1 = len P |- _ => rewrite <- H end.
    eapply placed_app.
    + eapply placed_ext; [done|]. intros j Hj. apply list_lookup_insert_ne. lia.
    + apply placed_add; [|constructor]. split; [lia|].
      exists (bfc.add_data ins k). rewrite list_lookup_insert_eq by done.
      split; [done|]. split; [exact Hi|]. simpl. by rewrite (Hadd d r).
Qed.

Lemma tracks_push_mv P ls cur stk k pos :
  tracks (P, ls) (cur, stk) ->
  exists P', bfc.bump ISet.MV k pos P = Ok P' /\ tracks (P', ls) (push_mv k cur, stk).
Proof.
  intros Ht.
  destruct (tracks_last _ _ _ _ Ht) as (ins & Hl & Hlen & Hi & _ & Hmv).
  unfold bfc.bump. rewrite (py_index_last _ _ Hlen Hl). cbn [bind]. rewrite Hi.
  assert (Hnew : tracks (P ++ [bfc.new ISet.MV pos k], ls) (CMv k :: cur, stk)).
  { apply tracks_snoc; [done|].
    eapply placed_mv; [apply (holds_snoc P (bfc.new ISet.MV pos k)) | constructor]. }
  destruct cur as [|[|d| | |] r]; try (destruct stk; by eexists).
  simpl. rewrite (py_setitem_last _ _ Hlen). eexists. split; [done|].
  destruct Ht as (start & Hf & Hp). simpl in *.
  apply placed_app_inv in Hp as (m & Hp1 & Hp2).
  inversion Hp2 as [| |? ? ? ? Hh Hr| | |]; subst. inversion Hr; subst.
  pose proof (placed_le _ _ _ _ Hp1) as Hle. pose proof (frames_ge _ _ _ _ Hf) as Hge.
  rewrite ?Z.add_simpl_r in *.
  assert (Hm : (Z.to_nat m < length P)%nat) by (unfold len in *; lia).
  exists start. simpl. split.
  - eapply frames_ext; [done|]. intros j Hj. apply list_lookup_insert_ne. lia.
  - rewrite len_insert.
    match goal with H : m + 1 = len P |- _ => rewrite <- H end.
    eapply placed_app.
    + eapply placed_ext; [done|]. intros j Hj. apply list_lookup_insert_ne. lia.
    + apply placed_mv; [|constructor]. split; [lia|].
      exists (bfc.add_data ins k). rewrite list_lookup_insert_eq by done.
      split; [done|]. split; [exact Hi|]. simpl. by rewrite (Hmv d r).
Qed.

Lemma tracks_open P ls cur stk pos :
  tracks (P, ls) (cur, stk) ->
  tracks (P ++ [bfc.new ISet.JZ pos 0], (len (P ++ [bfc.new ISet.JZ pos 0]) - 1) :: ls)
         ([], cur :: stk).
Proof.
  intros (start & Hf & Hp). simpl in *.
  pose proof (placed_le _ _ _ _ Hp) as Hle. pose proof (frames_ge _ _ _ _ Hf) as Hge.
  rewrite len_snoc. rewrite Z.add_simpl_r.
  exists (len P + 1). simpl. split; [|rewrite len_snoc; constructor].
  apply frames_open with start 0.
  - eapply frames_ext; [done|]. intros k Hk. apply lookup_snoc_lt. lia.
  - eapply placed_ext; [done|]. intros k Hk. apply lookup_snoc_lt. lia.
  - apply (holds_snoc P (bfc.new ISet.JZ pos 0)).
Qed.

Lemma tracks_close P addr ls cur parent stk pos :
  tracks (P, addr :: ls) (cur, parent :: stk) ->
  exists a P',
    py_index (P ++ [bfc.new ISet.JMP pos addr]) addr = Ok a /\
    py_setitem (P ++ [bfc.new ISet.JMP pos addr]) addr
      (bfc.set_data a (len (P ++ [bfc.new ISet.JMP pos addr]))) = Ok P' /\
    tracks (P', ls) (CLoop (rev cur) :: parent, stk).
Proof.
  intros (start & Hf & Hp). simpl in *.
  inversion Hf as [|s0 ? ? ? ? d Hf' Hpar Hjz]; subst.
  pose proof (placed_le _ _ _ _ Hp) as Hle. pose proof (frames_ge _ _ _ _ Hf') as Hge.
  pose proof (placed_le _ _ _ _ Hpar) as Hle'.
  pose proof (holds_lt _ _ _ _ Hjz) as Hlt.
  destruct Hjz as (Hk & a & Hl & Hi & _).
  set (P1 := P ++ [bfc.new ISet.JMP pos addr]).
  assert (Hlen1 : len P1 = len P + 1) by apply len_snoc.
  exists a. eexists. split; [|split].
  - apply py_index_ok; [done|]. unfold P1. by rewrite lookup_snoc_lt.
  - apply py_setitem_ok. lia.
  - set (P2 := <[Z.to_nat addr := bfc.set_data a (len P1)]> P1).
    assert (Hlen2 : len P2 = len P + 1)
      by (unfold P2, len in *; rewrite length_insert; lia).
    assert (Hsame : forall j, 0 <= j < len P -> j <> addr ->
                      P2 !! Z.to_nat j = P !! Z.to_nat j).
    { intros j Hj Hne. unfold P2, P1.
      rewrite list_lookup_insert_ne by lia. by apply lookup_snoc_lt. }
    exists s0. simpl. split.
    + eapply frames_ext; [done|]. intros j Hj. apply Hsame; lia.
    + rewrite Hlen2. eapply placed_app.
      * eapply placed_ext; [done|]. intros j Hj. apply Hsame; lia.
      * apply placed_loop with (len P); [| | |constructor].
        -- split; [done|]. exists (bfc.set_data a (len P1)). unfold P2.
           rewrite list_lookup_insert_eq by (unfold len in *; lia).
           repeat split; [done|]. simpl. lia.
        -- eapply placed_ext; [done|]. intros j Hj. apply Hsame; lia.
        -- split; [unfold len; lia|]. exists (bfc.new ISet.JMP pos addr). unfold P2, P1.
           rewrite list_lookup_insert_ne by (unfold len in *; lia).
           by rewrite lookup_snoc_eq.
Qed.

#[local] Arguments bfc.compile_char : simpl never.

Lemma compile_char_tracks pos b st rs rs' :
  tracks st rs -> read_char b rs = Some rs' ->
  exists st', bfc.compile_char pos b st = Ok st' /\ tracks st' rs'.
Proof.
  destruct st as [P ls], rs as [cur stk]. intros Ht.
  unfold read_char, bfc.compile_char.
  destruct (Ascii.eqb b "+").
  { intros [= <-]. destruct (tracks_push_add _ _ _ _ 1 pos Ht) as (P' & -> & ?). by eexists. }
  destruct (Ascii.eqb b "-").
  { intros [= <-]. destruct (tracks_push_add _ _ _ _ (-1) pos Ht) as (P' & -> & ?). by eexists. }
  destruct (Ascii.eqb b ">").
  { intros [= <-]. destruct (tracks_push_mv _ _ _ _ 1 pos Ht) as (P' & -> & ?). by eexists. }
  destruct (Ascii.eqb b "<").
  { intros [= <-]. destruct (tracks_push_mv _ _ _ _ (-1) pos Ht) as (P' & -> & ?). by eexists. }
  destruct (Ascii.eqb b ".").
  { intros [= <-]. eexists. split; [done|]. apply tracks_snoc; [done|].
    eapply placed_out; [apply (holds_snoc P (bfc.new ISet.OUT pos 0)) | constructor]. }
  destruct (Ascii.eqb b "!").
  { intros [= <-]. eexists. split; [done|]. apply tracks_snoc; [done|].
    eapply placed_dbg; [apply (holds_snoc P (bfc.new ISet.DBG pos 0)) | constructor]. }
  destruct (Ascii.eqb b "[").
  { intros [= <-]. eexists. split; [done|]. by apply tracks_open. }
  destruct (Ascii.eqb b "]").
  { destruct stk as [|parent stk]; [done|]. intros [= <-].
    destruct Ht as (start & Hf & Hp). simpl in Hf.
    inversion Hf; subst.
    edestruct tracks_close as (a & P' & -> & Hset & Htr).
    { exists (addr + 1). split; [exact Hf | exact Hp]. }
    cbn [bind]. rewrite Hset. cbn [bind]. eauto. }
  intros [= <-]. eauto.
Qed.

Lemma compile_loop_tracks s : forall pos st rs rs',
  tracks st rs -> read s rs = Some rs' ->
  exists st', bfc.compile_loop pos s st = Ok st' /\ tracks st' rs'.
Proof.
  induction s as [|b s IH]; intros pos st rs rs' Ht Hr; simpl in *.
  - injection Hr as <-. eauto.
  - destruct (read_char b rs) as [rs1|] eqn:E; [|done].
    destruct (compile_char_tracks pos b _ _ _ Ht E) as (st1 & -> & Ht1).
    cbn [bind]. eauto.
Qed.

(** The bridge: a run derived on the text is a run of the machine on the
    compiled program. *)
Theorem Runs_ends D MS code t t' :
  Runs D MS code t t' ->
  forall m, loaded code m -> tape_of m = t ->
    bfc.data_size m = D -> bfc.memory_size m = MS ->
    exists m', ends m m' /\ tape_of m' = t' /\ same_setup m m'.
Proof.
  intros HR m [Hc Hpc] Ht HD HM.
  destruct (HR []) as (c' & Hread & Hex).
  specialize (Hex t (exec_nil _ _ _)).
  assert (Hinit : tracks ([bfc.new ISet.NOP 0 0], []) ([], [])).
  { exists 1. split; [|constructor].
    apply frames_top with 0. split; [done|]. by eexists. }
  destruct (compile_loop_tracks _ 0 _ _ _ Hinit Hread) as ([P ls] & Hcl & start & Hf & Hp).
  simpl in Hf, Hp. inversion Hf as [d Hnop|]; subst.
  unfold bfc.compile in Hc. rewrite Hcl in Hc. simpl in Hc. injection Hc as Hc.
  rewrite Hc in *.
  assert (Hm0 : moves m (bfc.pcinc m 1)).
  { eapply moves_nop. rewrite Hpc. exact Hnop. }
  destruct (exec_reach _ _ _ _ _ Hex (bfc.pcinc m 1) (len (bfc.program m)))
    as (m' & Hr & Hend & Ht' & Hs); try done.
  { simpl. by rewrite Hpc. }
  exists m'. split; [|done].
  pose proof Hs as (Hp' & _). simpl in Hp'.
  apply reach_ends.
  - eapply reach_step; eauto.
  - by rewrite Hp'.
  - pose proof (holds_lt _ _ _ _ Hnop). lia.
Qed.

(** * Cells modulo the base *)

Section Cells.

Variable D : Z.

Lemma len_bump a d c : len (bump D a d c) = len c.
Proof. apply len_upd. Qed.

Lemma rd_bump_eq a d c :
  0 <= a < len c -> rd (bump D a d c) a = (rd c a + d) mod D.
Proof. intros H. unfold bump. by rewrite rd_upd_eq. Qed.

Lemma rd_bump_ne a b d c :
  0 <= a -> 0 <= b -> a <> b -> rd (bump D a d c) b = rd c b.
Proof. intros. unfold bump. by rewrite rd_upd_ne. Qed.

(** Two memories of equal length with equal cells are equal. *)
Lemma cells_ext (c1 c2 : list Z) :
  len c1 = len c2 ->
  (forall a, 0 <= a < len c1 -> rd c1 a = rd c2 a) -> c1 = c2.
Proof.
  intros Hlen H. apply list_eq. intros i. unfold len in *.
  destruct (decide (i < length c1)%nat) as [Hi|Hi].
  - rewrite !list_lookup_lookup_total_lt by lia. f_equal.
    specialize (H (Z.of_nat i)). unfold rd in H. rewrite Nat2Z.id in H.
    apply H. lia.
  - rewrite !lookup_ge_None_2 by lia. done.
Qed.

End Cells.

(** * Bracket nesting *)

Lemma read_char_depth b cur stk :
  if Ascii.eqb b "[" then
    read_char b (cur, stk) = Some ([], cur :: stk)
  else if Ascii.eqb b "]" then
    read_char b (cur, stk) =
      match stk with [] => None | p :: stk' => Some (CLoop (rev cur) :: p, stk') end
  else exists cur', read_char b (cur, stk) = Some (cur', stk).
Proof.
  unfold read_char.
  destruct (Ascii.eqb b "[") eqn:E1.
  { apply Ascii.eqb_eq in E1 as ->. done. }
  destruct (Ascii.eqb b "]") eqn:E2.
  { apply Ascii.eqb_eq in E2 as ->. done. }
  clear E1 E2.
  repeat (destruct (Ascii.eqb b _); [by eexists|]). by eexists.
Qed.

Lemma read_depth s : forall n m cur stk,
  depth s n = Some m -> length stk = n ->
  exists cur' stk', read s (cur, stk) = Some (cur', stk') /\ length stk' = m.
Proof.
  induction s as [|b s IH]; intros n m cur stk Hd Hlen; simpl in *.
  - injection Hd as <-. eauto.
  - pose proof (read_char_depth b cur stk) as Hc.
    destruct (Ascii.eqb b "[").
    { rewrite Hc. eapply IH; [done|]. simpl. by rewrite Hlen. }
    destruct (Ascii.eqb b "]").
    { rewrite Hc. destruct n as [|k]; [done|]. destruct stk as [|p stk]; [done|].
      eapply IH; [done|]. simpl in Hlen. lia. }
    destruct Hc as (cur' & ->). eauto.
Qed.

Lemma Bal_depth s : depth s 0 = Some 0%nat -> Bal s.
Proof.
  intros H cur. destruct (read_depth s _ _ cur [] H eq_refl) as (c' & stk' & E & Hl).
  destruct stk'; [|done]. eauto.
Qed.

Lemma Bal_go x y : Bal (go x y).
Proof.
  unfold go. destruct (y >? x); apply Bal_mul; by apply Bal_depth.
Qed.

(** * Running texts on tapes *)

Section Running.

Variables D MS : Z.
Hypothesis D_pos : 0 < D.

Lemma Runs_cons b s t1 t2 t3 :
  Runs D MS (String b "") t1 t2 -> Runs D MS s t2 t3 -> Runs D MS (String b s) t1 t3.
Proof. apply (Runs_app D MS (String b "")). Qed.

Lemma Runs_inc1 c h o :
  0 <= h < MS -> h < len c ->
  Runs D MS "+" (mkTape c h o) (mkTape (bump D h 1 c) h o).
Proof. intros. apply Runs_plus; [done | lia]. Qed.

Lemma Runs_dec1 c h o :
  0 <= h < MS -> h < len c ->
  Runs D MS "-" (mkTape c h o) (mkTape (bump D h (-1) c) h o).
Proof. intros. apply Runs_minus; [done | lia]. Qed.

Lemma Runs_right1 c h o : Runs D MS ">" (mkTape c h o) (mkTape c (h + 1) o).
Proof. apply Runs_right. Qed.

Lemma Runs_left1 c h o : Runs D MS "<" (mkTape c h o) (mkTape c (h - 1) o).
Proof. apply Runs_left. Qed.

Lemma Runs_rights n c h o :
  Runs D MS (str_rep ">" n) (mkTape c h o) (mkTape c (h + Z.of_nat n) o).
Proof.
  revert h. induction n as [|n IH]; intros h.
  - replace (h + Z.of_nat 0) with h by lia. apply Runs_nil.
  - simpl str_rep. eapply Runs_cons; [apply Runs_right1|].
    replace (h + Z.of_nat (S n)) with (h + 1 + Z.of_nat n) by lia. apply IH.
Qed.

Lemma Runs_lefts n c h o :
  Runs D MS (str_rep "<" n) (mkTape c h o) (mkTape c (h - Z.of_nat n) o).
Proof.
  revert h. induction n as [|n IH]; intros h.
  - replace (h - Z.of_nat 0) with h by lia. apply Runs_nil.
  - simpl str_rep. eapply Runs_cons; [apply Runs_left1|].
    replace (h - Z.of_nat (S n)) with (h - 1 - Z.of_nat n) by lia. apply IH.
Qed.

(** The pointer move of [BFGen.ptr]. *)
Lemma Runs_go x y c o : Runs D MS (go x y) (mkTape c x o) (mkTape c y o).
Proof.
  unfold go, str_mul. destruct (y >? x) eqn:E.
  - replace y with (x + Z.of_nat (Z.to_nat (y - x))) at 2 by lia. apply Runs_rights.
  - replace y with (x - Z.of_nat (Z.to_nat (x - y))) at 2 by lia. apply Runs_lefts.
Qed.

Lemma bump_bump a d e c :
  0 <= a < len c -> bump D a e (bump D a d c) = bump D a (d + e) c.
Proof.
  intros H. unfold bump. rewrite rd_upd_eq by done. rewrite upd_upd_eq.
  f_equal. rewrite Zplus_mod_idemp_l. f_equal. lia.
Qed.

Lemma bump_0 a c : 0 <= a < len c -> 0 <= rd c a < D -> bump D a 0 c = c.
Proof.
  intros H Hc. unfold bump. rewrite Z.add_0_r, Z.mod_small by done.
  by apply upd_rd.
Qed.

(** [BFGen.inc]: [n] increments. *)
Lemma Runs_incs n c h o :
  0 <= n -> 0 <= h < MS -> h < len c -> 0 <= rd c h < D ->
  Runs D MS (str_mul "+" n) (mkTape c h o) (mkTape (bump D h n c) h o).
Proof.
  intros Hn Hh Hl Hc. unfold str_mul.
  rewrite <- (Z2Nat.id n) at 2 by done.
  generalize (Z.to_nat n) as k. clear n Hn. intros k.
  induction k as [|k IH].
  - simpl. rewrite bump_0 by (done || lia). apply Runs_nil.
  - replace (str_rep "+" (S k)) with (str_rep "+" k +:+ "+").
    + eapply Runs_app; [exact IH|].
      replace (Z.of_nat (S k)) with (Z.of_nat k + 1) by lia.
      rewrite <- bump_bump by lia.
      apply Runs_inc1; [done | by rewrite len_bump].
    + clear. induction k as [|k IH]; simpl; [done|]. by rewrite IH.
Qed.

(** A loop whose body steps a measure down by one, the tested cell being
    zero exactly when the measure is. *)
Lemma Runs_loop_measure body (f : list Z -> list Z) (mu : list Z -> nat)
    (Inv : list Z -> Prop) x o :
  Bal body ->
  (forall c, Inv c -> 0 <= x < len c /\ (rd c x = 0 <-> mu c = 0%nat)) ->
  (forall c, Inv c -> mu c <> 0%nat ->
     Runs D MS body (mkTape c x o) (mkTape (f c) x o) /\ Inv (f c) /\
     mu (f c) = Nat.pred (mu c)) ->
  forall c, Inv c ->
    Runs D MS (loop body) (mkTape c x o) (mkTape (Nat.iter (mu c) f c) x o).
Proof.
  intros HB Htest Hstep c. remember (mu c) as n eqn:En.
  revert c En. induction n as [|n IH]; intros c En Hc.
  - destruct (Htest c Hc) as [Hx Hz]. simpl.
    apply Runs_loop_skip; [done | done | simpl; by apply Hz].
  - destruct (Htest c Hc) as [Hx Hz].
    destruct (Hstep c Hc) as (Hb & Hinv & Hmu); [lia|].
    rewrite Nat.iter_succ_r.
    eapply Runs_loop_iter; [done | simpl; intros E; apply Hz in E; lia | exact Hb |].
    apply IH; [lia | done].
Qed.

End Running.

(** * Registers and the texts of the generator *)

Lemma str_in_In x l : str_in x l = true <-> In x l.
Proof.
  unfold str_in. rewrite existsb_exists. split.
  - intros (y & Hy & E). apply String.eqb_eq in E. by subst.
  - intros H. exists x. split; [done | apply String.eqb_refl].
Qed.

Lemma address_of_Ok a x :
  address_of a = Ok x -> In a Registers /\ 0 <= x < 15 /\ x = index a Registers.
Proof.
  unfold address_of, check_reg.
  destruct (str_in a Registers) eqn:E; [|done]. simpl. intros [= <-].
  apply str_in_In in E. split; [done|]. split; [|done].
  simpl in E. repeat (destruct E as [<-|E]; [done|]). done.
Qed.

Lemma address_of_In a : In a Registers -> address_of a = Ok (index a Registers).
Proof.
  intros H. unfold address_of, check_reg.
  apply str_in_In in H. by rewrite H.
Qed.

Lemma address_of_user a :
  In a URegisters -> exists x, address_of a = Ok x /\ 8 <= x < 15.
Proof.
  intros H. simpl in H.
  repeat (destruct H as [<-|H]; [by eexists|]). done.
Qed.

Lemma address_inj a b x : address_of a = Ok x -> address_of b = Ok x -> a = b.
Proof.
  intros Ha Hb.
  apply address_of_Ok in Ha as (Ia & _ & ->). apply address_of_Ok in Hb as (Ib & _ & E).
  simpl in Ia. repeat (destruct Ia as [<-|Ia]; [
    simpl in Ib; repeat (destruct Ib as [<-|Ib]; [done || discriminate|]); done |]).
  done.
Qed.

Lemma ptr_Ok a b x y :
  address_of a = Ok x -> address_of b = Ok y -> BFGen.ptr a b = Ok (go x y).
Proof.
  intros Ha Hb. unfold BFGen.ptr, go. rewrite Ha, Hb. simpl.
  by destruct (y >? x).
Qed.

Ltac str_norm :=
  unfold loop; repeat first [rewrite !str_app_assoc | progress simpl].

Lemma mv_Ok a b x y :
  address_of a = Ok x -> address_of b = Ok y -> BFGen.mv a b = Ok (mv_text x y).
Proof.
  intros Ha Hb. unfold BFGen.mv, mv_text.
  rewrite (ptr_Ok _ _ _ _ Ha Hb), (ptr_Ok _ _ _ _ Hb Ha). simpl.
  f_equal. by str_norm.
Qed.

Lemma cp_Ok a b c x y z :
  address_of a = Ok x -> address_of b = Ok y -> address_of c = Ok z ->
  BFGen.cp a b c = Ok (cp_text x y z).
Proof.
  intros Ha Hb Hc. unfold BFGen.cp, cp_text.
  rewrite (ptr_Ok _ _ _ _ Ha Hb), (ptr_Ok _ _ _ _ Hb Hc), (ptr_Ok _ _ _ _ Hc Ha),
    (ptr_Ok _ _ _ _ Ha Hc), (mv_Ok _ _ _ _ Hc Ha). simpl.
  f_equal. by str_norm.
Qed.

Lemma gt_setup_Ok a b x y :
  address_of a = Ok x -> address_of b = Ok y ->
  BFGen.gt_setup a b = Ok (gt_setup_text x y).
Proof.
  intros Ha Hb. unfold BFGen.gt_setup, gt_setup_text.
  rewrite (cp_Ok a "TR5" "TR4" x 7 6), (cp_Ok b "TR3" "TR4" y 5 6),
    (cp_Ok "TR5" "TR1" "TR2" 7 3 4), (ptr_Ok a b x y), (ptr_Ok b "TR5" y 7); try done.
Qed.

Lemma gt_Ok : BFGen.gt = gt_text.
Proof. reflexivity. Qed.

Lemma inot_Ok a b x y :
  address_of a = Ok x -> address_of b = Ok y ->
  BFGen.inot a b = Ok (inot_text x y).
Proof.
  intros Ha Hb. unfold BFGen.inot, inot_text.
  rewrite (ptr_Ok _ _ _ _ Ha Hb), (ptr_Ok _ _ _ _ Hb Ha). simpl.
  f_equal. by str_norm.
Qed.

(** * Transfer loops *)

Ltac eqb_simpl :=
  repeat match goal with
  | |- context [?p =? ?q] =>
      first [ rewrite (Z.eqb_refl p)
            | replace (p =? q) with false by (symmetry; apply Z.eqb_neq; lia)
            | replace (p =? q) with true by (symmetry; apply Z.eqb_eq; lia) ]
  end.

Section Transfer.

Variables D MS : Z.
Hypothesis D_pos : 0 < D.

Lemma rd_upd a v c b :
  0 <= a < len c -> 0 <= b -> rd (upd a v c) b = if a =? b then v else rd c b.
Proof.
  intros Ha Hb. destruct (Z.eqb_spec a b) as [->|Hne].
  - by apply rd_upd_eq.
  - apply rd_upd_ne; lia.
Qed.

Lemma rd_bump a d c b :
  0 <= a < len c -> 0 <= b ->
  rd (bump D a d c) b = if a =? b then (rd c a + d) mod D else rd c b.
Proof. intros Ha Hb. unfold bump. by rewrite rd_upd. Qed.

Lemma canon_upd a v c :
  0 <= a < len c -> canon D c -> 0 <= v < D -> canon D (upd a v c).
Proof.
  intros Ha Hc Hv b Hb. rewrite len_upd in Hb.
  rewrite rd_upd by lia. destruct (a =? b); [done | by apply Hc].
Qed.

Lemma canon_bump a d c : 0 <= a < len c -> canon D c -> canon D (bump D a d c).
Proof.
  intros Ha Hc. apply canon_upd; [done..|]. apply Z.mod_pos_bound. lia.
Qed.

Lemma len_bumps l k c : len (bumps D l k c) = len c.
Proof.
  induction l as [|[a d] l IH]; simpl; [done|]. by rewrite len_bump.
Qed.

Lemma canon_bumps l k c : within l c -> canon D c -> canon D (bumps D l k c).
Proof.
  intros Hw Hc. induction Hw as [|[a d] l Ha _ IH]; simpl; [done|].
  apply canon_bump; [|done]. by rewrite len_bumps.
Qed.

Lemma rd_bumps l k c a :
  within l c -> canon D c -> 0 <= a < len c ->
  rd (bumps D l k c) a = (rd c a + k * weight l a) mod D.
Proof.
  intros Hw Hc Ha. induction Hw as [|[a' d] l Ha' _ IH]; simpl.
  - rewrite Z.mul_0_r, Z.add_0_r, Z.mod_small; [done | by apply Hc].
  - simpl in Ha'. rewrite rd_bump by (rewrite ?len_bumps; lia).
    destruct (Z.eqb_spec a' a) as [->|Hne]; [|done].
    rewrite IH, Zplus_mod_idemp_l. f_equal. lia.
Qed.

Lemma within_bumps l l' k c : within l c -> within l (bumps D l' k c).
Proof. unfold within. by rewrite len_bumps. Qed.

Lemma bumps_iter l n c :
  within l c -> canon D c ->
  Nat.iter n (bumps D l 1) c = bumps D l (Z.of_nat n) c.
Proof.
  intros Hw Hc. induction n as [|n IH].
  - simpl. apply cells_ext; [by rewrite len_bumps|]. intros a Ha.
    rewrite rd_bumps by done.
    rewrite Z.mul_0_l, Z.add_0_r, Z.mod_small; [done | by apply Hc].
  - simpl Nat.iter. rewrite IH.
    apply cells_ext; [by rewrite !len_bumps|]. intros a Ha.
    rewrite !len_bumps in Ha.
    rewrite rd_bumps; [| by apply within_bumps | by apply canon_bumps
                       | by rewrite len_bumps].
    rewrite !rd_bumps by done. rewrite Zplus_mod_idemp_l. f_equal. lia.
Qed.

(** A loop that, each round, takes one from the tested cell [x] and
    applies the other bumps of [l], stops with [x] empty and every bump
    applied as many times as [x] held. *)
Lemma Runs_transfer body l x o :
  Bal body -> weight l x = -1 ->
  (forall c, len c = MS -> canon D c -> within l c ->
     Runs D MS body (mkTape c x o) (mkTape (bumps D l 1 c) x o)) ->
  forall c, len c = MS -> canon D c -> within l c -> 0 <= x < MS ->
    Runs D MS (loop body) (mkTape c x o) (mkTape (bumps D l (rd c x) c) x o).
Proof.
  intros HB Hwx Hbody c Hlen Hc Hw Hx.
  pose proof (Runs_loop_measure D MS body (bumps D l 1)
                (fun c => Z.to_nat (rd c x))
                (fun c => len c = MS /\ canon D c /\ within l c) x o HB) as HL.
  rewrite <- (Z2Nat.id (rd c x)) by (apply Hc; lia).
  rewrite <- bumps_iter by done.
  apply HL; [| |done].
  - intros c' (Hl' & Hc' & _). split; [lia|].
    specialize (Hc' x). lia.
  - intros c' (Hl' & Hc' & Hw') Hnz.
    split; [by apply Hbody|]. split.
    + split; [by rewrite len_bumps|]. split; [by apply canon_bumps | by apply within_bumps].
    + rewrite rd_bumps by (done || lia). rewrite Hwx.
      pose proof (Hc' x). rewrite Z.mod_small; lia.
Qed.

End Transfer.

(** * The primitives of the generator *)

Ltac bal :=
  repeat first [ apply Bal_depth; reflexivity | apply Bal_go | apply Bal_loop
               | apply Bal_app | apply Bal_mul ].

Ltac within_solve :=
  unfold within; repeat constructor; simpl; rewrite ?len_bumps, ?len_bump, ?len_upd; lia.

(** Small remainders: [e mod D] is [e] when [e] is below the base. *)
Ltac mod_small D :=
  repeat match goal with
  | |- context [?e mod D] => rewrite (Z.mod_small e D) by lia
  end.

Ltac arith_norm :=
  repeat progress rewrite ?Z.add_0_r, ?Z.add_0_l, ?Z.mul_1_r, ?Z.mul_0_r, ?Z.mul_1_l,
    ?Z.mul_0_l.

Ltac mod_solve D :=
  arith_norm; mod_small D;
  rewrite ?Zplus_mod_idemp_l, ?Zplus_mod_idemp_r, ?Z.mod_mod by lia;
  mod_small D;
  first [lia | f_equal; lia].

Ltac len_norm := repeat first [rewrite len_upd | rewrite len_bump | rewrite len_bumps].

Ltac rd_norm :=
  repeat first [ rewrite rd_upd by (len_norm; lia)
               | rewrite rd_bump by (len_norm; lia) ].

(** Case analysis on every comparison of addresses left in the goal. *)
Ltac split_eqb :=
  repeat match goal with
  | |- context [?p =? ?q] =>
      destruct (Z.eqb_spec p q); try lia; subst
  end.

Ltac split_ltb :=
  repeat match goal with
  | |- context [?p <? ?q] => destruct (Z.ltb_spec p q); try lia
  end.

(** Equality of two memories, cell by cell. *)
Ltac cells_eq D Hc :=
  apply cells_ext; [by len_norm|];
  let a := fresh "a" in let Ha := fresh "Ha" in
  intros a Ha; revert Ha; len_norm; intros Ha;
  pose proof (Hc a Ha); rd_norm.

Section Primitives.

Variables D MS : Z.
Hypothesis D_pos : 0 < D.

Lemma Runs_to s c c' x y o o' t :
  Runs D MS s t (mkTape c x o) -> c' = c -> y = x -> o' = o ->
  Runs D MS s t (mkTape c' y o').
Proof. by intros H -> -> ->. Qed.

(** [BFGen.mv]: the source is emptied into the destination. *)
Lemma Runs_mv x y c o :
  0 <= x < MS -> 0 <= y < MS -> x <> y -> len c = MS -> canon D c ->
  Runs D MS (mv_text x y) (mkTape c x o)
    (mkTape (bumps D [(y, 1); (x, -1)] (rd c x) c) x o).
Proof.
  intros Hx Hy Hne Hlen Hc. unfold mv_text.
  apply Runs_transfer; try done; [bal | simpl; by eqb_simpl | | within_solve].
  intros c' Hl' Hc' _.
  eapply Runs_app; [apply Runs_dec1; lia|].
  eapply Runs_app; [apply Runs_go|].
  eapply Runs_app; [apply Runs_inc1; rewrite ?len_bump; lia|].
  apply Runs_go.
Qed.

(** [BFGen.cp]: the source is added to the destination, the scratch cell
    is poured back into the source and left empty. *)
Lemma Runs_cp x y z c o :
  0 <= x < MS -> 0 <= y < MS -> 0 <= z < MS -> x <> y -> y <> z -> x <> z ->
  len c = MS -> canon D c ->
  Runs D MS (cp_text x y z) (mkTape c x o)
    (mkTape (upd z 0 (bump D x (rd c z) (bump D y (rd c x) c))) x o).
Proof.
  intros Hx Hy Hz Hxy Hyz Hxz Hlen Hc. unfold cp_text.
  set (l1 := [(z, 1); (y, 1); (x, -1)]).
  assert (Hw1 : within l1 c) by within_solve.
  eapply Runs_app.
  { apply Runs_transfer with (l := l1); try done; [bal | simpl; by eqb_simpl |].
    intros c' Hl' Hc' _.
    eapply Runs_app; [apply Runs_dec1; lia|].
    eapply Runs_app; [apply Runs_go|].
    eapply Runs_app; [apply Runs_inc1; rewrite ?len_bump; lia|].
    eapply Runs_app; [apply Runs_go|].
    eapply Runs_app; [apply Runs_inc1; rewrite ?len_bump; lia|].
    apply Runs_go. }
  eapply Runs_app; [apply Runs_go|].
  eapply Runs_app.
  { apply Runs_mv; try done; [by rewrite len_bumps | by apply canon_bumps]. }
  eapply Runs_to; [apply Runs_go | | done..].
  pose proof (Hc x) as Hvx. pose proof (Hc y) as Hvy. pose proof (Hc z) as Hvz.
  apply cells_ext; [by rewrite len_upd, !len_bump, !len_bumps|].
  intros a Ha. rewrite len_upd, !len_bump in Ha.
  rewrite rd_upd, !rd_bump by (rewrite ?len_bump; lia).
  rewrite rd_bumps with (c := bumps D l1 (rd c x) c);
    [| within_solve | by apply canon_bumps | rewrite len_bumps; lia].
  rewrite !rd_bumps with (l := l1) by (done || lia).
  simpl weight. pose proof (Hc a Ha).
  destruct (Z.eq_dec a x) as [->|?];
    [|destruct (Z.eq_dec a y) as [->|?]; [|destruct (Z.eq_dec a z) as [->|?]]];
    eqb_simpl; mod_solve D.
Qed.

(** With an empty scratch cell, [BFGen.cp] only adds the source to the
    destination. *)
Lemma Runs_cp0 x y z c o :
  0 <= x < MS -> 0 <= y < MS -> 0 <= z < MS -> x <> y -> y <> z -> x <> z ->
  len c = MS -> canon D c -> rd c z = 0 ->
  Runs D MS (cp_text x y z) (mkTape c x o) (mkTape (bump D y (rd c x) c) x o).
Proof.
  intros Hx Hy Hz Hxy Hyz Hxz Hlen Hc Hz0.
  eapply Runs_to; [by apply Runs_cp | | done..].
  apply cells_ext; [by rewrite len_upd, !len_bump|].
  intros a Ha. rewrite len_bump in Ha.
  rewrite rd_upd, !rd_bump by (rewrite ?len_bump; lia).
  rewrite ?rd_bump by lia. rewrite Hz0.
  pose proof (Hc a Ha). pose proof (Hc x).
  destruct (Z.eq_dec a x) as [->|?];
    [|destruct (Z.eq_dec a y) as [->|?]; [|destruct (Z.eq_dec a z) as [->|?]]];
    eqb_simpl; mod_solve D.
Qed.

(** "[-]": the cell under the pointer is emptied. *)
Lemma Runs_clr c h o :
  0 <= h < MS -> len c = MS -> canon D c ->
  Runs D MS BFGen.clr (mkTape c h o) (mkTape (upd h 0 c) h o).
Proof.
  intros Hh Hlen Hc. change BFGen.clr with (loop "-").
  eapply Runs_to; [apply Runs_transfer with (l := [(h, -1)]) | | done..];
    try done; [bal | simpl; by eqb_simpl | | within_solve |].
  - intros c' Hl' Hc' _. apply Runs_dec1; lia.
  - apply cells_ext; [by rewrite len_upd, len_bumps|].
    intros a Ha. rewrite len_upd in Ha.
    rewrite rd_upd, rd_bumps by (done || lia || within_solve).
    simpl weight. pose proof (Hc a Ha).
    destruct (Z.eq_dec a h) as [->|?]; eqb_simpl; mod_solve D.
Qed.

Lemma mod_wrap e : - D <= e < 0 -> e mod D = e + D.
Proof.
  intros He. rewrite <- (Z.mod_add e 1 D) by lia.
  rewrite Z.mod_small; lia.
Qed.

(** "[+]": counting up to the base empties the cell as well. *)
Lemma Runs_clr_up c h o :
  0 <= h < MS -> len c = MS -> canon D c ->
  Runs D MS (loop "+") (mkTape c h o) (mkTape (upd h 0 c) h o).
Proof.
  intros Hh Hlen Hc.
  pose proof (Runs_loop_measure D MS "+" (bumps D [(h, 1)] 1)
                (fun c => Z.to_nat ((D - rd c h) mod D))
                (fun c' => len c' = MS /\ canon D c') h o) as HL.
  eapply Runs_to; [apply HL | | done..].
  - bal.
  - intros c' [Hl' Hc']. split; [lia|]. pose proof (Hc' h).
    destruct (Z.eq_dec (rd c' h) 0) as [E|E].
    + rewrite E, Z.sub_0_r, Z.mod_same by lia. done.
    + rewrite Z.mod_small by lia. lia.
  - intros c' [Hl' Hc'] Hnz. pose proof (Hc' h) as Hv.
    assert (rd c' h <> 0).
    { intros E. rewrite E, Z.sub_0_r, Z.mod_same in Hnz by lia. done. }
    rewrite Z.mod_small in * by lia.
    split; [apply Runs_inc1; lia|]. split.
    + split; [by rewrite len_bumps | apply canon_bumps; [lia | within_solve | done]].
    + simpl bumps. rewrite rd_bump_eq by lia. change (1 * 1) with 1.
      rewrite (Z.mod_small (D - rd c' h)) by lia.
      destruct (Z.eq_dec (rd c' h + 1) D) as [E|E].
      * rewrite E, Z.mod_same, Z.sub_0_r, Z.mod_same by lia. lia.
      * rewrite (Z.mod_small (rd c' h + 1)) by lia.
        rewrite Z.mod_small by lia. lia.
  - done.
  - rewrite bumps_iter by (done || within_solve).
    apply cells_ext; [by rewrite len_upd, len_bumps|].
    intros a Ha. rewrite len_upd in Ha.
    rewrite rd_upd, rd_bumps by (done || lia || within_solve).
    simpl weight. pose proof (Hc a Ha). rewrite Z2Nat.id by (apply Z.mod_pos_bound; lia).
    destruct (Z.eq_dec a h) as [->|?]; eqb_simpl; [|mod_solve D].
    arith_norm. rewrite Zplus_mod_idemp_r.
    replace (rd c h + (D - rd c h)) with D by lia. symmetry. apply Z.mod_same. lia.
Qed.

Ltac side := simpl; len_norm; lia.

Ltac lit :=
  repeat (eapply Runs_cons;
          [ first [ apply Runs_inc1; side | apply Runs_dec1; side
                  | apply Runs_right1 | apply Runs_left1 ] |]);
  try apply Runs_nil.

Hypothesis MS_regs : 15 <= MS.

(** A literal, loop-free piece of text in front of the rest. *)
Ltac chunk :=
  eapply Runs_app;
  [eapply Runs_to; [lit | reflexivity | cbv; reflexivity | reflexivity] |].

Ltac last_chunk :=
  eapply Runs_to; [lit | try reflexivity; try done; try (cbv; reflexivity) ..].

Lemma Runs_gt_round c o :
  len c = MS -> canon D c -> rd c 4 = 0 -> rd c 6 = 0 ->
  Runs D MS ("-<<" +:+ loop "<<->" +:+ ">" +:+ loop ">" +:+ "<->>")
    (mkTape c 7 o) (mkTape (gt_round D c) 7 o).
Proof.
  intros Hlen Hc H4 H6. unfold gt_round.
  chunk.
  destruct (Z.eqb_spec (rd c 5) 0) as [E5|E5].
  - eapply Runs_app.
    { apply Runs_loop_skip; [bal | side | simpl; by rewrite rd_bump_ne]. }
    chunk.
    eapply Runs_app.
    { apply Runs_loop_skip; [bal | side | simpl; by rewrite rd_bump_ne]. }
    last_chunk.
  - eapply Runs_app.
    { eapply Runs_loop_iter; [side | simpl; by rewrite rd_bump_ne | last_chunk |].
      apply Runs_loop_skip; [bal | side |].
      simpl. by rewrite !rd_bump_ne. }
    chunk.
    eapply Runs_app.
    { eapply Runs_loop_iter; [side | simpl; by rewrite !rd_bump_ne | last_chunk |].
      apply Runs_loop_skip; [bal | side |].
      simpl. by rewrite !rd_bump_ne. }
    last_chunk.
Qed.

Lemma gt_round_iter c a b (i : nat) :
  len c = MS -> canon D c -> rd c 3 = a -> rd c 5 = b -> rd c 7 = a ->
  Z.of_nat i <= a ->
  Nat.iter i (gt_round D) c =
  upd 7 (a - Z.of_nat i)
    (upd 5 ((b - Z.of_nat i) mod D)
       (upd 3 (a - Z.of_nat i + (if b <? Z.of_nat i then 1 else 0)) c)).
Proof.
  intros Hlen Hc H3 H5 H7.
  pose proof (Hc 3) as Ha. pose proof (Hc 5) as Hb. rewrite H3 in Ha. rewrite H5 in Hb.
  induction i as [|i IH]; intros Hi.
  - simpl Nat.iter. change (Z.of_nat 0) with 0.
    cells_eq D Hc. split_eqb; split_ltb; mod_solve D.
  - simpl Nat.iter. rewrite IH by lia. unfold gt_round. rd_norm. eqb_simpl.
    replace (Z.of_nat (S i)) with (Z.of_nat i + 1) by lia.
    destruct (Z.eqb_spec ((b - Z.of_nat i) mod D) 0) as [E|E].
    + assert (b = Z.of_nat i).
      { destruct (Z_lt_dec b (Z.of_nat i)).
        - rewrite mod_wrap in E by lia. lia.
        - rewrite Z.mod_small in E by lia. lia. }
      cells_eq D Hc. split_eqb; eqb_simpl; split_ltb; mod_solve D.
    + assert (b <> Z.of_nat i).
      { intros ->. by rewrite Z.sub_diag, Z.mod_0_l in E by lia. }
      cells_eq D Hc. split_eqb; eqb_simpl; split_ltb; mod_solve D.
Qed.

Lemma gt_round_inv c :
  len c = MS -> canon D c -> rd c 4 = 0 -> rd c 6 = 0 ->
  len (gt_round D c) = MS /\ canon D (gt_round D c) /\
  rd (gt_round D c) 4 = 0 /\ rd (gt_round D c) 6 = 0 /\
  rd (gt_round D c) 7 = (rd c 7 - 1) mod D.
Proof.
  intros Hlen Hc H4 H6. unfold gt_round.
  destruct (rd c 5 =? 0);
    (split; [by len_norm|]);
    (split; [repeat (apply canon_bump; [lia | len_norm; lia |]); done|]);
    rd_norm; by eqb_simpl.
Qed.

(** [BFGen.gt]: with a in TR1 and TR5 and b in TR3, TR1 ends as a > b. *)
Lemma Runs_gt c o :
  len c = MS -> canon D c -> rd c 4 = 0 -> rd c 6 = 0 -> rd c 7 = rd c 3 ->
  Runs D MS gt_text (mkTape c 7 o)
    (mkTape (upd 7 0 (upd 5 0 (upd 3 (if rd c 3 >? rd c 5 then 1 else 0) c))) 3 o).
Proof.
  intros Hlen Hc H4 H6 H7. unfold gt_text.
  pose proof (Hc 3) as Ha. pose proof (Hc 5) as Hb.
  eapply Runs_app.
  { apply (Runs_loop_measure D MS _ (gt_round D) (fun c => Z.to_nat (rd c 7))
             (fun c => len c = MS /\ canon D c /\ rd c 4 = 0 /\ rd c 6 = 0)).
    - bal.
    - intros c' (Hl' & Hc' & _). split; [lia|]. pose proof (Hc' 7). lia.
    - intros c' (Hl' & Hc' & H4' & H6') Hnz.
      destruct (gt_round_inv c' Hl' Hc' H4' H6') as (? & ? & ? & ? & E7).
      split; [by apply Runs_gt_round|]. split; [done|].
      rewrite E7. pose proof (Hc' 7). rewrite Z.mod_small; lia.
    - done. }
  rewrite (gt_round_iter c (rd c 3) (rd c 5)) by (done || lia).
  rewrite H7, Z2Nat.id, Z.sub_diag by lia.
  chunk.
  eapply Runs_app.
  { apply Runs_clr_up; [lia | by len_norm |].
    repeat (apply canon_upd; [len_norm; lia | | ]); try done; try lia.
    - split_ltb; lia.
    - apply Z.mod_pos_bound. lia. }
  last_chunk.
  cells_eq D Hc. split_eqb; eqb_simpl; try done.
  destruct (Z.gtb_spec (rd c 3) (rd c 5)); split_ltb; lia.
Qed.

(** With nothing in the source and nothing in the scratch cell, [BFGen.cp]
    changes nothing, whatever the three registers are. *)
Lemma Runs_cp_zero x y z c o :
  0 <= x < MS -> 0 <= z < MS -> len c = MS -> rd c x = 0 -> rd c z = 0 ->
  Runs D MS (cp_text x y z) (mkTape c x o) (mkTape c x o).
Proof.
  intros Hx Hz Hlen Hx0 Hz0. unfold cp_text, mv_text.
  eapply Runs_app; [apply Runs_loop_skip; [bal | side | done]|].
  eapply Runs_app; [apply Runs_go|].
  eapply Runs_app; [apply Runs_loop_skip; [bal | side | done]|].
  apply Runs_go.
Qed.

(** [BFGen.cp] with an empty scratch cell, on distinct registers or on an
    empty source. *)
Lemma Runs_cp1 x y z c o :
  0 <= x < MS -> 0 <= y < MS -> 0 <= z < MS ->
  len c = MS -> canon D c -> rd c z = 0 ->
  rd c x = 0 \/ (x <> y /\ y <> z /\ x <> z) ->
  Runs D MS (cp_text x y z) (mkTape c x o) (mkTape (bump D y (rd c x) c) x o).
Proof.
  intros Hx Hy Hz Hlen Hc Hz0 [Hx0|(Hxy & Hyz & Hxz)].
  - rewrite Hx0, bump_0 by (try apply Hc; lia). by apply Runs_cp_zero.
  - by apply Runs_cp0.
Qed.

(** [BFGen.gt_setup]: a is copied to TR5 and TR1, b to TR3. *)
Lemma Runs_gt_setup x y c o :
  0 <= x < MS -> 0 <= y < MS -> len c = MS -> canon D c ->
  rd c 3 = 0 -> rd c 4 = 0 -> rd c 5 = 0 -> rd c 6 = 0 -> rd c 7 = 0 ->
  Runs D MS (gt_setup_text x y) (mkTape c x o)
    (mkTape (upd 3 (rd c x) (upd 5 (rd (upd 7 (rd c x) c) y) (upd 7 (rd c x) c))) 7 o).
Proof.
  intros Hx Hy Hlen Hc H3 H4 H5 H6 H7. unfold gt_setup_text.
  pose proof (Hc x) as Ha. pose proof (Hc y) as Hb.
  assert (E1 : bump D 7 (rd c x) c = upd 7 (rd c x) c).
  { unfold bump. rewrite H7. f_equal. mod_solve D. }
  eapply Runs_app.
  { apply Runs_cp1; try done; try lia.
    destruct (Z_lt_dec x 3); [right; lia|]. destruct (Z_lt_dec 7 x); [right; lia|].
    left. assert (x = 3 \/ x = 4 \/ x = 5 \/ x = 6 \/ x = 7) as [->|[->|[->|[->| ->]]]] by lia;
      done. }
  rewrite E1.
  assert (Hc1 : canon D (upd 7 (rd c x) c)) by (apply canon_upd; [lia | done | lia]).
  eapply Runs_app; [apply Runs_go|].
  eapply Runs_app.
  { apply Runs_cp1; try lia; [by len_norm | done | rd_norm; by eqb_simpl |].
    destruct (Z.eq_dec y 5) as [->|]; [left; rd_norm; by eqb_simpl|].
    destruct (Z.eq_dec y 6) as [->|]; [left; rd_norm; by eqb_simpl|].
    right. lia. }
  assert (E2 : bump D 5 (rd (upd 7 (rd c x) c) y) (upd 7 (rd c x) c)
               = upd 5 (rd (upd 7 (rd c x) c) y) (upd 7 (rd c x) c)).
  { unfold bump. f_equal. rd_norm. eqb_simpl. rewrite H5.
    destruct (7 =? y); mod_solve D. }
  rewrite E2.
  eapply Runs_app; [apply Runs_go|].
  eapply Runs_to; [apply Runs_cp0; try lia | | done..].
  - by len_norm.
  - apply canon_upd; [len_norm; lia | done |]. apply Hc1. len_norm. lia.
  - rd_norm. by eqb_simpl.
  - unfold bump. rd_norm. eqb_simpl. rewrite H3. f_equal. mod_solve D.
Qed.

(** The whole comparison: TR1 receives a > b, everything else is as
    before. *)
Lemma Runs_compare_then sep rest x y c o t' :
  (forall t, Runs D MS sep t t) ->
  0 <= x < MS -> 0 <= y < MS -> len c = MS -> canon D c ->
  rd c 3 = 0 -> rd c 4 = 0 -> rd c 5 = 0 -> rd c 6 = 0 -> rd c 7 = 0 ->
  Runs D MS rest
    (mkTape (upd 3 (if rd c x >? rd (upd 7 (rd c x) c) y then 1 else 0) c) 3 o) t' ->
  Runs D MS (gt_setup_text x y +:+ sep +:+ gt_text +:+ rest) (mkTape c x o) t'.
Proof.
  intros Hsep Hx Hy Hlen Hc H3 H4 H5 H6 H7 Hrest.
  pose proof (Hc x) as Ha.
  assert (Hc1 : canon D (upd 7 (rd c x) c)) by (apply canon_upd; [lia | done | lia]).
  pose proof (Hc1 y) as Hb. rewrite len_upd in Hb.
  eapply Runs_app; [by apply Runs_gt_setup|].
  eapply Runs_app; [apply Hsep|].
  eapply Runs_app; [|exact Hrest].
  eapply Runs_to; [apply Runs_gt | | done..].
  - by len_norm.
  - repeat (apply canon_upd; [len_norm; lia | | lia]). done.
  - rd_norm. by eqb_simpl.
  - rd_norm. by eqb_simpl.
  - rd_norm. by eqb_simpl.
  - remember (rd (upd 7 (rd c x) c) y) as b' eqn:Eb. rd_norm. eqb_simpl.
    cells_eq D Hc. rewrite ?H3, ?H5, ?H7 in *. split_eqb; eqb_simpl; done.
Qed.

Lemma Runs_compare x y c o :
  0 <= x < MS -> 0 <= y < MS -> len c = MS -> canon D c ->
  rd c 3 = 0 -> rd c 4 = 0 -> rd c 5 = 0 -> rd c 6 = 0 -> rd c 7 = 0 ->
  Runs D MS (gt_setup_text x y +:+ gt_text) (mkTape c x o)
    (mkTape (upd 3 (if rd c x >? rd (upd 7 (rd c x) c) y then 1 else 0) c) 3 o).
Proof.
  intros Hx Hy Hlen Hc H3 H4 H5 H6 H7.
  apply (Runs_compare_then "" "" x y c o); try done; [|apply Runs_nil].
  intros t. apply Runs_nil.
Qed.

(** [BFGen.inot]: the destination gains one when the source is empty; a
    source that is not is emptied. *)
Lemma Runs_inot x y c o :
  0 <= x < MS -> 0 <= y < MS -> x <> y -> len c = MS -> canon D c ->
  Runs D MS (inot_text x y) (mkTape c x o)
    (mkTape (upd x 0 (bump D y (if rd c x =? 0 then 1 else 0) c)) x o).
Proof.
  intros Hx Hy Hxy Hlen Hc. unfold inot_text.
  pose proof (Hc x) as Hvx. pose proof (Hc y) as Hvy.
  eapply Runs_app; [apply Runs_go|].
  eapply Runs_app; [apply Runs_inc1; lia|].
  eapply Runs_app; [apply Runs_go|].
  destruct (Z.eqb_spec (rd c x) 0) as [E|E].
  - eapply Runs_to; [apply Runs_loop_skip | | done..].
    + bal.
    + side.
    + simpl. rewrite rd_bump_ne by lia. done.
    + cells_eq D Hc. split_eqb; eqb_simpl; mod_solve D.
  - eapply Runs_to; [eapply Runs_loop_iter | | done..].
    + side.
    + simpl. rewrite rd_bump_ne by lia. done.
    + eapply Runs_app.
      { apply Runs_clr; [lia | by len_norm | apply canon_bump; [lia..|done]]. }
      eapply Runs_app; [apply Runs_go|].
      eapply Runs_app; [apply Runs_dec1; len_norm; lia|].
      apply Runs_go.
    + apply Runs_loop_skip; [bal | side |].
      simpl. rd_norm. by eqb_simpl.
    + cells_eq D Hc. split_eqb; eqb_simpl; mod_solve D.
Qed.

(** * The instruction bodies keep their contract *)

Lemma Runs_incs_any n c h o :
  0 <= h < MS -> h < len c -> 0 <= rd c h < D ->
  Runs D MS (str_mul "+" n) (mkTape c h o) (mkTape (bump D h (Z.max 0 n) c) h o).
Proof.
  intros Hh Hl Hc. destruct (Z_le_dec 0 n) as [Hn|Hn].
  - rewrite Z.max_r by lia. by apply Runs_incs.
  - rewrite Z.max_l by lia. unfold str_mul. rewrite Z2Nat.nonpos by lia.
    simpl. rewrite bump_0 by (done || lia). apply Runs_nil.
Qed.

Ltac kept :=
  match goal with
  | Hcl : clear _ |- _ =>
      unfold clear in *; destruct Hcl as (? & ? & ? & ? & ?);
      repeat split; rd_norm; eqb_simpl; try done
  end.

Lemma Contract_out d : 8 <= d < 15 -> Contract D MS (out_text d).
Proof.
  intros Hd c o Hlen Hc Hcl. exists c, (o ++ [rd c d]). split; [|done].
  unfold out_text.
  eapply Runs_app; [apply Runs_go|].
  eapply Runs_app; [apply Runs_dot; side|]. apply Runs_go.
Qed.

Lemma Contract_add_const a n : 8 <= a < 15 -> Contract D MS (add_const_text a n).
Proof.
  intros Ha c o Hlen Hc Hcl. exists (bump D a (Z.max 0 n) c), o.
  split; [|split; [by len_norm | split; [apply canon_bump; (done || lia) | kept]]].
  unfold add_const_text.
  eapply Runs_app; [apply Runs_go|].
  eapply Runs_app; [apply Runs_incs_any; try lia; apply Hc; lia|]. apply Runs_go.
Qed.

Lemma Contract_mov d n : 8 <= d < 15 -> Contract D MS (mov_text d n).
Proof.
  intros Hd c o Hlen Hc Hcl.
  assert (Hc0 : canon D (upd d 0 c)) by (apply canon_upd; (done || lia)).
  exists (bump D d (Z.max 0 n) (upd d 0 c)), o.
  split; [|split; [by len_norm | split; [apply canon_bump; (done || side) | kept]]].
  unfold mov_text.
  eapply Runs_app; [apply Runs_go|].
  eapply Runs_app; [apply Runs_clr; [lia | done..]|].
  eapply Runs_app; [apply Runs_incs_any; [lia | side | apply Hc0; side]|].
  apply Runs_go.
Qed.

Lemma Contract_branch_label t pc : Contract D MS (branch_text t pc).
Proof.
  intros c o Hlen Hc Hcl. unfold branch_text.
  destruct (t >? pc).
  - exists (bump D 1 (Z.max 0 (t - pc)) c), o.
    split; [|split; [by len_norm | split; [apply canon_bump; (done || lia) | kept]]].
    eapply Runs_app; [apply (Runs_left1 _ _ _ 2)|].
    eapply Runs_app; [apply Runs_incs_any; try lia; apply Hc; lia|].
    apply (Runs_right1 _ _ _ 1).
  - exists (bump D 0 (Z.max 0 (pc - t + 1)) c), o.
    split; [|split; [by len_norm | split; [apply canon_bump; (done || lia) | kept]]].
    eapply Runs_cons; [apply (Runs_left1 _ _ _ 2)|].
    eapply Runs_cons; [apply (Runs_left1 _ _ _ 1)|].
    eapply Runs_app; [apply Runs_incs_any; try lia; apply Hc; lia|].
    eapply Runs_cons; [apply (Runs_right1 _ _ _ 0)|].
    apply (Runs_right1 _ _ _ 1).
Qed.

Lemma Contract_add_reg s a :
  8 <= s < 15 -> 8 <= a < 15 -> Contract D MS (add_reg_text s a).
Proof.
  intros Hs Ha c o Hlen Hc Hcl.
  set (c1 := bumps D [(3, 1); (s, -1)] (rd c s) c).
  set (l := [(a, 1); (s, 1); (3, -1)]).
  assert (Hw1 : within [(3, 1); (s, -1)] c) by within_solve.
  assert (Hc1 : canon D c1) by by apply canon_bumps.
  assert (Hl1 : len c1 = MS) by (unfold c1; by len_norm).
  assert (Hw2 : within l c1) by (unfold l; within_solve).
  exists (bumps D l (rd c1 3) c1), o.
  split; [|split; [by len_norm | split; [by apply canon_bumps |]]].
  - unfold add_reg_text.
    eapply Runs_app; [apply Runs_go|].
    eapply Runs_app; [apply Runs_mv; (done || lia)|].
    eapply Runs_app; [apply Runs_go|].
    eapply Runs_app; [|apply Runs_go].
    apply Runs_transfer with (l := l); try done; try lia;
      [bal | unfold l; simpl; by eqb_simpl |].
    intros c' Hl' Hc' _.
    eapply Runs_app; [apply Runs_dec1; lia|].
    eapply Runs_app; [apply Runs_go|].
    eapply Runs_app; [apply Runs_inc1; side|].
    eapply Runs_app; [apply Runs_go|].
    eapply Runs_app; [apply Runs_inc1; side|].
    apply Runs_go.
  - unfold clear in *. destruct Hcl as (H3 & H4 & H5 & H6 & H7).
    rewrite !(rd_bumps D l) by (done || lia). unfold c1.
    rewrite !(rd_bumps D _ _ c) by (done || lia).
    unfold l. simpl weight. eqb_simpl. rewrite H3, H4, H5, H6, H7.
    pose proof (Hc s). pose proof (Hc 2).
    change (1 + 0) with 1. change (-1 + 0) with (-1).
    repeat split; mod_solve D.
Qed.

Lemma Contract_gt x y : 0 <= x < 15 -> 0 <= y < 15 -> Contract D MS (gt_instr_text x y).
Proof.
  intros Hx Hy c o Hlen Hc Hcl.
  set (c0 := upd 8 0 c).
  assert (Hc0 : canon D c0) by (apply canon_upd; (done || lia)).
  assert (Hl0 : len c0 = MS) by (unfold c0; by len_norm).
  set (g := if rd c0 x >? rd (upd 7 (rd c0 x) c0) y then 1 else 0).
  assert (Hg : 0 <= g < D).
  { assert (Hc7 : canon D (upd 7 (rd c0 x) c0)).
    { apply canon_upd; [lia | done | apply Hc0; lia]. }
    pose proof (Hc0 x). pose proof (Hc7 y). rewrite len_upd in *.
    unfold g. destruct (Z.gtb_spec (rd c0 x) (rd (upd 7 (rd c0 x) c0) y)); lia. }
  exists (upd 8 g (upd 3 0 c0)), o.
  unfold clear in *. destruct Hcl as (H3 & H4 & H5 & H6 & H7).
  split; [|split; [unfold c0; by len_norm | split; [|unfold c0; rd_norm; by eqb_simpl]]].
  - unfold gt_instr_text.
    eapply Runs_app.
    { eapply Runs_app; [apply Runs_go|].
      eapply Runs_app; [apply (Runs_clr c 8 o); (done || lia)|]. apply Runs_go. }
    eapply Runs_app; [apply Runs_go|].
    eapply Runs_app; [apply Runs_nl|]. fold c0.
    apply Runs_compare_then; try done; try lia;
      try (unfold c0; rd_norm; by eqb_simpl).
    { intros t. apply Runs_nl. }
    fold g. eapply Runs_app; [apply Runs_nl|].
    eapply Runs_app;
      [apply Runs_mv; try lia; [by len_norm | apply canon_upd; (done || lia)]|].
    eapply Runs_app; [apply Runs_nl|].
    eapply Runs_to; [apply Runs_go | | done ..].
    assert (E8 : rd c0 8 = 0) by (unfold c0; rd_norm; by eqb_simpl).
    simpl bumps. unfold bump. rd_norm. eqb_simpl. rewrite E8.
    cells_eq D Hc0. split_eqb; eqb_simpl; mod_solve D.
  - repeat (apply canon_upd; [len_norm; lia | | lia]). done.
Qed.

(** The inner loop of the run-time subtraction: TR4 is taken off TR3. *)
Lemma Runs_take_off c o :
  len c = MS -> canon D c ->
  Runs D MS (loop "-<->") (mkTape c 6 o)
    (mkTape (upd 6 0 (upd 5 ((rd c 5 - rd c 6) mod D) c)) 6 o).
Proof.
  intros Hlen Hc.
  eapply Runs_to;
    [apply Runs_transfer with (l := [(5, -1); (6, -1)]) | | done..];
    try done; try lia; [bal | | within_solve |].
  - intros c' Hl' Hc' _. last_chunk.
  - cells_eq D Hc. rewrite rd_bumps by (done || lia || within_solve).
    pose proof (Hc 5). pose proof (Hc 6).
    split_eqb; cbn [weight]; eqb_simpl; simpl; mod_solve D.
Qed.

(** The run-time subtractions of the register branch: TR3 ends as PC - DST,
    or as DST - PC, modulo the base. *)
Lemma Runs_sub_back from d c o :
  8 <= d < 15 -> len c = MS -> canon D c ->
  rd c 5 = 0 -> rd c 6 = 0 -> rd c 7 = 0 ->
  Runs D MS (sub_text from d 5 6) (mkTape c from o)
    (mkTape (upd 5 ((rd c 9 - rd c d) mod D) c) 5 o).
Proof.
  intros Hd Hlen Hc H5 H6 H7. unfold sub_text.
  set (c1 := bump D 5 (rd c 9) c).
  assert (Hc1 : canon D c1) by (apply canon_bump; (done || lia)).
  assert (Hl1 : len c1 = MS) by (unfold c1; by len_norm).
  set (c2 := bump D 6 (rd c1 d) c1).
  assert (Hc2 : canon D c2) by (apply canon_bump; (done || lia)).
  assert (Hl2 : len c2 = MS) by (unfold c2; by len_norm).
  eapply Runs_app; [apply Runs_go|].
  eapply Runs_app; [apply Runs_cp0; (done || lia)|].
  eapply Runs_app; [apply Runs_go|].
  eapply Runs_app.
  { apply Runs_cp0 with (c := c1); try done; try lia.
    unfold c1. rd_norm. by eqb_simpl. }
  eapply Runs_app; [apply Runs_go|].
  eapply Runs_app; [apply Runs_take_off with (c := c2); done|].
  last_chunk.
  unfold c2, c1, bump. rd_norm. eqb_simpl. rewrite H5, H6.
  pose proof (Hc 9). pose proof (Hc d). cells_eq D Hc.
  split_eqb; eqb_simpl; try mod_solve D.
Qed.

Lemma Runs_sub_fwd from d c o :
  8 <= d < 15 -> len c = MS -> canon D c ->
  rd c 5 = 0 -> rd c 6 = 0 -> rd c 7 = 0 ->
  Runs D MS (sub_text from d 6 5) (mkTape c from o)
    (mkTape (upd 5 ((rd c d - rd c 9) mod D) c) 5 o).
Proof.
  intros Hd Hlen Hc H5 H6 H7. unfold sub_text.
  set (c1 := bump D 6 (rd c 9) c).
  assert (Hc1 : canon D c1) by (apply canon_bump; (done || lia)).
  assert (Hl1 : len c1 = MS) by (unfold c1; by len_norm).
  set (c2 := bump D 5 (rd c1 d) c1).
  assert (Hc2 : canon D c2) by (apply canon_bump; (done || lia)).
  assert (Hl2 : len c2 = MS) by (unfold c2; by len_norm).
  eapply Runs_app; [apply Runs_go|].
  eapply Runs_app; [apply Runs_cp0; (done || lia)|].
  eapply Runs_app; [apply Runs_go|].
  eapply Runs_app.
  { apply Runs_cp0 with (c := c1); try done; try lia.
    unfold c1. rd_norm. by eqb_simpl. }
  eapply Runs_app; [apply Runs_go|].
  eapply Runs_app; [apply Runs_take_off with (c := c2); done|].
  last_chunk.
  unfold c2, c1, bump. rd_norm. eqb_simpl. rewrite H5, H6.
  pose proof (Hc 9). pose proof (Hc d). cells_eq D Hc.
  split_eqb; eqb_simpl; try mod_solve D.
Qed.

(** The backward arm of the register branch, entered with TR1 set: BJR
    gains PC - DST + 1 and TR1 is cleared. *)
Lemma Runs_jump_back d c o :
  8 <= d < 15 -> len c = MS -> canon D c ->
  rd c 3 = 1 -> rd c 5 = 0 -> rd c 6 = 0 -> rd c 7 = 0 ->
  Runs D MS (loop (sub_text 3 d 5 6 +:+ nl +:+ "+" +:+ mv_text 5 0 +:+ go 5 3 +:+ "-"))
    (mkTape c 3 o) (mkTape (upd 3 0 (bump D 0 (rd c 9 - rd c d + 1) c)) 3 o).
Proof.
  intros Hd Hlen Hc H3 H5 H6 H7.
  set (c1 := upd 5 ((rd c 9 - rd c d) mod D) c).
  assert (Hc1 : canon D c1).
  { apply canon_upd; [lia | done | apply Z.mod_pos_bound; lia]. }
  assert (Hl1 : len c1 = MS) by (unfold c1; by len_norm).
  set (c2 := bump D 5 1 c1).
  assert (Hc2 : canon D c2) by (apply canon_bump; (done || lia)).
  assert (Hl2 : len c2 = MS) by (unfold c2; by len_norm).
  eapply Runs_loop_iter; [side | simpl; lia | |].
  - eapply Runs_app; [by apply Runs_sub_back|].
    eapply Runs_app; [apply Runs_nl|].
    eapply Runs_app; [apply Runs_inc1; side|].
    eapply Runs_app; [apply Runs_mv with (c := c2); (done || lia)|].
    eapply Runs_app; [apply Runs_go|].
    apply Runs_dec1; side.
  - assert (E : bump D 3 (-1) (bumps D [(0, 1); (5, -1)] (rd c2 5) c2)
                = upd 3 0 (bump D 0 (rd c 9 - rd c d + 1) c)).
    { simpl bumps. unfold c2, c1, bump. rd_norm. eqb_simpl. rewrite H3.
      pose proof (Hc 9). pose proof (Hc d). pose proof (Hc 0). cells_eq D Hc.
      split_eqb; eqb_simpl; try mod_solve D. }
    rewrite E. eapply Runs_loop_skip.
    + unfold sub_text, cp_text, mv_text. bal.
    + side.
    + simpl. rd_norm. by eqb_simpl.
Qed.

(** The forward arm, entered with TR2 set: FJR gains DST - PC and TR2 is
    cleared. *)
Lemma Runs_jump_fwd d c o :
  8 <= d < 15 -> len c = MS -> canon D c ->
  rd c 4 = 1 -> rd c 5 = 0 -> rd c 6 = 0 -> rd c 7 = 0 ->
  Runs D MS (loop (sub_text 4 d 6 5 +:+ mv_text 5 1 +:+ go 5 4 +:+ "-"))
    (mkTape c 4 o) (mkTape (upd 4 0 (bump D 1 (rd c d - rd c 9) c)) 4 o).
Proof.
  intros Hd Hlen Hc H4 H5 H6 H7.
  set (c1 := upd 5 ((rd c d - rd c 9) mod D) c).
  assert (Hc1 : canon D c1).
  { apply canon_upd; [lia | done | apply Z.mod_pos_bound; lia]. }
  assert (Hl1 : len c1 = MS) by (unfold c1; by len_norm).
  eapply Runs_loop_iter; [side | simpl; lia | |].
  - eapply Runs_app; [by apply Runs_sub_fwd|].
    eapply Runs_app; [apply Runs_mv with (c := c1); (done || lia)|].
    eapply Runs_app; [apply Runs_go|].
    apply Runs_dec1; side.
  - assert (E : bump D 4 (-1) (bumps D [(1, 1); (5, -1)] (rd c1 5) c1)
                = upd 4 0 (bump D 1 (rd c d - rd c 9) c)).
    { simpl bumps. unfold c1, bump. rd_norm. eqb_simpl. rewrite H4.
      pose proof (Hc 9). pose proof (Hc d). pose proof (Hc 1). cells_eq D Hc.
      split_eqb; eqb_simpl; try mod_solve D. }
    rewrite E. eapply Runs_loop_skip.
    + unfold sub_text, cp_text, mv_text. bal.
    + side.
    + simpl. rd_norm. by eqb_simpl.
Qed.

(** The head of the register branch: TR1 ends as PC > DST and TR2 as its
    negation. *)
Lemma Runs_branch_head d c o rest t' :
  8 <= d < 15 -> len c = MS -> canon D c -> clear c ->
  Runs D MS rest
    (mkTape (upd 4 (if rd c 9 >? rd c d then 0 else 1 mod D)
               (upd 3 (if rd c 9 >? rd c d then 1 else 0) c)) 3 o) t' ->
  Runs D MS (go 2 9 +:+ gt_setup_text 9 d +:+ gt_text +:+ nl +:+ cp_text 3 5 6
             +:+ go 3 5 +:+ inot_text 5 4 +:+ go 5 3 +:+ nl +:+ rest)
    (mkTape c 2 o) t'.
Proof.
  intros Hd Hlen Hc (H3 & H4 & H5 & H6 & H7) Hrest.
  pose proof (Hc 9) as Hp. pose proof (Hc d) as Hv.
  eapply Runs_app; [apply Runs_go|].
  apply (Runs_compare_then "" _ 9 d); try done; try lia; [intros t; apply Runs_nil|].
  replace (rd (upd 7 (rd c 9) c) d) with (rd c d) by (rd_norm; by eqb_simpl).
  set (g := if rd c 9 >? rd c d then 1 else 0).
  assert (Hg : 0 <= g < D).
  { unfold g. destruct (Z.gtb_spec (rd c 9) (rd c d)); lia. }
  assert (Hcg : canon D (upd 3 g c)) by (apply canon_upd; (done || lia)).
  eapply Runs_app; [apply Runs_nl|].
  eapply Runs_app;
    [apply Runs_cp0; try lia; [by len_norm | done | rd_norm; by eqb_simpl]|].
  eapply Runs_app; [apply Runs_go|].
  eapply Runs_app;
    [apply Runs_inot; try lia; [by len_norm | apply canon_bump; [done | side | done]]|].
  eapply Runs_app; [apply Runs_go|].
  eapply Runs_app; [apply Runs_nl|].
  match goal with
  | |- Runs _ _ _ (mkTape ?X _ _) _ =>
      replace X with (upd 4 (if rd c 9 >? rd c d then 0 else 1 mod D) (upd 3 g c))
  end; [exact Hrest|].
  unfold bump. rd_norm. eqb_simpl. rewrite H4, H5. fold g. cells_eq D Hc.
  rewrite (Z.mod_small (0 + g)) by lia.
  split_eqb; eqb_simpl; try done; unfold g;
    destruct (rd c 9 >? rd c d); simpl; try done.
Qed.

Lemma Contract_branch_reg d : 8 <= d < 15 -> Contract D MS (branch_reg_text d).
Proof.
  intros Hd c o Hlen Hc Hcl. pose proof Hcl as (H3 & H4 & H5 & H6 & H7).
  pose proof (Hc 9) as Hp. pose proof (Hc d) as Hv.
  unfold branch_reg_text.
  destruct (Z.gtb_spec (rd c 9) (rd c d)) as [Hgt|Hle];
    [|destruct (Z.eq_dec D 1) as [HD|HD]].
  - set (cA := upd 4 0 (upd 3 1 c)).
    assert (HcA : canon D cA) by (repeat (apply canon_upd; [side | | lia]); done).
    assert (HlA : len cA = MS) by (unfold cA; by len_norm).
    exists (upd 3 0 (bump D 0 (rd cA 9 - rd cA d + 1) cA)), o. split.
    + apply Runs_branch_head; try done.
      destruct (Z.gtb_spec (rd c 9) (rd c d)); [|lia]. fold cA.
      eapply Runs_app;
        [apply Runs_jump_back; try done; unfold cA; rd_norm; by eqb_simpl|].
      eapply Runs_app; [apply Runs_nl|].
      chunk.
      eapply Runs_app; [apply Runs_loop_skip|apply Runs_go].
      * unfold sub_text, cp_text, mv_text. bal.
      * side.
      * unfold cA. simpl. rd_norm. by eqb_simpl.
    + split; [by len_norm|].
      split; [apply canon_upd; [side | apply canon_bump; (done || lia) | lia]|].
      unfold clear, cA. rd_norm. by eqb_simpl.
  - set (cA := upd 4 0 (upd 3 0 c)).
    assert (HcA : canon D cA) by (repeat (apply canon_upd; [side | | lia]); done).
    exists cA, o. split.
    + apply Runs_branch_head; try done.
      destruct (Z.gtb_spec (rd c 9) (rd c d)); [lia|].
      replace (1 mod D) with 0 by (by rewrite HD). fold cA.
      eapply Runs_app; [apply Runs_loop_skip|].
      * unfold sub_text, cp_text, mv_text. bal.
      * unfold cA. side.
      * unfold cA. simpl. rd_norm. by eqb_simpl.
      * eapply Runs_app; [apply Runs_nl|].
        chunk.
        eapply Runs_app; [apply Runs_loop_skip|apply Runs_go].
        -- unfold sub_text, cp_text, mv_text. bal.
        -- unfold cA. side.
        -- unfold cA. simpl. rd_norm. by eqb_simpl.
    + split; [unfold cA; by len_norm|]. split; [done|].
      unfold clear, cA. rd_norm. by eqb_simpl.
  - set (cA := upd 4 1 (upd 3 0 c)).
    assert (HcA : canon D cA) by (repeat (apply canon_upd; [side | | lia]); done).
    assert (HlA : len cA = MS) by (unfold cA; by len_norm).
    exists (upd 4 0 (bump D 1 (rd cA d - rd cA 9) cA)), o. split.
    + apply Runs_branch_head; try done.
      destruct (Z.gtb_spec (rd c 9) (rd c d)); [lia|].
      rewrite (Z.mod_small 1 D) by lia. fold cA.
      eapply Runs_app; [apply Runs_loop_skip|].
      * unfold sub_text, cp_text, mv_text. bal.
      * unfold cA. side.
      * unfold cA. simpl. rd_norm. by eqb_simpl.
      * eapply Runs_app; [apply Runs_nl|].
        chunk.
        eapply Runs_app; [|apply Runs_go].
        apply Runs_jump_fwd; try done; unfold cA; rd_norm; by eqb_simpl.
    + split; [by len_norm|].
      split; [apply canon_upd; [side | apply canon_bump; (done || lia) | lia]|].
      unfold clear, cA. rd_norm. by eqb_simpl.
Qed.

(** A gated loop around a body that keeps its contract: whatever IC holds
    on entry, the loop takes one off IC, runs the body and tests IC again,
    and so ends on IC with IC empty. *)
Lemma Runs_gate pre post body :
  Contract D MS body ->
  (forall t, Runs D MS pre t t) -> (forall t, Runs D MS post t t) ->
  forall n c o, rd c 2 = Z.of_nat n -> len c = MS -> canon D c -> clear c ->
    exists c' o',
      Runs D MS (loop ("-" +:+ pre +:+ body +:+ post)) (mkTape c 2 o) (mkTape c' 2 o') /\
      len c' = MS /\ canon D c' /\ clear c' /\ rd c' 2 = 0.
Proof.
  intros Hbody Hpre Hpost n. induction n as [|n IH]; intros c o Hn Hlen Hc Hcl.
  - exists c, o. split; [|done].
    destruct (Hbody c o Hlen Hc Hcl) as (c1 & o1 & Hr & _).
    apply Runs_loop_skip; [|side|done].
    apply Bal_app; [by apply Bal_depth|].
    apply Bal_app; [apply (Runs_Bal D MS _ _ _ (Hpre (mkTape c 2 o)))|].
    apply Bal_app; [apply (Runs_Bal D MS _ _ _ Hr)|].
    apply (Runs_Bal D MS _ _ _ (Hpost (mkTape c 2 o))).
  - pose proof (Hc 2) as H2.
    set (c1 := bump D 2 (-1) c).
    assert (Hc1 : canon D c1) by (apply canon_bump; (done || lia)).
    assert (Hl1 : len c1 = MS) by (unfold c1; by len_norm).
    assert (Hcl1 : clear c1) by (unfold c1; kept).
    assert (H21 : rd c1 2 = Z.of_nat n).
    { unfold c1. rd_norm. eqb_simpl. rewrite Hn. mod_solve D. }
    destruct (Hbody c1 o Hl1 Hc1 Hcl1) as (c2 & o2 & Hr & Hl2 & Hc2 & Hcl2 & H22).
    destruct (IH c2 o2) as (c' & o' & Hr' & Hk); [lia | done..|].
    exists c', o'. split; [|done].
    eapply Runs_loop_iter; [side | simpl; lia | | exact Hr'].
    eapply Runs_app; [apply Runs_dec1; lia|].
    eapply Runs_app; [apply Hpre|].
    eapply Runs_app; [exact Hr|]. apply Hpost.
Qed.

End Primitives.

(** * Machines *)

Lemma Forall_canon D c : Forall (fun v => 0 <= v < D) c -> canon D c.
Proof.
  intros H a Ha. unfold rd, len in *.
  assert (Hl : (Z.to_nat a < length c)%nat) by lia.
  apply list_lookup_lookup_total_lt in Hl.
  by apply (Forall_lookup_1 _ _ _ _ H Hl).
Qed.

Lemma ready_canon m : ready m -> canon (bfc.data_size m) (bfc.memory m).
Proof. intros (_ & _ & _ & H). by apply Forall_canon. Qed.

(** A derived run of the loaded text is a run of the machine. *)
Lemma run_text code m c h o :
  loaded code m ->
  Runs (bfc.data_size m) (bfc.memory_size m) code (tape_of m) (mkTape c h o) ->
  exists m', ends m m' /\ bfc.memory m' = c /\ bfc.mp m' = h /\ bfc.printed m' = o.
Proof.
  intros Hl HR.
  destruct (Runs_ends _ _ _ _ _ HR m Hl eq_refl eq_refl eq_refl) as (m' & He & Ht & _).
  exists m'. split; [done|]. by injection Ht as -> -> ->.
Qed.

Lemma cell_user a : In a URegisters -> address_of a = Ok (cell a) /\ 8 <= cell a < 15.
Proof.
  intros H. simpl in H. repeat (destruct H as [<-|H]; [done|]). done.
Qed.

Lemma cell_reg a : In a Registers -> address_of a = Ok (cell a) /\ 0 <= cell a < 15.
Proof.
  intros H. simpl in H. repeat (destruct H as [<-|H]; [done|]). done.
Qed.

Lemma scratch_clear_cells m :
  scratch_clear m ->
  rd (bfc.memory m) 3 = 0 /\ rd (bfc.memory m) 4 = 0 /\ rd (bfc.memory m) 5 = 0 /\
  rd (bfc.memory m) 6 = 0 /\ rd (bfc.memory m) 7 = 0.
Proof.
  intros H. unfold scratch_clear in H.
  repeat (apply Forall_cons in H as [? H]). done.
Qed.

Lemma ready_machine_at code D mem p :
  (0 <? D) = true -> (15 <=? len mem) = true ->
  forallb (fun v => (0 <=? v) && (v <? D)) mem = true ->
  ready (machine_at code D mem p).
Proof.
  intros HD HM Hf. unfold ready. simpl. repeat split; try lia.
  apply Forall_forall. intros v Hv.
  rewrite forallb_forall in Hf. apply list_elem_of_In in Hv.
  specialize (Hf v Hv). lia.
Qed.

Lemma run_more fuel k m r :
  bfc.run fuel m = Some r -> bfc.run (fuel + k) m = Some r.
Proof.
  revert m. induction fuel as [|fuel IH]; intros m; simpl; [done|].
  destruct (bfc.step m) as [[[] m']|]; auto.
Qed.

(** The machine is deterministic: a run has one end. *)
Lemma ends_det m m1 m2 : ends m m1 -> ends m m2 -> m1 = m2.
Proof.
  intros [f1 H1] [f2 H2].
  apply (run_more _ f2) in H1. apply (run_more _ f1) in H2.
  rewrite Nat.add_comm in H2. congruence.
Qed.

Lemma ends_run fuel m m' :
  bfc.run fuel m = Some (Ok (Result.END, m')) -> ends m m'.
Proof. intros H. by exists fuel. Qed.

(** * The claims *)

(** C1: for user registers [a] and [b], the text of [gt_setup] followed by
    [gt], run with the pointer on [a] and the scratch registers empty, ends
    with 1 in TR1 if the value of [a] is greater than the value of [b] and with
    0 otherwise, the pointer on TR1, and [a] and [b] as they were. *)
Theorem compareGreaterThan_correct (a b setup : string) (m : bfc.BrainFuckMachine) :
  In a URegisters -> In b URegisters ->
  BFGen.gt_setup a b = Ok setup ->
  ready m -> loaded (setup +:+ BFGen.gt) m ->
  bfc.mp m = cell a -> scratch_clear m ->
  exists m', ends m m' /\
    reg m' "TR1" = (if reg m a >? reg m b then 1 else 0) /\
    reg m' a = reg m a /\ reg m' b = reg m b /\ bfc.mp m' = cell "TR1".
Proof.
  intros Ha Hb Hs Hr Hl Hmp Hsc.
  destruct (cell_user a Ha) as [Aa Ra]. destruct (cell_user b Hb) as [Ab Rb].
  rewrite (gt_setup_Ok _ _ _ _ Aa Ab) in Hs. injection Hs as <-.
  pose proof (ready_canon m Hr) as Hc. destruct Hr as (HD & HM & Hlen & _).
  destruct (scratch_clear_cells m Hsc) as (H3 & H4 & H5 & H6 & H7).
  destruct (run_text _ m (upd 3 (if reg m a >? reg m b then 1 else 0) (bfc.memory m)) 3
              (bfc.printed m) Hl) as (m' & He & Hm & Hp & _).
  { unfold tape_of. rewrite Hmp. rewrite gt_Ok. unfold reg.
    rewrite <- (rd_upd_ne 7 (cell b) (rd (bfc.memory m) (cell a)) (bfc.memory m)) at 1 by lia.
    apply Runs_compare; try done; lia. }
  exists m'. split; [done|]. unfold reg. rewrite Hm. change (cell "TR1") with 3.
  rewrite rd_upd_eq by lia. rewrite !rd_upd_ne by lia. done.
Qed.

Lemma compareGreaterThan_witness :
  exists m',
    ends (machine_at (gt_setup_R1_R2 +:+ BFGen.gt) 256
            (mem_with [("R1", 3); ("R2", 2)]) (cell "R1")) m' /\
    reg m' "TR1" = 1 /\ reg m' "R1" = 3 /\ reg m' "R2" = 2 /\ bfc.mp m' = 3.
Proof.
  apply (compareGreaterThan_correct "R1" "R2" gt_setup_R1_R2
           (machine_at (gt_setup_R1_R2 +:+ BFGen.gt) 256
              (mem_with [("R1", 3); ("R2", 2)]) (cell "R1"))).
  - simpl; tauto.
  - simpl; tauto.
  - reflexivity.
  - apply ready_machine_at; reflexivity.
  - split; reflexivity.
  - reflexivity.
  - repeat constructor.
Defined.

(** C4, as the code has it: for distinct registers, the text of
    [cp(src, dst, scratch)], run with the pointer on [src], adds the value of
    [src] to [dst] and the value of [scratch] to [src] (modulo the base),
    leaves [scratch] empty and the pointer on [src]; so when [dst] and
    [scratch] are empty beforehand, [src] is unchanged and [dst] holds its
    value. *)
Theorem copy_correct (src dst scratch code : string) (m : bfc.BrainFuckMachine) :
  In src Registers -> In dst Registers -> In scratch Registers ->
  src <> dst -> dst <> scratch -> src <> scratch ->
  BFGen.cp src dst scratch = Ok code ->
  ready m -> loaded code m -> bfc.mp m = cell src ->
  exists m', ends m m' /\
    reg m' src = (reg m src + reg m scratch) mod bfc.data_size m /\
    reg m' dst = (reg m dst + reg m src) mod bfc.data_size m /\
    reg m' scratch = 0 /\ bfc.mp m' = cell src /\
    (reg m scratch = 0 -> reg m' src = reg m src) /\
    (reg m dst = 0 -> reg m' dst = reg m src).
Proof.
  intros Hs Hd Ht Hsd Hdt Hst Hcode Hr Hl Hmp.
  destruct (cell_reg src Hs) as [As Rs]. destruct (cell_reg dst Hd) as [Ad Rd].
  destruct (cell_reg scratch Ht) as [At Rt].
  rewrite (cp_Ok _ _ _ _ _ _ As Ad At) in Hcode. injection Hcode as <-.
  assert (cell src <> cell dst) by (intros E; rewrite E in As; eauto using address_inj).
  assert (cell dst <> cell scratch) by (intros E; rewrite E in Ad; eauto using address_inj).
  assert (cell src <> cell scratch) by (intros E; rewrite E in As; eauto using address_inj).
  pose proof (ready_canon m Hr) as Hc. destruct Hr as (HD & HM & Hlen & _).
  assert (HR : Runs (bfc.data_size m) (bfc.memory_size m)
                 (cp_text (cell src) (cell dst) (cell scratch)) (tape_of m)
                 (mkTape
                    (upd (cell scratch) 0
                       (bump (bfc.data_size m) (cell src) (rd (bfc.memory m) (cell scratch))
                          (bump (bfc.data_size m) (cell dst) (rd (bfc.memory m) (cell src))
                             (bfc.memory m))))
                    (cell src) (bfc.printed m))).
  { unfold tape_of. rewrite Hmp. apply Runs_cp; try done; lia. }
  destruct (run_text _ m _ _ _ Hl HR) as (m' & He & Hm & Hp & _).
  exists m'. split; [done|]. unfold reg. rewrite Hm.
  pose proof (Hc (cell src)) as Hvs. pose proof (Hc (cell dst)) as Hvd.
  rd_norm. eqb_simpl. repeat split; try done.
  - intros ->. mod_solve (bfc.data_size m).
  - intros ->. mod_solve (bfc.data_size m).
Qed.

Lemma copy_witness :
  exists m',
    ends (machine_at cp_R1_R2_R3 256 (mem_with [("R1", 7)]) (cell "R1")) m' /\
    reg m' "R1" = 7 /\ reg m' "R2" = 7 /\ reg m' "R3" = 0 /\ bfc.mp m' = cell "R1" /\
    (0 = 0 -> reg m' "R1" = 7) /\ (0 = 0 -> reg m' "R2" = 7).
Proof.
  apply (copy_correct "R1" "R2" "R3" cp_R1_R2_R3
           (machine_at cp_R1_R2_R3 256 (mem_with [("R1", 7)]) (cell "R1"))).
  - simpl; tauto.
  - simpl; tauto.
  - simpl; tauto.
  - discriminate.
  - discriminate.
  - discriminate.
  - reflexivity.
  - apply ready_machine_at; reflexivity.
  - split; reflexivity.
  - reflexivity.
Defined.

(** C4 as stated fails when [dst] or [scratch] is not empty beforehand:
    with 1 in R1, R2 and R3, [cp("R1", "R2", "R3")] ends with 2 in R1 and 2 in
    R2. *)
Lemma copy_counterexample :
  BFGen.cp "R1" "R2" "R3" = Ok cp_R1_R2_R3 /\
  ends cp_clash cp_clash_end /\
  reg cp_clash "R1" = 1 /\ reg cp_clash_end "R1" = 2 /\ reg cp_clash_end "R2" = 2.
Proof.
  split; [reflexivity|]. split; [|by vm_compute].
  exists 100%nat. vm_compute. reflexivity.
Qed.

(** C5, as the code has it: for distinct registers, the text of
    [inot(src, dst)], run with the pointer on [src], adds to [dst] 1 if [src]
    is empty and 0 otherwise, leaves [src] empty (a value in [src] is
    consumed, not preserved) and the pointer on [src]; so with [dst] empty
    beforehand and a base of at least 2, [dst] ends as 1 if [src] was 0 and as
    0 otherwise. *)
Theorem logicalNot_correct (src dst code : string) (m : bfc.BrainFuckMachine) :
  In src Registers -> In dst Registers -> src <> dst ->
  BFGen.inot src dst = Ok code ->
  ready m -> loaded code m -> bfc.mp m = cell src ->
  exists m', ends m m' /\
    reg m' dst = (reg m dst + (if reg m src =? 0 then 1 else 0)) mod bfc.data_size m /\
    reg m' src = 0 /\ bfc.mp m' = cell src /\
    (reg m dst = 0 -> 2 <= bfc.data_size m ->
     reg m' dst = (if reg m src =? 0 then 1 else 0)).
Proof.
  intros Hs Hd Hsd Hcode Hr Hl Hmp.
  destruct (cell_reg src Hs) as [As Rs]. destruct (cell_reg dst Hd) as [Ad Rd].
  rewrite (inot_Ok _ _ _ _ As Ad) in Hcode. injection Hcode as <-.
  assert (cell src <> cell dst) by (intros E; rewrite E in As; eauto using address_inj).
  pose proof (ready_canon m Hr) as Hc. destruct Hr as (HD & HM & Hlen & _).
  destruct (run_text _ m
              (upd (cell src) 0
                 (bump (bfc.data_size m) (cell dst)
                    (if rd (bfc.memory m) (cell src) =? 0 then 1 else 0) (bfc.memory m)))
              (cell src) (bfc.printed m) Hl) as (m' & He & Hm & Hp & _).
  { unfold tape_of. rewrite Hmp. apply Runs_inot; try done; lia. }
  exists m'. split; [done|]. unfold reg. rewrite Hm.
  rd_norm. eqb_simpl. repeat split; try done.
  intros -> HD2. destruct (rd (bfc.memory m) (cell src) =? 0); mod_solve (bfc.data_size m).
Qed.

Lemma logicalNot_witness :
  exists m',
    ends (machine_at inot_R1_R2 256 (mem_with [("R1", 0)]) (cell "R1")) m' /\
    reg m' "R2" = 1 /\ reg m' "R1" = 0 /\ bfc.mp m' = cell "R1" /\
    (0 = 0 -> 2 <= 256 -> reg m' "R2" = 1).
Proof.
  apply (logicalNot_correct "R1" "R2" inot_R1_R2
           (machine_at inot_R1_R2 256 (mem_with [("R1", 0)]) (cell "R1"))).
  - simpl; tauto.
  - simpl; tauto.
  - discriminate.
  - reflexivity.
  - apply ready_machine_at; reflexivity.
  - split; reflexivity.
  - reflexivity.
Defined.

(** C5 as stated fails: with 1 in R1 and 1 in R2, [inot("R1", "R2")] ends
    with R1 emptied (src is disturbed) and 1 in R2 (not the 0 that a nonzero
    src calls for). *)
Lemma logicalNot_counterexample :
  BFGen.inot "R1" "R2" = Ok inot_R1_R2 /\
  ends inot_clash inot_clash_end /\
  reg inot_clash "R1" = 1 /\ reg inot_clash_end "R1" = 0 /\ reg inot_clash_end "R2" = 1.
Proof.
  split; [reflexivity|]. split; [|by vm_compute].
  exists 100%nat. vm_compute. reflexivity.
Qed.

(** C9: for a register [a], [ptr(a, a)] is the empty text, and for every
    register [b] the text of [ptr(a, b)] followed by [ptr(b, a)], run with the
    pointer on [a], ends with the pointer on [a] and every cell as it was. *)
Theorem pointerMove_roundtrip (a : string) :
  In a Registers ->
  BFGen.ptr a a = Ok "" /\
  forall (b there back : string) (m : bfc.BrainFuckMachine),
    In b Registers -> BFGen.ptr a b = Ok there -> BFGen.ptr b a = Ok back ->
    loaded (there +:+ back) m -> bfc.mp m = cell a ->
    exists m', ends m m' /\ bfc.mp m' = cell a /\ bfc.memory m' = bfc.memory m.
Proof.
  intros Ha. destruct (cell_reg a Ha) as [Aa Ra]. split.
  - rewrite (ptr_Ok _ _ _ _ Aa Aa). unfold go.
    replace (cell a >? cell a) with false by (symmetry; lia).
    by rewrite Z.sub_diag.
  - intros b there back m Hb Ht Hbk Hl Hmp.
    destruct (cell_reg b Hb) as [Ab Rb].
    rewrite (ptr_Ok _ _ _ _ Aa Ab) in Ht. rewrite (ptr_Ok _ _ _ _ Ab Aa) in Hbk.
    injection Ht as <-. injection Hbk as <-.
    destruct (run_text _ m (bfc.memory m) (cell a) (bfc.printed m) Hl)
      as (m' & He & Hm & Hp & _).
    { unfold tape_of. rewrite Hmp. eapply Runs_app; apply Runs_go. }
    by exists m'.
Qed.

Lemma pointerMove_witness :
  BFGen.ptr "R1" "R1" = Ok "" /\
  exists m',
    ends (machine_at (ptr_R1_TR3 +:+ ptr_TR3_R1) 256 (mem_with [("R1", 4)]) (cell "R1")) m' /\
    bfc.mp m' = cell "R1" /\ bfc.memory m' = mem_with [("R1", 4)].
Proof.
  destruct (pointerMove_roundtrip "R1") as [E H]; [simpl; tauto|].
  split; [exact E|].
  apply (H "TR3" ptr_R1_TR3 ptr_TR3_R1
           (machine_at (ptr_R1_TR3 +:+ ptr_TR3_R1) 256 (mem_with [("R1", 4)]) (cell "R1"))).
  - simpl; tauto.
  - reflexivity.
  - reflexivity.
  - split; reflexivity.
  - reflexivity.
Defined.

(** C2: a branch whose single operand names no user register and is a label
    bound to [target_ip] emits, at instruction [pc], the move from IC to FJR,
    [target_ip - pc] increments and the move back when [target_ip > pc], and
    otherwise the move from IC to BJR, [pc - target_ip + 1] increments and
    the move back; run with the pointer on IC, that text adds exactly that
    count to that counter (modulo the base), leaves the other counter alone
    and returns the pointer to IC. *)
Theorem branch_label_correct (i : Instruction) (op : Operand)
    (labels : gmap string Label) (lbl : Label) (pc : Z) (m : bfc.BrainFuckMachine) :
  operands i = [op] -> ~ In (val op) URegisters -> labels !! val op = Some lbl ->
  ready m -> loaded (branch_text (ip lbl) pc) m -> bfc.mp m = cell "IC" ->
  BFI.branch i labels pc = Ok (branch_text (ip lbl) pc) /\
  exists m', ends m m' /\ bfc.mp m' = cell "IC" /\
    if ip lbl >? pc then
      reg m' "FJR" = (reg m "FJR" + (ip lbl - pc)) mod bfc.data_size m /\
      reg m' "BJR" = reg m "BJR"
    else
      reg m' "BJR" = (reg m "BJR" + (pc - ip lbl + 1)) mod bfc.data_size m /\
      reg m' "FJR" = reg m "FJR".
Proof.
  intros Hops Hnr Hlbl Hr Hl Hmp. split.
  - assert (E : str_in (val op) URegisters = false).
    { destruct (str_in (val op) URegisters) eqn:E; [|done].
      apply str_in_In in E. done. }
    unfold BFI.branch, BFI.operand. rewrite Hops.
    change (negb (len [op] =? 1)) with false.
    change (py_index [op] 0) with (Ok op). cbn [bind].
    rewrite E, Hlbl. unfold branch_text. by destruct (ip lbl >? pc).
  - pose proof (ready_canon m Hr) as Hc. destruct Hr as (HD & HM & Hlen & _).
    unfold branch_text in *. change (cell "IC") with 2 in *.
    unfold reg. change (cell "FJR") with 1. change (cell "BJR") with 0.
    destruct (Z.gtb_spec (ip lbl) pc) as [Hgt|Hle].
    + destruct (run_text _ m
                  (bump (bfc.data_size m) 1 (ip lbl - pc) (bfc.memory m)) 2
                  (bfc.printed m) Hl) as (m' & He & Hm & Hp & _).
      { unfold tape_of. rewrite Hmp.
        eapply Runs_app; [apply (Runs_left1 _ _ _ 2)|].
        eapply Runs_app; [apply Runs_incs; try lia; apply Hc; lia|].
        apply (Runs_right1 _ _ _ 1). }
      exists m'. rewrite Hm. rd_norm. by eqb_simpl.
    + destruct (run_text _ m
                  (bump (bfc.data_size m) 0 (pc - ip lbl + 1) (bfc.memory m)) 2
                  (bfc.printed m) Hl) as (m' & He & Hm & Hp & _).
      { unfold tape_of. rewrite Hmp.
        eapply Runs_cons; [apply (Runs_left1 _ _ _ 2)|].
        eapply Runs_cons; [apply (Runs_left1 _ _ _ 1)|].
        eapply Runs_app; [apply Runs_incs; try lia; apply Hc; lia|].
        eapply Runs_cons; [apply (Runs_right1 _ _ _ 0)|].
        apply (Runs_right1 _ _ _ 1). }
      exists m'. rewrite Hm. rd_norm. by eqb_simpl.
Qed.

Lemma branch_label_witness :
  BFI.branch branch_L labels_L 2 = Ok (branch_text 5 2) /\
  exists m',
    ends (machine_at (branch_text 5 2) 256 (mem_with [("FJR", 1); ("BJR", 9)]) (cell "IC")) m' /\
    bfc.mp m' = cell "IC" /\ reg m' "FJR" = 4 /\ reg m' "BJR" = 9.
Proof.
  apply (branch_label_correct branch_L (mkOperand "L" OperandType.REFERENCE) labels_L
           (mkLabel "L" 5) 2
           (machine_at (branch_text 5 2) 256 (mem_with [("FJR", 1); ("BJR", 9)]) (cell "IC"))).
  - reflexivity.
  - simpl. intuition discriminate.
  - reflexivity.
  - apply ready_machine_at; reflexivity.
  - split; reflexivity.
  - reflexivity.
Defined.

(** C6: [BFI.gt] checks neither the number nor the kind of its operands: a GT
    with three operands compiles to the text of the GT on its first two, a GT
    on scratch registers and a GT on an address operand compile as well;
    [BFI.add] refuses a third operand. *)
Theorem gt_skips_validation :
  (exists code, BFI.gt gt_R1_R2 ∅ 0 = Ok code /\ BFI.gt gt_three ∅ 0 = Ok code /\
                BFI.gt gt_address ∅ 0 = Ok code) /\
  (exists code, BFI.gt gt_scratch ∅ 0 = Ok code) /\
  BFI.add add_three ∅ 0 = Raise (SystemExit "Not enough operands in ADD").
Proof.
  split; [|split].
  - eexists. by vm_compute.
  - eexists. by vm_compute.
  - reflexivity.
Qed.

(** C7: [parser] does not reject a label defined twice: on the tokens of
    [L:], [MOV R1, #1], [L:] it returns the instruction and a label table in
    which [L] is bound to the second definition. *)
Theorem parser_keeps_second_label :
  bfas.parser twice_L =
  Ok ([mkInstruction "MOV" [ref "R1"; mkOperand "1" OperandType.CONSTANT]],
      {[ "L" := mkLabel "L" 1 ]}).
Proof. by vm_compute. Qed.

(** C8: [BFI.mov] does not compile a hexadecimal constant: [int] raises
    ValueError on [0x10], where the decimal [16] compiles to the clear of R1
    and sixteen increments. *)
Theorem mov_hex_raises :
  BFI.mov mov_hex ∅ 0 = Raise (ValueError "invalid literal for int() with base 10: 0x10") /\
  BFI.mov mov_dec ∅ 0 = Ok (">>>>>>>>" +:+ "[-]" +:+ str_mul "+" 16 +:+ "<<<<<<<<").
Proof. split; reflexivity. Qed.

(** * Bracket nesting of the emitted texts *)

Lemma depth_app s1 s2 k :
  depth (s1 +:+ s2) k =
  match depth s1 k with Some k' => depth s2 k' | None => None end.
Proof.
  revert k. induction s1 as [|b s1 IH]; intros k; simpl; [done|].
  destruct (Ascii.eqb b "["); [apply IH|].
  destruct (Ascii.eqb b "]"); [|apply IH].
  destruct k; [done | apply IH].
Qed.

Lemma Neutral_nil : Neutral "".
Proof. by intros k. Qed.

Lemma Neutral_app s1 s2 : Neutral s1 -> Neutral s2 -> Neutral (s1 +:+ s2).
Proof. intros H1 H2 k. by rewrite depth_app, H1. Qed.

Lemma Neutral_loop body : Neutral body -> Neutral (loop body).
Proof.
  intros H k. unfold loop. simpl. by rewrite depth_app, H.
Qed.

Lemma Neutral_rep s n : Neutral s -> Neutral (str_rep s n).
Proof.
  intros H. induction n as [|n IH]; simpl; [apply Neutral_nil | by apply Neutral_app].
Qed.

Lemma Neutral_go x y : Neutral (go x y).
Proof. unfold go, str_mul. destruct (y >? x); by apply Neutral_rep. Qed.

Lemma Neutral_inc n : Neutral (BFGen.inc n).
Proof. by apply Neutral_rep. Qed.

Lemma ptr_inv a b s :
  BFGen.ptr a b = Ok s ->
  exists x y, address_of a = Ok x /\ address_of b = Ok y /\ s = go x y.
Proof.
  unfold BFGen.ptr. intros H.
  apply bind_Ok in H as (x & Hx & H). apply bind_Ok in H as (y & Hy & H).
  exists x, y. repeat split; try done. unfold go.
  by destruct (y >? x); injection H as <-.
Qed.

Lemma mv_inv a b s :
  BFGen.mv a b = Ok s ->
  exists x y, address_of a = Ok x /\ address_of b = Ok y /\ s = mv_text x y.
Proof.
  unfold BFGen.mv. intros H. apply bind_Ok in H as (sd & Hsd & H).
  apply ptr_inv in Hsd as (x & y & Hx & Hy & ->).
  exists x, y. repeat split; try done.
  pose proof (mv_Ok _ _ _ _ Hx Hy) as E. unfold BFGen.mv in E.
  rewrite (ptr_Ok _ _ _ _ Hx Hy) in E. cbn [bind] in E. congruence.
Qed.

Lemma cp_inv a b c s :
  BFGen.cp a b c = Ok s ->
  exists x y z, address_of a = Ok x /\ address_of b = Ok y /\ address_of c = Ok z /\
    s = cp_text x y z.
Proof.
  intros H. pose proof H as H'. unfold BFGen.cp in H'.
  apply bind_Ok in H' as (sd & Hsd & H').
  apply bind_Ok in H' as (dt & Hdt & _).
  apply ptr_inv in Hsd as (x & y & Hx & Hy & _).
  apply ptr_inv in Hdt as (y' & z & _ & Hz & _).
  exists x, y, z. repeat split; try done.
  rewrite (cp_Ok _ _ _ _ _ _ Hx Hy Hz) in H. congruence.
Qed.

Lemma Neutral_ptr a b s : BFGen.ptr a b = Ok s -> Neutral s.
Proof. intros H. apply ptr_inv in H as (x & y & _ & _ & ->). apply Neutral_go. Qed.

Ltac neutral :=
  repeat first [ apply Neutral_go | apply Neutral_inc | apply Neutral_nil
               | apply Neutral_loop | apply Neutral_app
               | assumption | (intros ?; reflexivity) ].

Lemma Neutral_mv_text x y : Neutral (mv_text x y).
Proof. unfold mv_text. neutral. Qed.

Lemma Neutral_cp_text x y z : Neutral (cp_text x y z).
Proof. unfold cp_text. neutral; apply Neutral_mv_text. Qed.

Lemma Neutral_mv a b s : BFGen.mv a b = Ok s -> Neutral s.
Proof. intros H. apply mv_inv in H as (x & y & _ & _ & ->). apply Neutral_mv_text. Qed.

Lemma Neutral_cp a b c s : BFGen.cp a b c = Ok s -> Neutral s.
Proof.
  intros H. apply cp_inv in H as (x & y & z & _ & _ & _ & ->). apply Neutral_cp_text.
Qed.

Lemma depth_plus n k : depth (str_mul "+" n) k = Some k.
Proof. by apply (Neutral_rep "+"). Qed.

Lemma depth_inc n k : depth (BFGen.inc n) k = Some k.
Proof. apply depth_plus. Qed.

Lemma depth_nl k : depth nl k = Some k.
Proof. reflexivity. Qed.

(** Taking a chain of binds apart, and what is then known of the pieces. *)
Ltac binds H := repeat (apply bind_Ok in H as (? & ? & H)).

Ltac learn :=
  repeat match goal with
  | H : BFGen.ptr _ _ = Ok _ |- _ => apply Neutral_ptr in H
  | H : BFGen.mv _ _ = Ok _ |- _ => apply Neutral_mv in H
  | H : BFGen.cp _ _ _ = Ok _ |- _ => apply Neutral_cp in H
  end.

Ltac depth_solve :=
  let k := fresh "k" in
  intros k;
  repeat first
    [ rewrite depth_app
    | rewrite depth_plus
    | rewrite depth_inc
    | rewrite depth_nl
    | match goal with N : Neutral ?x |- context [depth ?x ?j] => rewrite (N j) end
    | progress simpl ];
  try reflexivity.

Lemma Neutral_gt_setup a b s : BFGen.gt_setup a b = Ok s -> Neutral s.
Proof.
  unfold BFGen.gt_setup. intros H. binds H. learn. injection H as <-. depth_solve.
Qed.

Lemma Neutral_clear_cond a s : BFGen.clear_cond a = Ok s -> Neutral s.
Proof.
  unfold BFGen.clear_cond. intros H. binds H. learn. injection H as <-. depth_solve.
Qed.

Lemma Neutral_inot a b s : BFGen.inot a b = Ok s -> Neutral s.
Proof.
  unfold BFGen.inot. intros H. binds H. learn. injection H as <-. depth_solve.
Qed.

Lemma Neutral_gt : Neutral BFGen.gt.
Proof. by intros k. Qed.

Lemma Neutral_cond inst s : Neutral inst -> BFGen.cond inst = Ok s -> Neutral s.
Proof.
  unfold BFGen.cond. intros Hi H. binds H. learn. injection H as <-. depth_solve.
Qed.

Lemma Neutral_set_pc pc s : BFGen.set_pc pc = Ok s -> Neutral s.
Proof.
  unfold BFGen.set_pc. intros H. binds H. learn. injection H as <-. depth_solve.
Qed.

Lemma Neutral_fjump_wrap inst : Neutral inst -> Neutral (BFGen.fjump_wrap inst).
Proof. intros Hi. unfold BFGen.fjump_wrap. depth_solve. Qed.

(** The envelope of a block closes one loop of the prologue. *)
Lemma Closes_wrap inst pc s : Neutral inst -> BFGen.wrap inst pc = Ok s -> Closes s.
Proof.
  unfold BFGen.wrap. intros Hi H. binds H.
  match goal with H : BFGen.set_pc _ = Ok _ |- _ => apply Neutral_set_pc in H end.
  pose proof (Neutral_fjump_wrap inst Hi). injection H as <-.
  unfold Closes, BFGen.bjump_post. depth_solve.
Qed.

Lemma Neutral_add i labels pc s : BFI.add i labels pc = Ok s -> Neutral s.
Proof.
  unfold BFI.add. intros H.
  destruct (negb _); [done|]. binds H.
  destruct (type _); [| done |]; binds H; learn; injection H as <-; depth_solve.
Qed.

Lemma Neutral_mov i labels pc s : BFI.mov i labels pc = Ok s -> Neutral s.
Proof.
  unfold BFI.mov. intros H.
  destruct (negb _); [done|]. binds H.
  destruct (type _); try done. binds H. learn. injection H as <-.
  unfold BFGen.clr. depth_solve.
Qed.

Lemma Neutral_out i labels pc s : BFI.out i labels pc = Ok s -> Neutral s.
Proof.
  unfold BFI.out. intros H.
  destruct (negb _); [done|]. binds H. learn. injection H as <-. depth_solve.
Qed.

Lemma Neutral_branch_sub a b c d s : BFI.branch_sub a b c d = Ok s -> Neutral s.
Proof.
  unfold BFI.branch_sub. intros H. binds H. learn. injection H as <-. depth_solve.
Qed.

Lemma Neutral_branch i labels pc s : BFI.branch i labels pc = Ok s -> Neutral s.
Proof.
  unfold BFI.branch. intros H.
  destruct (negb _); [done|]. binds H.
  destruct (str_in _ URegisters).
  - binds H. learn.
    repeat match goal with
    | H : BFGen.gt_setup _ _ = Ok _ |- _ => apply Neutral_gt_setup in H
    | H : BFGen.inot _ _ = Ok _ |- _ => apply Neutral_inot in H
    | H : BFI.branch_sub _ _ _ _ = Ok _ |- _ => apply Neutral_branch_sub in H
    end.
    injection H as <-. unfold BFGen.gt. depth_solve.
  - destruct (labels !! _); [|done].
    destruct (_ >? _); binds H; learn; injection H as <-; depth_solve.
Qed.

Lemma Neutral_gt_instr i labels pc s : BFI.gt i labels pc = Ok s -> Neutral s.
Proof.
  unfold BFI.gt. intros H. binds H. learn.
  repeat match goal with
  | H : BFGen.gt_setup _ _ = Ok _ |- _ => apply Neutral_gt_setup in H
  | H : BFGen.clear_cond _ = Ok _ |- _ => apply Neutral_clear_cond in H
  end.
  injection H as <-. unfold BFGen.gt. depth_solve.
Qed.

(** Every instruction compiler emits a well-bracketed text. *)
Lemma IPtr_Neutral key f i labels pc s :
  dict_get key IPtr = Some f -> f i labels pc = Ok s -> Neutral s.
Proof.
  unfold IPtr. simpl.
  repeat (destruct (String.eqb key _);
          [intros [= <-];
           eauto using Neutral_add, Neutral_mov, Neutral_out, Neutral_gt_instr,
             Neutral_branch |]).
  done.
Qed.

(** * The driver *)

Lemma count_app c s1 s2 :
  count_char c (s1 +:+ s2) = count_char c s1 + count_char c s2.
Proof. induction s1 as [|b s1 IH]; simpl; [done|]. rewrite IH. lia. Qed.

Lemma count_rep c s n :
  count_char c (str_rep s n) = Z.of_nat n * count_char c s.
Proof.
  induction n as [|n IH]; [done|].
  cbn [str_rep]. rewrite count_app, IH. lia.
Qed.

Lemma depth_opens n k : depth (str_rep "[-" n) k = Some (k + n)%nat.
Proof.
  revert k. induction n as [|n IH]; intros k; simpl; [f_equal; lia|].
  rewrite IH. f_equal. lia.
Qed.

Lemma depth_closes blocks k :
  Forall Closes blocks -> depth (str_concat blocks) (length blocks + k) = Some k.
Proof.
  induction 1 as [|b blocks Hb _ IH]; simpl; [done|].
  by rewrite depth_app, Hb.
Qed.

Lemma str_concat_snoc l s : str_concat (l ++ [s]) = str_concat l +:+ s.
Proof.
  induction l as [|x l IH]; simpl; [by rewrite str_app_nil_r|].
  by rewrite IH, str_app_assoc.
Qed.

Lemma assemble_loop_blocks labels instrs : forall pc bf out,
  assemble_loop pc instrs labels bf = Ok out ->
  exists blocks, out = bf +:+ str_concat blocks /\
    length blocks = length instrs /\ Forall Closes blocks.
Proof.
  induction instrs as [|i rest IH]; intros pc bf out H; cbn [assemble_loop] in H.
  - injection H as <-. exists []. by rewrite str_app_nil_r.
  - destruct (if endswith_C (name i) then dict_get (str_drop_last (name i)) IPtr else None)
      as [f|] eqn:E.
    + destruct (endswith_C (name i)); [|done].
      apply bind_Ok in H as (istr & Hi & H). apply bind_Ok in H as (c & Hc & H).
      apply bind_Ok in H as (w & Hw & H).
      apply IH in H as (blocks & -> & Hlen & Hall).
      exists (w :: blocks). simpl. rewrite str_app_assoc. repeat split; [lia|].
      constructor; [|done].
      eapply Closes_wrap; [|done]. eapply Neutral_cond; [|done].
      by eapply IPtr_Neutral.
    + destruct (dict_get (name i) IPtr) as [f|] eqn:E'; [|done].
      apply bind_Ok in H as (istr & Hi & H). apply bind_Ok in H as (w & Hw & H).
      apply IH in H as (blocks & -> & Hlen & Hall).
      exists (w :: blocks). simpl. rewrite str_app_assoc. repeat split; [lia|].
      constructor; [|done].
      eapply Closes_wrap; [|done]. by eapply IPtr_Neutral.
Qed.

(** C3, as the code has it: the text [assemble] emits for [n] instructions
    is the prologue followed by [n] blocks; the prologue is [n] increments of
    BJR (which leave [n] modulo the base in an empty BJR), then [n] loop
    openings, one per instruction and each followed by a decrement, then the
    move to FJR; it closes none of them, every block closes exactly one, and
    the whole text is well bracketed. *)
Theorem prologue_opens_a_loop_per_block (instrs : list Instruction)
    (labels : gmap string Label) (out : string) :
  assemble instrs labels = Ok out ->
  exists blocks,
    out = BFGen.bjump_pre (len instrs) +:+ str_concat blocks /\
    len blocks = len instrs /\
    BFGen.bjump_pre (len instrs) =
      str_mul "+" (len instrs) +:+ nl +:+ str_mul "[-" (len instrs) +:+ nl +:+ ">" +:+ nl /\
    count_char "[" (BFGen.bjump_pre (len instrs)) = len instrs /\
    count_char "]" (BFGen.bjump_pre (len instrs)) = 0 /\
    Forall Closes blocks /\
    depth out 0 = Some 0%nat /\
    forall m, ready m -> loaded (BFGen.inc (len instrs)) m ->
      bfc.mp m = cell "BJR" -> reg m "BJR" = 0 ->
      exists m', ends m m' /\ reg m' "BJR" = len instrs mod bfc.data_size m.
Proof.
  intros H. unfold assemble in H. apply bind_Ok in H as (bf & Hbf & H).
  injection H as <-.
  apply assemble_loop_blocks in Hbf as (blocks & -> & Hlen & Hall).
  exists blocks. simpl.
  assert (Hn : Z.to_nat (len instrs) = length instrs) by (unfold len; lia).
  repeat split; try done.
  - unfold len. lia.
  - unfold BFGen.bjump_pre, BFGen.inc, str_mul.
    rewrite !count_app, !count_rep, Hn. unfold len. simpl. lia.
  - unfold BFGen.bjump_pre, BFGen.inc, str_mul.
    rewrite !count_app, !count_rep. simpl. lia.
  - unfold BFGen.bjump_pre, BFGen.inc, str_mul.
    rewrite !depth_app. rewrite (Neutral_rep "+") by (by intros k). simpl.
    rewrite depth_app, depth_opens. simpl. rewrite Hn, <- Hlen.
    rewrite <- (Nat.add_0_r (length blocks)). by apply depth_closes.
  - intros m Hr Hl Hmp H0.
    pose proof (ready_canon m Hr) as Hc. destruct Hr as (HD & HM & Hlm & _).
    change (cell "BJR") with 0 in *. unfold reg in *. change (cell "BJR") with 0 in *.
    destruct (run_text _ m (bump (bfc.data_size m) 0 (len instrs) (bfc.memory m)) 0
                (bfc.printed m) Hl) as (m' & He & Hm & _).
    { unfold tape_of. rewrite Hmp.
      apply Runs_incs; try lia; first [apply Hc; lia | unfold len; lia]. }
    exists m'. split; [done|]. rewrite Hm, rd_bump_eq, H0 by lia. done.
Qed.

Lemma prologue_witness :
  exists blocks,
    mov_out_text = BFGen.bjump_pre 2 +:+ str_concat blocks /\ len blocks = 2 /\
    count_char "[" (BFGen.bjump_pre 2) = 2 /\ Forall Closes blocks /\
    depth mov_out_text 0 = Some 0%nat.
Proof.
  destruct (prologue_opens_a_loop_per_block mov_out ∅ mov_out_text eq_refl)
    as (blocks & H1 & H2 & _ & H4 & _ & H6 & H7 & _).
  exists blocks. repeat split; assumption.
Defined.

(** C3 as stated fails: for the two instructions [MOV R1, #5] and [OUT R1]
    the prologue opens two loops, not a single one. *)
Lemma prologue_counterexample :
  assemble mov_out ∅ = Ok mov_out_text /\
  String.prefix (BFGen.bjump_pre (len mov_out)) mov_out_text = true /\
  BFGen.bjump_pre (len mov_out) = "++" +:+ nl +:+ "[-[-" +:+ nl +:+ ">" +:+ nl /\
  count_char "[" (BFGen.bjump_pre (len mov_out)) = 2.
Proof. repeat split; reflexivity. Qed.

(** * What the instruction compilers emit *)

Lemma check_ureg_Ok r u :
  check_ureg r = Ok u -> address_of r = Ok (cell r) /\ 8 <= cell r < 15.
Proof.
  unfold check_ureg. destruct (str_in r URegisters) eqn:E; [|done].
  intros _. apply str_in_In in E. by apply cell_user.
Qed.

Lemma operands_two (i : Instruction) :
  negb (len (operands i) =? 2) = false ->
  exists o0 o1, operands i = [o0; o1].
Proof.
  intros H. destruct (operands i) as [|o0 [|o1 [|o2 r]]];
    [by vm_compute in H | by vm_compute in H | eauto |].
  exfalso. apply negb_false_iff, Z.eqb_eq in H. unfold len in H.
  cbn [length] in H. lia.
Qed.

Lemma operands_one (i : Instruction) :
  negb (len (operands i) =? 1) = false ->
  exists o0, operands i = [o0].
Proof.
  intros H. destruct (operands i) as [|o0 [|o1 r]]; [by vm_compute in H | eauto |].
  exfalso. apply negb_false_iff, Z.eqb_eq in H. unfold len in H.
  cbn [length] in H. lia.
Qed.

Lemma add_inv i labels pc body :
  BFI.add i labels pc = Ok body ->
  (exists a s, 8 <= a < 15 /\ 8 <= s < 15 /\ body = add_reg_text s a) \/
  (exists a n, 8 <= a < 15 /\ body = add_const_text a n).
Proof.
  unfold BFI.add. intros H.
  destruct (negb _) eqn:E; [done|]. apply operands_two in E as (o0 & o1 & E).
  unfold BFI.operand in H. rewrite E in H.
  change (py_index [o0; o1] 0) with (Ok o0) in H.
  change (py_index [o0; o1] 1) with (Ok o1) in H. cbn [bind] in H.
  apply bind_Ok in H as (u & Hu & H). apply check_ureg_Ok in Hu as [Aa Ra].
  destruct (type o1); [| done |].
  - apply bind_Ok in H as (u' & Hs & H). apply check_ureg_Ok in Hs as [As Rs].
    left. exists (cell (val o0)), (cell (val o1)). repeat split; try lia.
    rewrite (ptr_Ok "TR1" _ 3 _ eq_refl As), (ptr_Ok _ _ _ _ As Aa),
      (ptr_Ok _ "TR1" _ 3 Aa eq_refl), (ptr_Ok "IC" _ 2 _ eq_refl As),
      (mv_Ok _ "TR1" _ 3 As eq_refl), (ptr_Ok _ "TR1" _ 3 As eq_refl) in H.
    cbn [bind] in H. injection H as <-. unfold add_reg_text. by str_norm.
  - rewrite (ptr_Ok "IC" _ 2 _ eq_refl Aa) in H. cbn [bind] in H.
    apply bind_Ok in H as (n & Hn & H).
    rewrite (ptr_Ok _ "IC" _ 2 Aa eq_refl) in H. cbn [bind] in H.
    right. exists (cell (val o0)), n. split; [lia|]. by injection H as <-.
Qed.

Lemma mov_inv i labels pc body :
  BFI.mov i labels pc = Ok body ->
  exists d n, 8 <= d < 15 /\ body = mov_text d n.
Proof.
  unfold BFI.mov. intros H.
  destruct (negb _) eqn:E; [done|]. apply operands_two in E as (o0 & o1 & E).
  unfold BFI.operand in H. rewrite E in H.
  change (py_index [o0; o1] 0) with (Ok o0) in H.
  change (py_index [o0; o1] 1) with (Ok o1) in H. cbn [bind] in H.
  apply bind_Ok in H as (u & Hu & H). apply check_ureg_Ok in Hu as [Aa Ra].
  destruct (type o1); try done.
  rewrite (ptr_Ok "IC" _ 2 _ eq_refl Aa) in H. cbn [bind] in H.
  apply bind_Ok in H as (n & Hn & H).
  rewrite (ptr_Ok _ "IC" _ 2 Aa eq_refl) in H. cbn [bind] in H.
  exists (cell (val o0)), n. split; [lia|]. by injection H as <-.
Qed.

Lemma out_inv i labels pc body :
  BFI.out i labels pc = Ok body -> exists d, 8 <= d < 15 /\ body = out_text d.
Proof.
  unfold BFI.out. intros H.
  destruct (negb _) eqn:E; [done|]. apply operands_one in E as (o0 & E).
  unfold BFI.operand in H. rewrite E in H.
  change (py_index [o0] 0) with (Ok o0) in H. cbn [bind] in H.
  apply bind_Ok in H as (u & Hu & H). apply check_ureg_Ok in Hu as [Aa Ra].
  rewrite (ptr_Ok "IC" _ 2 _ eq_refl Aa), (ptr_Ok _ "IC" _ 2 Aa eq_refl) in H.
  cbn [bind] in H. exists (cell (val o0)). split; [lia|]. by injection H as <-.
Qed.

Lemma gt_instr_inv i labels pc body :
  BFI.gt i labels pc = Ok body ->
  exists x y, 0 <= x < 15 /\ 0 <= y < 15 /\ body = gt_instr_text x y.
Proof.
  unfold BFI.gt. intros H.
  apply bind_Ok in H as (o0 & _ & H). apply bind_Ok in H as (o1 & _ & H).
  change (BFGen.clear_cond "IC") with (Ok (go 2 8 +:+ loop "-" +:+ go 8 2)) in H.
  cbn [bind] in H.
  apply bind_Ok in H as (pa & Hpa & H).
  apply ptr_inv in Hpa as (i2 & x & Hi & Hx & ->).
  change (address_of "IC") with (Ok 2) in Hi. injection Hi as <-.
  apply bind_Ok in H as (gs & Hgs & H).
  assert (exists y, address_of (val o1) = Ok y) as [y Hy].
  { unfold BFGen.gt_setup in Hgs. apply bind_Ok in Hgs as (? & _ & Hgs).
    apply bind_Ok in Hgs as (? & Hcp & _).
    apply cp_inv in Hcp as (y & ? & ? & Hy & _). eauto. }
  rewrite (gt_setup_Ok _ _ _ _ Hx Hy) in Hgs. injection Hgs as <-.
  change (BFGen.mv "TR1" "CRR") with (Ok (mv_text 3 8)) in H.
  change (BFGen.ptr "TR1" "IC") with (Ok (go 3 2)) in H. cbn [bind] in H.
  apply address_of_Ok in Hx as (_ & Rx & _). apply address_of_Ok in Hy as (_ & Ry & _).
  exists x, y. repeat split; try lia.
  injection H as <-. unfold gt_instr_text. by str_norm.
Qed.

Lemma branch_sub_Ok from dstv first second f d x y :
  address_of from = Ok f -> address_of dstv = Ok d ->
  address_of first = Ok x -> address_of second = Ok y ->
  BFI.branch_sub from dstv first second = Ok (sub_text f d x y).
Proof.
  intros Hf Hd Hx Hy. unfold BFI.branch_sub.
  rewrite (ptr_Ok from "PC" f 9 Hf eq_refl),
    (cp_Ok "PC" first "TR5" 9 x 7 eq_refl Hx eq_refl),
    (ptr_Ok "PC" dstv 9 d eq_refl Hd),
    (cp_Ok dstv second "TR5" d y 7 Hd Hy eq_refl),
    (ptr_Ok dstv "TR4" d 6 Hd eq_refl).
  cbn [bind]. unfold sub_text. by f_equal.
Qed.

Lemma branch_inv i labels pc body :
  BFI.branch i labels pc = Ok body ->
  (exists d, 8 <= d < 15 /\ body = branch_reg_text d) \/
  (exists t, body = branch_text t pc).
Proof.
  unfold BFI.branch. intros H.
  destruct (negb _) eqn:E; [done|]. apply operands_one in E as (o0 & E).
  unfold BFI.operand in H. rewrite E in H.
  change (py_index [o0] 0) with (Ok o0) in H. cbn [bind] in H.
  destruct (str_in (val o0) URegisters) eqn:EU.
  - apply str_in_In, cell_user in EU as [Ad Rd].
    left. exists (cell (val o0)). split; [lia|].
    rewrite (ptr_Ok "IC" "PC" 2 9 eq_refl eq_refl),
      (gt_setup_Ok "PC" _ 9 _ eq_refl Ad),
      (cp_Ok "TR1" "TR3" "TR4" 3 5 6 eq_refl eq_refl eq_refl),
      (ptr_Ok "TR1" "TR3" 3 5 eq_refl eq_refl),
      (inot_Ok "TR3" "TR2" 5 4 eq_refl eq_refl),
      (ptr_Ok "TR3" "TR1" 5 3 eq_refl eq_refl),
      (branch_sub_Ok "TR1" _ "TR3" "TR4" 3 _ 5 6 eq_refl Ad eq_refl eq_refl),
      (mv_Ok "TR3" "BJR" 5 0 eq_refl eq_refl),
      (branch_sub_Ok "TR2" _ "TR4" "TR3" 4 _ 6 5 eq_refl Ad eq_refl eq_refl),
      (mv_Ok "TR3" "FJR" 5 1 eq_refl eq_refl),
      (ptr_Ok "TR3" "TR2" 5 4 eq_refl eq_refl),
      (ptr_Ok "TR2" "IC" 4 2 eq_refl eq_refl) in H.
    cbn [bind] in H. injection H as <-. unfold branch_reg_text. by str_norm.
  - destruct (labels !! val o0) as [lbl|]; [|done].
    right. exists (ip lbl). unfold branch_text.
    destruct (ip lbl >? pc); by injection H as <-.
Qed.

(** * The inner contract of the instruction bodies *)

Lemma canon_Forall D c : canon D c -> Forall (fun v => 0 <= v < D) c.
Proof.
  intros H. apply Forall_lookup_2. intros k v Hk.
  pose proof (lookup_lt_Some _ _ _ Hk) as Hlt.
  specialize (H (Z.of_nat k)). unfold rd, len in H. rewrite Nat2Z.id in H.
  rewrite (list_lookup_total_correct _ _ _ Hk) in H. apply H. lia.
Qed.

(** Where the two gated loops sit in the text of the wrappers. *)
Lemma fjump_wrap_gate inst :
  BFGen.fjump_wrap inst
  = ">+<[>-]>[>]<" +:+ nl +:+ dispatch_gate inst +:+ nl +:+ "+<[>-]>[>]<<->[-<+>]<" +:+ nl.
Proof. unfold BFGen.fjump_wrap, dispatch_gate. by str_norm. Qed.

Lemma cond_gate_Ok inst :
  BFGen.cond inst = Ok (go 2 8 +:+ cp_text 8 2 3 +:+ go 8 2 +:+ cond_gate inst).
Proof.
  unfold BFGen.cond, cond_gate.
  rewrite (ptr_Ok "IC" "CRR" 2 8 eq_refl eq_refl),
    (cp_Ok "CRR" "IC" "TR1" 8 2 3 eq_refl eq_refl eq_refl),
    (ptr_Ok "CRR" "IC" 8 2 eq_refl eq_refl).
  reflexivity.
Qed.

Lemma dispatch_gate_loop inst :
  dispatch_gate inst = loop ("-" +:+ (nl +:+ "    ") +:+ inst +:+ nl).
Proof. unfold dispatch_gate. by str_norm. Qed.

Lemma cond_gate_loop inst : cond_gate inst = loop ("-" +:+ "" +:+ inst +:+ "").
Proof. unfold cond_gate. rewrite str_app_nil_r. by str_norm. Qed.

(** Every compiler of [IPtr] emits a body that keeps the contract. *)
Lemma IPtr_Contract D MS key f i labels pc body :
  0 < D -> 15 <= MS ->
  dict_get key IPtr = Some f -> f i labels pc = Ok body -> Contract D MS body.
Proof.
  intros HD HM. unfold IPtr. simpl.
  repeat (destruct (String.eqb key _); [intros [= <-] H | ]); [ | | | | | done].
  - apply add_inv in H as [(a & s & Ha & Hs & ->)|(a & n & Ha & ->)].
    + by apply Contract_add_reg.
    + by apply Contract_add_const.
  - apply mov_inv in H as (d & n & Hd & ->). by apply Contract_mov.
  - apply out_inv in H as (d & Hd & ->). by apply Contract_out.
  - apply gt_instr_inv in H as (x & y & Hx & Hy & ->). by apply Contract_gt.
  - apply branch_inv in H as [(d & Hd & ->)|(t & ->)].
    + by apply Contract_branch_reg.
    + by apply Contract_branch_label.
Qed.

(** A derived run that ends on IC with the scratch cells empty, on the
    machine. *)
Lemma settles code m c' o' :
  ready m -> loaded code m -> bfc.mp m = cell "IC" ->
  Runs (bfc.data_size m) (bfc.memory_size m) code
    (mkTape (bfc.memory m) 2 (bfc.printed m)) (mkTape c' 2 o') ->
  len c' = bfc.memory_size m -> canon (bfc.data_size m) c' -> clear c' ->
  exists m', ends m m' /\ bfc.mp m' = cell "IC" /\ bfc.memory m' = c' /\
    scratch_clear m' /\ ready m'.
Proof.
  intros (HD & HM & _) Hl Hmp HR Hlen Hc (H3 & H4 & H5 & H6 & H7).
  destruct (Runs_ends _ _ _ _ _ HR m Hl) as (m' & He & Ht & _ & ED & EM);
    [unfold tape_of; by rewrite Hmp | done..|].
  injection Ht as Hmem Hp _. exists m'.
  split; [done|]. split; [done|]. split; [done|]. split.
  - unfold scratch_clear, reg. rewrite Hmem. by repeat constructor.
  - unfold ready. rewrite ED, EM, Hmem. repeat split; try done.
    by apply canon_Forall.
Qed.

(** The gated loop around a body of [IPtr], on the machine: whatever IC
    holds, it ends on IC with IC empty. *)
Lemma gate_settles pre post key f i labels pc body m :
  (forall t, Runs (bfc.data_size m) (bfc.memory_size m) pre t t) ->
  (forall t, Runs (bfc.data_size m) (bfc.memory_size m) post t t) ->
  dict_get key IPtr = Some f -> f i labels pc = Ok body ->
  ready m -> scratch_clear m -> bfc.mp m = cell "IC" ->
  loaded (loop ("-" +:+ pre +:+ body +:+ post)) m ->
  exists m', ends m m' /\ bfc.mp m' = cell "IC" /\ reg m' "IC" = 0 /\
    scratch_clear m' /\ ready m'.
Proof.
  intros Hpre Hpost Hk Hf Hr Hs Hmp Hl.
  pose proof (ready_canon m Hr) as Hc. pose proof Hr as (HD & HM & Hlen & _).
  pose proof (IPtr_Contract _ _ _ _ _ _ _ _ HD HM Hk Hf) as Hbody.
  apply scratch_clear_cells in Hs as Hcl.
  destruct (Runs_gate _ _ HD HM pre post body Hbody Hpre Hpost
              (Z.to_nat (rd (bfc.memory m) 2)) (bfc.memory m) (bfc.printed m))
    as (c' & o' & HR & Hl' & Hc' & Hcl' & H2); try done.
  { rewrite Z2Nat.id; [done|]. apply Hc. lia. }
  destruct (settles _ m c' o' Hr Hl Hmp HR Hl' Hc' Hcl') as (m' & He & Hp & Hm & Hs' & Hr').
  exists m'. unfold reg. rewrite Hm. done.
Qed.

(** C10: every instruction compiler of [IPtr] (ADD, MOV, OUT, GT, B) emits a
    body that keeps the inner pointer contract. Loaded in a well-formed
    machine whose pointer is on IC and whose scratch registers TR1..TR5 are
    empty, the body runs to its end with the pointer back on IC, IC as it
    was and the scratch registers empty again. The two gated loops rely on
    it: the one of [BFGen.fjump_wrap] and the one of [BFGen.cond], entered
    on IC around such a body, take one off IC, run the body and test IC
    again, and end on IC with IC empty. *)
Theorem instruction_body_returns_to_IC (key : string) (f : compiler)
    (i : Instruction) (labels : gmap string Label) (pc : Z) (body : string)
    (m : bfc.BrainFuckMachine) :
  dict_get key IPtr = Some f -> f i labels pc = Ok body ->
  ready m -> scratch_clear m -> bfc.mp m = cell "IC" ->
  (loaded body m ->
     exists m', ends m m' /\ bfc.mp m' = cell "IC" /\ reg m' "IC" = reg m "IC" /\
       scratch_clear m' /\ ready m') /\
  (loaded (dispatch_gate body) m \/ loaded (cond_gate body) m ->
     exists m', ends m m' /\ bfc.mp m' = cell "IC" /\ reg m' "IC" = 0 /\
       scratch_clear m' /\ ready m').
Proof.
  intros Hk Hf Hr Hs Hmp. split.
  - intros Hl.
    pose proof (ready_canon m Hr) as Hc. pose proof Hr as (HD & HM & Hlen & _).
    pose proof (IPtr_Contract _ _ _ _ _ _ _ _ HD HM Hk Hf) as Hbody.
    apply scratch_clear_cells in Hs as Hcl.
    destruct (Hbody (bfc.memory m) (bfc.printed m) Hlen Hc Hcl)
      as (c' & o' & HR & Hl' & Hc' & Hcl' & H2).
    destruct (settles _ m c' o' Hr Hl Hmp HR Hl' Hc' Hcl')
      as (m' & He & Hp & Hm & Hs' & Hr').
    exists m'. unfold reg. rewrite Hm. done.
  - intros [Hl|Hl].
    + rewrite dispatch_gate_loop in Hl.
      eapply (gate_settles (nl +:+ "    ") nl); try done.
      intros t. eapply Runs_app; [apply Runs_nl|].
      repeat (eapply Runs_cons; [apply Runs_space|]). apply Runs_nil.
      apply Runs_nl.
    + rewrite cond_gate_loop in Hl.
      eapply (gate_settles "" ""); try done; intros t; apply Runs_nil.
Qed.

Lemma instruction_body_witness :
  (exists m',
     ends (machine_at out_R1_text 256 (mem_with [("IC", 1); ("R1", 5)]) (cell "IC")) m' /\
     bfc.mp m' = cell "IC" /\
     reg m' "IC"
     = reg (machine_at out_R1_text 256 (mem_with [("IC", 1); ("R1", 5)]) (cell "IC")) "IC" /\
     scratch_clear m' /\ ready m') /\
  (exists m',
     ends (machine_at (dispatch_gate out_R1_text) 256
             (mem_with [("IC", 1); ("R1", 5)]) (cell "IC")) m' /\
     bfc.mp m' = cell "IC" /\ reg m' "IC" = 0 /\ scratch_clear m' /\ ready m').
Proof.
  split.
  - refine (proj1 (instruction_body_returns_to_IC "OUT" BFI.out out_R1 ∅ 0 out_R1_text
                     _ _ _ _ _ _) _).
    + reflexivity.
    + reflexivity.
    + apply ready_machine_at; reflexivity.
    + repeat constructor.
    + reflexivity.
    + split; reflexivity.
  - refine (proj2 (instruction_body_returns_to_IC "OUT" BFI.out out_R1 ∅ 0 out_R1_text
                     _ _ _ _ _ _) _).
    + reflexivity.
    + reflexivity.
    + apply ready_machine_at; reflexivity.
    + repeat constructor.
    + reflexivity.
    + left. split; reflexivity.
Defined.

(** * The dispatcher, piece by piece *)

Lemma fjump_wrap_parts inst :
  BFGen.fjump_wrap inst
  = ">" +:+ probe_text +:+ nl +:+ dispatch_gate inst +:+ nl
    +:+ probe_text +:+ settle_text +:+ nl.
Proof. unfold BFGen.fjump_wrap, dispatch_gate. by str_norm. Qed.

Lemma Blocks_nil_inv D MS k c o c' o' :
  Blocks D MS k [] c o c' o' -> c' = c /\ o' = o.
Proof. by inversion 1. Qed.

Lemma Blocks_cons_inv D MS k b bs c o c' o' :
  Blocks D MS k (b :: bs) c o c' o' ->
  exists c1 o1, Block D MS k b c o c1 o1 /\ Blocks D MS (k + 1) bs c1 o1 c' o'.
Proof. inversion 1; subst. eauto. Qed.

(** * The text of a whole program *)

Lemma set_pc_Ok k : BFGen.set_pc k = Ok (set_pc_text k).
Proof.
  unfold BFGen.set_pc.
  by rewrite (ptr_Ok "FJR" "PC" 1 9 eq_refl eq_refl), (ptr_Ok "PC" "FJR" 9 1 eq_refl eq_refl).
Qed.

Lemma wrap_Ok inst k :
  BFGen.wrap inst k = Ok (block_text k inst +:+ "]>" +:+ nl).
Proof.
  unfold BFGen.wrap. rewrite set_pc_Ok. cbn [bind].
  unfold block_text, BFGen.bjump_post. f_equal. by str_norm.
Qed.

Lemma str_rep_snoc s n : str_rep s (S n) = str_rep s n +:+ s.
Proof.
  induction n as [|n IH]; [simpl; by rewrite str_app_nil_r|].
  change (str_rep s (S (S n))) with (s +:+ str_rep s (S n)).
  rewrite IH at 1. simpl. by rewrite str_app_assoc.
Qed.

(** The prologue's openings and the blocks that follow, as nested loops. *)
Lemma nest_wraps bs : forall k g,
  str_rep "[-" (length bs) +:+ g +:+ wraps k bs = nest g k bs.
Proof.
  induction bs as [|b bs IH]; intros k g.
  - simpl. by rewrite str_app_nil_r.
  - cbn [length wraps nest]. rewrite str_rep_snoc, <- IH.
    unfold loop. rewrite !str_app_assoc. by f_equal.
Qed.

Lemma body_of_wrap i labels pc b bf rest :
  body_of i labels pc = Ok b ->
  assemble_loop pc (i :: rest) labels bf
  = assemble_loop (pc + 1) rest labels (bf +:+ block_text pc b +:+ "]>" +:+ nl).
Proof.
  unfold body_of. intros H. cbn [assemble_loop].
  destruct (if endswith_C (name i) then dict_get (str_drop_last (name i)) IPtr else None)
    as [f|].
  - apply bind_Ok in H as (istr & Hi & Hc).
    rewrite Hi. cbn [bind]. rewrite Hc. cbn [bind]. by rewrite wrap_Ok.
  - destruct (dict_get (name i) IPtr) as [f|]; [|done].
    rewrite H. cbn [bind]. by rewrite wrap_Ok.
Qed.

Lemma assemble_loop_bodies labels instrs : forall pc bf bodies,
  bodies_of pc instrs labels = Ok bodies ->
  assemble_loop pc instrs labels bf = Ok (bf +:+ wraps pc bodies) /\
  length bodies = length instrs.
Proof.
  induction instrs as [|i rest IH]; intros pc bf bodies H; cbn [bodies_of] in H.
  - injection H as <-. simpl. by rewrite str_app_nil_r.
  - apply bind_Ok in H as (b & Hb & H). apply bind_Ok in H as (bs & Hbs & H).
    injection H as <-. rewrite (body_of_wrap _ _ _ _ _ _ Hb).
    destruct (IH _ (bf +:+ block_text pc b +:+ "]>" +:+ nl) _ Hbs) as [-> Hl].
    split; [|simpl; by rewrite Hl].
    f_equal. cbn [wraps]. by rewrite !str_app_assoc.
Qed.

(** A program whose bodies compile assembles to the prologue's increments
    followed by the nested loops around its blocks. *)
Lemma assemble_nest instrs labels bodies :
  bodies_of 0 instrs labels = Ok bodies ->
  assemble instrs labels
  = Ok (BFGen.inc (len instrs) +:+ nl +:+ nest (nl +:+ ">" +:+ nl) 0 bodies) /\
  len bodies = len instrs.
Proof.
  intros H. destruct (assemble_loop_bodies _ _ 0 "" _ H) as [E Hl].
  unfold assemble. rewrite E. cbn [bind]. split; [|unfold len; by rewrite Hl].
  f_equal. unfold BFGen.bjump_pre, str_mul.
  replace (Z.to_nat (len instrs)) with (length bodies) by (unfold len; lia).
  rewrite <- nest_wraps. by rewrite !str_app_assoc.
Qed.

(** Every body is bracket-neutral. *)
Lemma body_of_Neutral i labels pc b : body_of i labels pc = Ok b -> Neutral b.
Proof.
  unfold body_of. intros H.
  destruct (if endswith_C (name i) then dict_get (str_drop_last (name i)) IPtr else None)
    as [f|] eqn:E.
  - destruct (endswith_C (name i)); [|done].
    apply bind_Ok in H as (istr & Hi & H).
    eapply Neutral_cond; [|done]. by eapply IPtr_Neutral.
  - destruct (dict_get (name i) IPtr) as [f|] eqn:E'; [|done].
    by eapply IPtr_Neutral.
Qed.

Lemma bodies_of_Neutral labels instrs : forall pc bodies,
  bodies_of pc instrs labels = Ok bodies -> Forall Neutral bodies.
Proof.
  induction instrs as [|i rest IH]; intros pc bodies H; cbn [bodies_of] in H.
  - injection H as <-. constructor.
  - apply bind_Ok in H as (b & Hb & H). apply bind_Ok in H as (bs & Hbs & H).
    injection H as <-. constructor; [by eapply body_of_Neutral | by eapply IH].
Qed.

Lemma Neutral_Bal s : Neutral s -> Bal s.
Proof. intros H. apply Bal_depth. apply H. Qed.

Lemma nest_app bs1 : forall bs2 g k,
  nest g k (bs1 ++ bs2) = nest (nest g k bs1) (k + len bs1) bs2.
Proof.
  induction bs1 as [|b bs1 IH]; intros bs2 g k.
  - simpl. unfold len. simpl. by rewrite Z.add_0_r.
  - cbn [app nest]. rewrite IH. f_equal. unfold len. simpl. lia.
Qed.

Lemma Neutral_block_text k b : Neutral b -> Neutral (block_text k b).
Proof.
  intros Hb. unfold block_text.
  apply Neutral_app; [apply (Neutral_set_pc k), set_pc_Ok|].
  apply Neutral_app; [by apply Neutral_fjump_wrap | by intros j].
Qed.

Lemma Neutral_nest bs : forall g k,
  Neutral g -> Forall Neutral bs -> Neutral (nest g k bs).
Proof.
  induction bs as [|b bs IH]; intros g k Hg Hbs; [done|].
  apply Forall_cons in Hbs as [Hb Hbs]. cbn [nest]. apply IH; [|done].
  apply Neutral_app; [|by intros j].
  apply Neutral_loop, Neutral_app; [by intros j|].
  apply Neutral_app; [done | by apply Neutral_block_text].
Qed.

(** * The bodies of the instruction compilers, operand by operand *)

Lemma add_reg_body i o0 o1 labels pc body :
  operands i = [o0; o1] -> type o1 = OperandType.REFERENCE ->
  BFI.add i labels pc = Ok body ->
  body = add_reg_text (cell (val o1)) (cell (val o0)) /\
  8 <= cell (val o0) < 15 /\ 8 <= cell (val o1) < 15.
Proof.
  intros E Et. unfold BFI.add, BFI.operand. rewrite E.
  change (negb (len [o0; o1] =? 2)) with false. cbv iota.
  change (py_index [o0; o1] 0) with (Ok o0).
  change (py_index [o0; o1] 1) with (Ok o1). cbn [bind]. rewrite Et. intros H.
  apply bind_Ok in H as (u & Hu & H). apply check_ureg_Ok in Hu as [Aa Ra].
  apply bind_Ok in H as (u' & Hs & H). apply check_ureg_Ok in Hs as [As Rs].
  rewrite (ptr_Ok "TR1" _ 3 _ eq_refl As), (ptr_Ok _ _ _ _ As Aa),
    (ptr_Ok _ "TR1" _ 3 Aa eq_refl), (ptr_Ok "IC" _ 2 _ eq_refl As),
    (mv_Ok _ "TR1" _ 3 As eq_refl), (ptr_Ok _ "TR1" _ 3 As eq_refl) in H.
  cbn [bind] in H. injection H as <-. split; [|done].
  unfold add_reg_text. by str_norm.
Qed.

Lemma add_const_body i o0 o1 n labels pc body :
  operands i = [o0; o1] -> type o1 = OperandType.CONSTANT -> int (val o1) = Ok n ->
  BFI.add i labels pc = Ok body ->
  body = add_const_text (cell (val o0)) n /\ 8 <= cell (val o0) < 15.
Proof.
  intros E Et En. unfold BFI.add, BFI.operand. rewrite E.
  change (negb (len [o0; o1] =? 2)) with false. cbv iota.
  change (py_index [o0; o1] 0) with (Ok o0).
  change (py_index [o0; o1] 1) with (Ok o1). cbn [bind]. rewrite Et. intros H.
  apply bind_Ok in H as (u & Hu & H). apply check_ureg_Ok in Hu as [Aa Ra].
  rewrite (ptr_Ok "IC" _ 2 _ eq_refl Aa), En, (ptr_Ok _ "IC" _ 2 Aa eq_refl) in H.
  cbn [bind] in H. by injection H as <-.
Qed.

Lemma mov_body i o0 o1 n labels pc body :
  operands i = [o0; o1] -> int (val o1) = Ok n ->
  BFI.mov i labels pc = Ok body ->
  body = mov_text (cell (val o0)) n /\ 8 <= cell (val o0) < 15.
Proof.
  intros E En. unfold BFI.mov, BFI.operand. rewrite E.
  change (negb (len [o0; o1] =? 2)) with false. cbv iota.
  change (py_index [o0; o1] 0) with (Ok o0).
  change (py_index [o0; o1] 1) with (Ok o1). cbn [bind]. intros H.
  apply bind_Ok in H as (u & Hu & H). apply check_ureg_Ok in Hu as [Aa Ra].
  destruct (type o1); try done.
  rewrite (ptr_Ok "IC" _ 2 _ eq_refl Aa), En, (ptr_Ok _ "IC" _ 2 Aa eq_refl) in H.
  cbn [bind] in H. by injection H as <-.
Qed.

Lemma out_body i o0 labels pc body :
  operands i = [o0] -> BFI.out i labels pc = Ok body ->
  body = out_text (cell (val o0)) /\ 8 <= cell (val o0) < 15.
Proof.
  intros E. unfold BFI.out, BFI.operand. rewrite E.
  change (negb (len [o0] =? 1)) with false. cbv iota.
  change (py_index [o0] 0) with (Ok o0). cbn [bind]. intros H.
  apply bind_Ok in H as (u & Hu & H). apply check_ureg_Ok in Hu as [Aa Ra].
  rewrite (ptr_Ok "IC" _ 2 _ eq_refl Aa), (ptr_Ok _ "IC" _ 2 Aa eq_refl) in H.
  cbn [bind] in H. by injection H as <-.
Qed.

Lemma gt_body i a b labels pc :
  BFI.operand i 0 = Ok a -> BFI.operand i 1 = Ok b ->
  In (val a) Registers -> In (val b) Registers ->
  BFI.gt i labels pc = Ok (gt_instr_text (cell (val a)) (cell (val b))).
Proof.
  intros Ea Eb Ha Hb. unfold BFI.gt. rewrite Ea, Eb. cbn [bind].
  apply cell_reg in Ha as [Aa _]. apply cell_reg in Hb as [Ab _].
  change (BFGen.clear_cond "IC") with (Ok (go 2 8 +:+ loop "-" +:+ go 8 2)).
  rewrite (ptr_Ok "IC" _ 2 _ eq_refl Aa), (gt_setup_Ok _ _ _ _ Aa Ab).
  change (BFGen.mv "TR1" "CRR") with (Ok (mv_text 3 8)).
  change (BFGen.ptr "TR1" "IC") with (Ok (go 3 2)). cbn [bind].
  unfold gt_instr_text. f_equal; by str_norm.
Qed.

Lemma branch_reg_body i o0 labels pc :
  operands i = [o0] -> In (val o0) URegisters ->
  BFI.branch i labels pc = Ok (branch_reg_text (cell (val o0))).
Proof.
  intros E Hu. unfold BFI.branch, BFI.operand. rewrite E.
  change (negb (len [o0] =? 1)) with false. cbv iota.
  change (py_index [o0] 0) with (Ok o0). cbn [bind].
  pose proof (proj2 (str_in_In _ _) Hu) as ->.
  apply cell_user in Hu as [Ad Rd].
  rewrite (ptr_Ok "IC" "PC" 2 9 eq_refl eq_refl),
    (gt_setup_Ok "PC" _ 9 _ eq_refl Ad),
    (cp_Ok "TR1" "TR3" "TR4" 3 5 6 eq_refl eq_refl eq_refl),
    (ptr_Ok "TR1" "TR3" 3 5 eq_refl eq_refl),
    (inot_Ok "TR3" "TR2" 5 4 eq_refl eq_refl),
    (ptr_Ok "TR3" "TR1" 5 3 eq_refl eq_refl),
    (branch_sub_Ok "TR1" _ "TR3" "TR4" 3 _ 5 6 eq_refl Ad eq_refl eq_refl),
    (mv_Ok "TR3" "BJR" 5 0 eq_refl eq_refl),
    (branch_sub_Ok "TR2" _ "TR4" "TR3" 4 _ 6 5 eq_refl Ad eq_refl eq_refl),
    (mv_Ok "TR3" "FJR" 5 1 eq_refl eq_refl),
    (ptr_Ok "TR3" "TR2" 5 4 eq_refl eq_refl),
    (ptr_Ok "TR2" "IC" 4 2 eq_refl eq_refl).
  cbn [bind]. unfold branch_reg_text. f_equal; by str_norm.
Qed.

Lemma assemble_loop_bodies_inv labels instrs : forall pc bf out,
  assemble_loop pc instrs labels bf = Ok out ->
  exists bodies, bodies_of pc instrs labels = Ok bodies.
Proof.
  induction instrs as [|i rest IH]; intros pc bf out H; cbn [assemble_loop bodies_of] in *.
  - by exists [].
  - unfold body_of.
    destruct (if endswith_C (name i) then dict_get (str_drop_last (name i)) IPtr else None)
      as [f|].
    + apply bind_Ok in H as (istr & -> & H). apply bind_Ok in H as (c & Hc & H).
      apply bind_Ok in H as (w & _ & H). cbn [bind]. rewrite Hc. cbn [bind].
      apply IH in H as (bs & ->). by eexists.
    + destruct (dict_get (name i) IPtr) as [f|]; [|done].
      apply bind_Ok in H as (istr & -> & H). apply bind_Ok in H as (w & _ & H).
      cbn [bind]. apply IH in H as (bs & ->). by eexists.
Qed.

Lemma assemble_bodies_inv instrs labels out :
  assemble instrs labels = Ok out ->
  exists bodies, bodies_of 0 instrs labels = Ok bodies.
Proof.
  unfold assemble. intros H. apply bind_Ok in H as (bf & H & _).
  by eapply assemble_loop_bodies_inv.
Qed.

(** * More of the generator and of the instruction compilers

    The effect of each text on the cells, for any base and any memory that
    holds the registers. *)

Section Programs.

Variables D MS : Z.
Hypothesis D_pos : 0 < D.
Hypothesis MS_regs : 15 <= MS.

Ltac side := simpl; len_norm; lia.

Ltac lit :=
  repeat (eapply Runs_cons;
          [ first [ apply Runs_inc1; side | apply Runs_dec1; side
                  | apply Runs_right1 | apply Runs_left1 ] |]);
  try apply Runs_nil.

Ltac chunk :=
  eapply Runs_app;
  [eapply Runs_to; [lit | reflexivity | cbv; reflexivity | reflexivity] |].

Ltac last_chunk :=
  eapply Runs_to; [lit | try reflexivity; try done; try (cbv; reflexivity) ..].

Lemma Runs_out_text d c o :
  0 <= d < MS -> len c = MS ->
  Runs D MS (out_text d) (mkTape c 2 o) (mkTape c 2 (o ++ [rd c d])).
Proof.
  intros Hd Hlen. unfold out_text.
  eapply Runs_app; [apply Runs_go|].
  eapply Runs_app; [apply Runs_dot; side|]. apply Runs_go.
Qed.

Lemma Runs_add_const_text a n c o :
  0 <= a < MS -> len c = MS -> canon D c ->
  Runs D MS (add_const_text a n) (mkTape c 2 o) (mkTape (bump D a (Z.max 0 n) c) 2 o).
Proof.
  intros Ha Hlen Hc. unfold add_const_text.
  eapply Runs_app; [apply Runs_go|].
  eapply Runs_app; [apply Runs_incs_any; try lia; apply Hc; lia|]. apply Runs_go.
Qed.

Lemma Runs_mov_text d n c o :
  0 <= d < MS -> len c = MS -> canon D c ->
  Runs D MS (mov_text d n) (mkTape c 2 o) (mkTape (upd d (Z.max 0 n mod D) c) 2 o).
Proof.
  intros Hd Hlen Hc.
  assert (Hc0 : canon D (upd d 0 c)) by (apply canon_upd; (done || lia)).
  unfold mov_text.
  eapply Runs_app; [apply Runs_go|].
  eapply Runs_app; [apply Runs_clr; (done || lia)|].
  eapply Runs_app; [apply Runs_incs_any; try done; [side | apply Hc0; side]|].
  eapply Runs_to; [apply Runs_go | | done..].
  unfold bump. rewrite rd_upd_eq, upd_upd_eq by lia. done.
Qed.

(** ADD with a register source: the destination gains the source, which is
    rebuilt through TR1. *)
Lemma Runs_add_reg_text s a c o :
  8 <= s < 15 -> 8 <= a < 15 -> len c = MS -> canon D c -> rd c 3 = 0 ->
  Runs D MS (add_reg_text s a) (mkTape c 2 o) (mkTape (bump D a (rd c s) c) 2 o).
Proof.
  intros Hs Ha Hlen Hc H3.
  set (c1 := bumps D [(3, 1); (s, -1)] (rd c s) c).
  set (l := [(a, 1); (s, 1); (3, -1)]).
  assert (Hw1 : within [(3, 1); (s, -1)] c) by within_solve.
  assert (Hc1 : canon D c1) by by apply canon_bumps.
  assert (Hl1 : len c1 = MS) by (unfold c1; by len_norm).
  assert (Hw2 : within l c1) by (unfold l; within_solve).
  unfold add_reg_text.
  eapply Runs_app; [apply Runs_go|].
  eapply Runs_app; [apply Runs_mv; (done || lia)|].
  eapply Runs_app; [apply Runs_go|].
  eapply Runs_app; [|eapply Runs_to; [apply Runs_go | | done..]].
  - apply Runs_transfer with (l := l); try done; try lia;
      [bal | unfold l; simpl; by eqb_simpl |].
    intros c' Hl' Hc' _.
    eapply Runs_app; [apply Runs_dec1; lia|].
    eapply Runs_app; [apply Runs_go|].
    eapply Runs_app; [apply Runs_inc1; side|].
    eapply Runs_app; [apply Runs_go|].
    eapply Runs_app; [apply Runs_inc1; side|].
    apply Runs_go.
  - pose proof (Hc s). pose proof (Hc a).
    cells_eq D Hc. fold c1.
    rewrite (rd_bumps D l) by (done || lia). unfold c1.
    rewrite !(rd_bumps D _ _ c) by (done || lia).
    unfold l. cbn [weight]. rewrite H3.
    split_eqb; eqb_simpl; simpl; mod_solve D.
Qed.

(** GT: CRR is cleared first, then set to the outcome of the comparison of
    the two operands as they are by then. *)
Lemma Runs_gt_instr_text x y c o :
  0 <= x < 15 -> 0 <= y < 15 -> len c = MS -> canon D c -> clear c ->
  Runs D MS (gt_instr_text x y) (mkTape c 2 o)
    (mkTape (upd 8 (if rd (upd 8 0 c) x >? rd (upd 7 (rd (upd 8 0 c) x) (upd 8 0 c)) y
                    then 1 else 0) c) 2 o).
Proof.
  intros Hx Hy Hlen Hc (H3 & H4 & H5 & H6 & H7).
  set (c0 := upd 8 0 c).
  assert (Hc0 : canon D c0) by (apply canon_upd; (done || lia)).
  assert (Hl0 : len c0 = MS) by (unfold c0; by len_norm).
  set (g := if rd c0 x >? rd (upd 7 (rd c0 x) c0) y then 1 else 0).
  assert (Hg : 0 <= g < D).
  { assert (Hc7 : canon D (upd 7 (rd c0 x) c0)).
    { apply canon_upd; [lia | done | apply Hc0; lia]. }
    pose proof (Hc0 x). pose proof (Hc7 y). rewrite len_upd in *.
    unfold g. destruct (Z.gtb_spec (rd c0 x) (rd (upd 7 (rd c0 x) c0) y)); lia. }
  unfold gt_instr_text.
  eapply Runs_app.
  { eapply Runs_app; [apply Runs_go|].
    eapply Runs_app; [apply (Runs_clr D MS D_pos c 8 o); (done || lia)|]. apply Runs_go. }
  eapply Runs_app; [apply Runs_go|].
  eapply Runs_app; [apply Runs_nl|]. fold c0.
  apply Runs_compare_then; try done; try lia;
    try (unfold c0; rd_norm; by eqb_simpl).
  { intros t. apply Runs_nl. }
  fold g. eapply Runs_app; [apply Runs_nl|].
  eapply Runs_app;
    [apply Runs_mv; try done; try lia; [by len_norm | apply canon_upd; (done || lia)]|].
  eapply Runs_app; [apply Runs_nl|].
  eapply Runs_to; [apply Runs_go | | done ..].
  assert (E8 : rd c0 8 = 0) by (unfold c0; rd_norm; by eqb_simpl).
  simpl bumps. unfold bump. rd_norm. eqb_simpl. rewrite E8.
  unfold c0. cells_eq D Hc. split_eqb; eqb_simpl; mod_solve D.
Qed.

(** The branch to a register: BJR gains PC - DST + 1 when PC is beyond DST,
    FJR gains DST - PC otherwise. *)
Lemma Runs_branch_reg_text d c o :
  8 <= d < 15 -> len c = MS -> canon D c -> clear c ->
  Runs D MS (branch_reg_text d) (mkTape c 2 o)
    (mkTape (if rd c 9 >? rd c d then bump D 0 (rd c 9 - rd c d + 1) c
             else bump D 1 (rd c d - rd c 9) c) 2 o).
Proof.
  intros Hd Hlen Hc Hcl. pose proof Hcl as (H3 & H4 & H5 & H6 & H7).
  pose proof (Hc 9) as Hp. pose proof (Hc d) as Hv. pose proof (Hc 1) as Hf.
  pose proof (Hc 0) as Hb.
  unfold branch_reg_text. apply Runs_branch_head; try done.
  destruct (Z.gtb_spec (rd c 9) (rd c d)) as [Hgt|Hle];
    [|destruct (Z.eq_dec D 1) as [HD|HD]].
  - set (cA := upd 4 0 (upd 3 1 c)).
    assert (HcA : canon D cA) by (repeat (apply canon_upd; [side | | lia]); done).
    assert (HlA : len cA = MS) by (unfold cA; by len_norm).
    eapply Runs_app;
      [apply Runs_jump_back; try done; unfold cA; rd_norm; by eqb_simpl|].
    eapply Runs_app; [apply Runs_nl|].
    chunk.
    eapply Runs_app; [apply Runs_loop_skip|].
    + unfold sub_text, cp_text, mv_text. bal.
    + side.
    + unfold cA. simpl. rd_norm. by eqb_simpl.
    + eapply Runs_to; [apply Runs_go | | done..].
      unfold cA, bump. rd_norm. eqb_simpl. cells_eq D Hc.
      split_eqb; eqb_simpl; try done; lia.
  - replace (1 mod D) with 0 by (by rewrite HD).
    set (cA := upd 4 0 (upd 3 0 c)).
    assert (HcA : canon D cA) by (repeat (apply canon_upd; [side | | lia]); done).
    eapply Runs_app; [apply Runs_loop_skip|].
    + unfold sub_text, cp_text, mv_text. bal.
    + unfold cA. side.
    + unfold cA. simpl. rd_norm. by eqb_simpl.
    + eapply Runs_app; [apply Runs_nl|].
      chunk.
      eapply Runs_app; [apply Runs_loop_skip|].
      * unfold sub_text, cp_text, mv_text. bal.
      * unfold cA. side.
      * unfold cA. simpl. rd_norm. by eqb_simpl.
      * eapply Runs_to; [apply Runs_go | | done..].
        assert (E1 : (rd c 1 + (rd c d - rd c 9)) mod D = rd c 1).
        { rewrite HD, Z.mod_1_r. lia. }
        unfold cA, bump. rewrite E1. cells_eq D Hc.
        split_eqb; eqb_simpl; try done; lia.
  - rewrite (Z.mod_small 1 D) by lia.
    set (cA := upd 4 1 (upd 3 0 c)).
    assert (HcA : canon D cA) by (repeat (apply canon_upd; [side | | lia]); done).
    assert (HlA : len cA = MS) by (unfold cA; by len_norm).
    eapply Runs_app; [apply Runs_loop_skip|].
    + unfold sub_text, cp_text, mv_text. bal.
    + unfold cA. side.
    + unfold cA. simpl. rd_norm. by eqb_simpl.
    + eapply Runs_app; [apply Runs_nl|].
      chunk.
      eapply Runs_app;
        [apply Runs_jump_fwd; try done; unfold cA; rd_norm; by eqb_simpl|].
      eapply Runs_to; [apply Runs_go | | done..].
      unfold cA, bump. rd_norm. eqb_simpl. cells_eq D Hc.
      split_eqb; eqb_simpl; try done; lia.
Qed.

(** [BFGen.set]: the cell under the pointer ends as the value, modulo the
    base; a negative value leaves it empty. *)
Lemma Runs_set v c h o :
  0 <= h < MS -> len c = MS -> canon D c ->
  Runs D MS (BFGen.set v) (mkTape c h o) (mkTape (upd h (Z.max 0 v mod D) c) h o).
Proof.
  intros Hh Hlen Hc.
  assert (Hc0 : canon D (upd h 0 c)) by (apply canon_upd; (done || lia)).
  unfold BFGen.set.
  eapply Runs_app; [apply (Runs_clr D MS D_pos c h o); (done || lia)|].
  eapply Runs_to; [apply Runs_incs_any; try done; [side | apply Hc0; side] | | done..].
  unfold bump. rewrite rd_upd_eq, upd_upd_eq by lia. done.
Qed.

Lemma Runs_set_pc_text k c o :
  len c = MS -> canon D c ->
  Runs D MS (set_pc_text k) (mkTape c 1 o) (mkTape (upd 9 (Z.max 0 k mod D) c) 1 o).
Proof.
  intros Hlen Hc.
  assert (Hc0 : canon D (upd 9 0 c)) by (apply canon_upd; (done || lia)).
  unfold set_pc_text, BFGen.inc.
  eapply Runs_app; [apply Runs_go|].
  eapply Runs_app; [apply (Runs_clr D MS D_pos c 9 o); (done || lia)|].
  eapply Runs_app; [apply Runs_incs_any; try done; [lia | side | apply Hc0; side]|].
  eapply Runs_app; [apply Runs_go|].
  eapply Runs_to; [apply Runs_nl | | done..].
  unfold bump. rewrite rd_upd_eq, upd_upd_eq by lia. done.
Qed.

(** The probe of the dispatcher, entered on an empty IC next to an empty
    TR1: IC ends as 1 when FJR is empty and as 0 otherwise. *)
Lemma Runs_probe c o :
  1 < D -> len c = MS -> canon D c -> rd c 2 = 0 -> rd c 3 = 0 ->
  Runs D MS probe_text (mkTape c 2 o)
    (mkTape (upd 2 (if rd c 1 =? 0 then 1 else 0) c) 2 o).
Proof.
  intros HD Hlen Hc H2 H3. unfold probe_text.
  assert (E1 : bump D 2 1 c = upd 2 1 c).
  { unfold bump. rewrite H2. f_equal. mod_solve D. }
  chunk. rewrite E1.
  destruct (Z.eqb_spec (rd c 1) 0) as [E|E].
  - eapply Runs_app; [apply Runs_loop_skip; [bal | side | ]|].
    { simpl. rd_norm. by eqb_simpl. }
    chunk.
    eapply Runs_app.
    { eapply Runs_loop_iter with (t1 := mkTape (upd 2 1 c) 3 o).
      - side.
      - simpl. rd_norm. eqb_simpl. lia.
      - last_chunk.
      - apply Runs_loop_skip; [bal | side | ].
        simpl. rd_norm. by eqb_simpl. }
    last_chunk.
  - eapply Runs_app.
    { eapply Runs_loop_iter with (t1 := mkTape (upd 2 0 c) 2 o).
      - side.
      - simpl. rd_norm. by eqb_simpl.
      - eapply Runs_to; [lit | | done..].
        unfold bump. simpl. rd_norm. eqb_simpl. rewrite upd_upd_eq.
        by f_equal.
      - apply Runs_loop_skip; [bal | side | ].
        simpl. rd_norm. by eqb_simpl. }
    chunk.
    eapply Runs_app; [apply Runs_loop_skip; [bal | side | ]|].
    { simpl. rd_norm. by eqb_simpl. }
    last_chunk.
Qed.

(** The settling part, entered on IC as the probe leaves it: a pending
    forward jump loses one, an empty FJR stays empty, and IC is emptied. *)
Lemma Runs_settle c o :
  1 < D -> len c = MS -> canon D c ->
  rd c 2 = (if rd c 1 =? 0 then 1 else 0) ->
  Runs D MS settle_text (mkTape c 2 o)
    (mkTape (upd 2 0 (upd 1 (if rd c 1 =? 0 then 0 else rd c 1 - 1) c)) 1 o).
Proof.
  intros HD Hlen Hc H2. unfold settle_text.
  pose proof (Hc 1) as H1.
  chunk.
  destruct (Z.eqb_spec (rd c 1) 0) as [E|E].
  - eapply Runs_app.
    { eapply Runs_loop_iter with (t1 := mkTape (upd 2 0 (upd 1 0 c)) 2 o).
      - side.
      - simpl. unfold bump. change (2 - 1) with 1. rd_norm. eqb_simpl. lia.
      - eapply Runs_to; [lit | | done..].
        unfold bump. change (2 - 1) with 1. rd_norm. eqb_simpl. rewrite E, H2.
        cells_eq D Hc. split_eqb; eqb_simpl; mod_solve D.
      - apply Runs_loop_skip; [bal | side | ].
        simpl. rd_norm. by eqb_simpl. }
    last_chunk.
  - eapply Runs_app.
    { apply Runs_loop_skip; [bal | side | ].
      simpl. unfold bump. change (2 - 1) with 1. rd_norm. eqb_simpl.
      rewrite H2. by destruct (rd c 1 =? 0). }
    eapply Runs_to; [lit | | done..].
    unfold bump. change (2 - 1) with 1. cells_eq D Hc.
    split_eqb; eqb_simpl; mod_solve D.
Qed.

(** [BFGen.fjump_wrap] with no forward jump pending: the instruction runs
    once, and a forward jump it has set loses one. *)
Lemma Runs_fjump_exec inst c o c2 o2 :
  1 < D -> len c = MS -> canon D c ->
  rd c 1 = 0 -> rd c 2 = 0 -> rd c 3 = 0 ->
  Runs D MS inst (mkTape c 2 o) (mkTape c2 2 o2) ->
  len c2 = MS -> canon D c2 -> rd c2 2 = 0 -> rd c2 3 = 0 ->
  Runs D MS (BFGen.fjump_wrap inst) (mkTape c 1 o)
    (mkTape (upd 1 (if rd c2 1 =? 0 then 0 else rd c2 1 - 1) c2) 1 o2).
Proof.
  intros HD Hlen Hc H1 H2 H3 Hinst Hl2 Hc2 H22 H23.
  rewrite fjump_wrap_parts, dispatch_gate_loop.
  eapply Runs_app; [apply (Runs_right1 D MS c 1 o)|].
  eapply Runs_app; [by apply Runs_probe|].
  rewrite H1. change (0 =? 0) with true. cbv iota.
  eapply Runs_app; [apply Runs_nl|].
  assert (Hbody : Runs D MS ("-" +:+ (nl +:+ "    ") +:+ inst +:+ nl)
                    (mkTape (upd 2 1 c) 2 o) (mkTape c2 2 o2)).
  { eapply Runs_app.
    - eapply Runs_to with (c' := c); [apply Runs_dec1; side | | done..].
      unfold bump. rd_norm. eqb_simpl. rewrite upd_upd_eq.
      change ((1 + -1) mod D) with 0. rewrite <- H2. by rewrite upd_rd by lia.
    - eapply Runs_app.
      { eapply Runs_app; [apply Runs_nl|].
        repeat (eapply Runs_cons; [apply Runs_space|]). apply Runs_nil. }
      eapply Runs_app; [exact Hinst|]. apply Runs_nl. }
  eapply Runs_app.
  { eapply Runs_loop_iter; [side | simpl; rd_norm; eqb_simpl; lia | exact Hbody |].
    apply Runs_loop_skip; [by eapply Runs_Bal | side | done]. }
  eapply Runs_app; [apply Runs_nl|].
  eapply Runs_app; [by apply Runs_probe|].
  assert (Hcp : canon D (upd 2 (if rd c2 1 =? 0 then 1 else 0) c2)).
  { apply canon_upd; [lia | done | destruct (rd c2 1 =? 0); lia]. }
  eapply Runs_app.
  { apply Runs_settle; try done; [by len_norm|]. rd_norm. by eqb_simpl. }
  eapply Runs_to; [apply Runs_nl | | done..].
  rd_norm. eqb_simpl. cells_eq D Hc2. rewrite ?H22. split_eqb; eqb_simpl; done.
Qed.

(** [BFGen.fjump_wrap] with a forward jump pending: the instruction is
    skipped and the jump loses one. *)
Lemma Runs_fjump_skip inst c o :
  1 < D -> len c = MS -> canon D c -> Bal inst ->
  rd c 1 <> 0 -> rd c 2 = 0 -> rd c 3 = 0 ->
  Runs D MS (BFGen.fjump_wrap inst) (mkTape c 1 o)
    (mkTape (upd 1 (rd c 1 - 1) c) 1 o).
Proof.
  intros HD Hlen Hc HB H1 H2 H3.
  rewrite fjump_wrap_parts, dispatch_gate_loop.
  assert (E0 : upd 2 0 c = c) by (rewrite <- H2 at 1; by rewrite upd_rd by lia).
  eapply Runs_app; [apply (Runs_right1 D MS c 1 o)|].
  eapply Runs_app; [by apply Runs_probe|].
  destruct (Z.eqb_spec (rd c 1) 0) as [E|_]; [done|]. rewrite E0.
  eapply Runs_app; [apply Runs_nl|].
  eapply Runs_app.
  { apply Runs_loop_skip; [|side|done].
    apply Bal_app; [by apply Bal_depth|].
    apply Bal_app; [by apply Bal_depth|].
    apply Bal_app; [done | by apply Bal_depth]. }
  eapply Runs_app; [apply Runs_nl|].
  eapply Runs_app; [by apply Runs_probe|].
  destruct (Z.eqb_spec (rd c 1) 0) as [E|_]; [done|]. rewrite E0.
  eapply Runs_app.
  { apply Runs_settle; try done. by destruct (Z.eqb_spec (rd c 1) 0). }
  eapply Runs_to; [apply Runs_nl | | done..].
  destruct (Z.eqb_spec (rd c 1) 0) as [E|_]; [done|].
  cells_eq D Hc. rewrite ?H2. split_eqb; eqb_simpl; done.
Qed.

(** [BFGen.cond] around an instruction: skipped when CRR is empty, run
    once when CRR holds 1. *)
Lemma Runs_cond_skip inst c o :
  len c = MS -> canon D c -> Bal inst ->
  rd c 8 = 0 -> rd c 2 = 0 -> rd c 3 = 0 ->
  Runs D MS (cond_text inst) (mkTape c 2 o) (mkTape c 2 o).
Proof.
  intros Hlen Hc HB H8 H2 H3. unfold cond_text. rewrite cond_gate_loop.
  eapply Runs_app; [apply Runs_go|].
  eapply Runs_app; [apply Runs_cp_zero; (done || lia)|].
  eapply Runs_app; [apply Runs_go|].
  apply Runs_loop_skip; [|side|done].
  apply Bal_app; [by apply Bal_depth|].
  apply Bal_app; [by apply Bal_depth|].
  apply Bal_app; [done | by apply Bal_depth].
Qed.

Lemma Runs_cond_once inst c o c2 o2 :
  len c = MS -> canon D c ->
  rd c 8 = 1 -> rd c 2 = 0 -> rd c 3 = 0 ->
  Runs D MS inst (mkTape c 2 o) (mkTape c2 2 o2) ->
  len c2 = MS -> rd c2 2 = 0 ->
  Runs D MS (cond_text inst) (mkTape c 2 o) (mkTape c2 2 o2).
Proof.
  intros Hlen Hc H8 H2 H3 Hinst Hl2 H22. unfold cond_text. rewrite cond_gate_loop.
  pose proof (Hc 8) as Hv.
  assert (E1 : bump D 2 (rd c 8) c = upd 2 1 c).
  { unfold bump. rewrite H2, H8. f_equal. mod_solve D. }
  eapply Runs_app; [apply Runs_go|].
  eapply Runs_app; [apply Runs_cp0; (done || lia)|]. rewrite E1.
  eapply Runs_app; [apply Runs_go|].
  assert (Hbody : Runs D MS ("-" +:+ "" +:+ inst +:+ "")
                    (mkTape (upd 2 1 c) 2 o) (mkTape c2 2 o2)).
  { eapply Runs_app.
    - eapply Runs_to with (c' := c); [apply Runs_dec1; side | | done..].
      unfold bump. rd_norm. eqb_simpl. rewrite upd_upd_eq.
      change ((1 + -1) mod D) with 0. rewrite <- H2. by rewrite upd_rd by lia.
    - eapply Runs_app; [apply Runs_nil|].
      eapply Runs_app; [exact Hinst|]. apply Runs_nil. }
  eapply Runs_loop_iter; [side | simpl; rd_norm; eqb_simpl; lia | exact Hbody |].
  apply Runs_loop_skip; [by eapply Runs_Bal | side | done].
Qed.

(** One block of the dispatcher, from FJR to BJR. *)
Lemma Runs_block k inst c o c' o' :
  1 < D -> 0 <= k -> Inv D MS c -> Block D MS k inst c o c' o' ->
  Runs D MS (block_text k inst) (mkTape c 1 o) (mkTape c' 0 o') /\ Inv D MS c'.
Proof.
  intros HD Hk (Hlen & Hc & H0 & H2 & H3) HB. unfold block_text.
  assert (Hc9 : canon D (upd 9 (k mod D) c)).
  { apply canon_upd; [lia | done | apply Z.mod_pos_bound; lia]. }
  assert (Hl9 : len (upd 9 (k mod D) c) = MS) by by len_norm.
  assert (Hpc : Runs D MS (set_pc_text k) (mkTape c 1 o)
                  (mkTape (upd 9 (k mod D) c) 1 o)).
  { eapply Runs_to; [by apply Runs_set_pc_text | | done..].
    by rewrite Z.max_r by lia. }
  destruct HB as [c o c2 o2 H1 Hinst (Hl2 & Hc2 & H20 & H22 & H23) | c o H1 Hbal].
  - split.
    + eapply Runs_app; [exact Hpc|].
      eapply Runs_app.
      { apply Runs_fjump_exec with (c2 := c2) (o2 := o2); try done;
          rd_norm; by eqb_simpl. }
      last_chunk.
    + pose proof (Hc2 1) as Hf.
      split; [by len_norm|]. split.
      { apply canon_upd; [lia | done |]. destruct (Z.eqb_spec (rd c2 1) 0); lia. }
      rd_norm. by eqb_simpl.
  - pose proof (Hc 1) as Hf. split.
    + eapply Runs_app; [exact Hpc|].
      eapply Runs_app.
      { apply Runs_fjump_skip; try done; rd_norm; by eqb_simpl. }
      eapply Runs_to; [lit | | done..].
      rd_norm. by eqb_simpl.
    + split; [by len_norm|]. split.
      { apply canon_upd; [side | done | lia]. }
      rd_norm. by eqb_simpl.
Qed.

(** The nested loops around consecutive blocks: entered on BJR holding the
    number of loops still to open, every loop is entered once, takes one off
    BJR, and its block runs when the loops inside it are done. *)
Lemma Runs_nest bs : forall k j g c o c1 o1 c' o',
  1 < D -> 0 <= k -> 0 <= j -> j + len bs < D -> len c = MS -> canon D c ->
  Runs D MS g (mkTape (upd 0 j c) 0 o) (mkTape c1 1 o1) -> Inv D MS c1 ->
  Blocks D MS k bs c1 o1 c' o' ->
  Runs D MS (nest g k bs) (mkTape (upd 0 (j + len bs) c) 0 o) (mkTape c' 1 o') /\
  Inv D MS c'.
Proof.
  induction bs as [|b bs IH]; intros k j g c o c1 o1 c' o' HD Hk Hj Hlt Hlen Hc Hg Hi HB.
  - apply Blocks_nil_inv in HB as [-> ->]. unfold len. simpl. rewrite Z.add_0_r. done.
  - apply Blocks_cons_inv in HB as (c2 & o2 & Hb & Hbs). cbn [nest].
    destruct (Runs_block _ _ _ _ _ _ HD Hk Hi Hb) as [Hrun Hi2].
    assert (Hlen' : len (b :: bs) = 1 + len bs) by (unfold len; simpl; lia).
    rewrite Hlen' in *.
    replace (j + (1 + len bs)) with ((j + 1) + len bs) by lia.
    assert (Hlb : 0 <= len bs) by (unfold len; lia).
    apply (IH (k + 1) (j + 1) _ c o c2 o2); try done; try lia.
    eapply Runs_app; [|last_chunk].
    assert (Hbody : Runs D MS ("-" +:+ g +:+ block_text k b)
                      (mkTape (upd 0 (j + 1) c) 0 o) (mkTape c2 0 o2)).
    { eapply Runs_app.
      - eapply Runs_to with (c' := upd 0 j c); [apply Runs_dec1; side | | done..].
        unfold bump. rd_norm. eqb_simpl. rewrite upd_upd_eq. f_equal.
        replace (j + 1 + -1) with j by lia. by rewrite Z.mod_small by lia.
      - eapply Runs_app; [exact Hg | exact Hrun]. }
    eapply Runs_loop_iter; [side | simpl; rd_norm; eqb_simpl; lia | exact Hbody |].
    apply Runs_loop_skip; [by eapply Runs_Bal | simpl; destruct Hi2 as (-> & _); lia |].
    simpl. by destruct Hi2 as (_ & _ & -> & _).
    lia.
Qed.

(** Nested loops entered with an empty BJR are passed over. *)
Lemma Runs_nest_skipped bs c o :
  Forall Neutral bs -> len c = MS -> rd c 0 = 0 ->
  Runs D MS (nest (nl +:+ ">" +:+ nl) 0 bs) (mkTape c 0 o) (mkTape c 1 o).
Proof.
  intros Hbs Hlen H0.
  destruct bs as [|b0 bs0] using rev_ind.
  - cbn [nest]. eapply Runs_app; [apply Runs_nl|]. last_chunk.
  - clear IHbs0. apply Forall_app in Hbs as [Hbs Hb]. apply Forall_cons in Hb as [Hb _].
    rewrite nest_app. cbn [nest].
    eapply Runs_app; [|last_chunk].
    apply Runs_loop_skip; [|side|done].
    apply Neutral_Bal, Neutral_app; [by intros j|].
    apply Neutral_app; [|by apply Neutral_block_text].
    apply Neutral_nest; [by intros j | done].
    lia.
Qed.

(** A whole program, entered on an empty BJR: the prologue leaves the number
    of instructions modulo the base in BJR, so the last blocks run, as many
    as that number, and the blocks before them are passed over. *)
Lemma Runs_program bs1 bs2 c o c' o' :
  1 < D -> Forall Neutral bs1 -> len (bs1 ++ bs2) mod D = len bs2 ->
  Inv D MS c -> Blocks D MS (len bs1) bs2 c o c' o' ->
  Runs D MS (BFGen.inc (len (bs1 ++ bs2)) +:+ nl +:+ nest (nl +:+ ">" +:+ nl) 0 (bs1 ++ bs2))
    (mkTape c 0 o) (mkTape c' 1 o') /\ Inv D MS c'.
Proof.
  intros HD Hn1 Hmod Hi HB. pose proof Hi as (Hlen & Hc & H0 & H2 & H3).
  assert (Hlt : 0 <= len bs2 < D).
  { rewrite <- Hmod. apply Z.mod_pos_bound. lia. }
  assert (E0 : upd 0 0 c = c) by (rewrite <- H0 at 2; apply upd_rd; lia).
  destruct (Runs_nest bs2 (len bs1) 0 (nest (nl +:+ ">" +:+ nl) 0 bs1) c o c o c' o')
    as [Hrun Hi']; try done; try lia.
  { unfold len. lia. }
  { rewrite E0. by apply Runs_nest_skipped. }
  split; [|done].
  unfold BFGen.inc.
  eapply Runs_app.
  { apply Runs_incs; try done; [unfold len; lia | lia | lia | rewrite H0; lia]. }
  eapply Runs_app; [apply Runs_nl|].
  rewrite nest_app. simpl (0 + len bs1).
  replace (bump D 0 (len (bs1 ++ bs2)) c) with (upd 0 (0 + len bs2) c); [exact Hrun|].
  unfold bump. rewrite H0, !Z.add_0_l. by rewrite Hmod.
Qed.

End Programs.

(** * The instructions on the machine *)

Lemma canon_forallb D c :
  forallb (fun v => (0 <=? v) && (v <? D)) c = true -> canon D c.
Proof.
  intros H. apply Forall_canon, List.Forall_forall. intros v Hv.
  rewrite forallb_forall in H. apply H in Hv. apply andb_true_iff in Hv. lia.
Qed.

Lemma run_from code m p c h o :
  loaded code m -> bfc.mp m = p ->
  Runs (bfc.data_size m) (bfc.memory_size m) code
    (mkTape (bfc.memory m) p (bfc.printed m)) (mkTape c h o) ->
  exists m', ends m m' /\ bfc.mp m' = h /\ bfc.printed m' = o /\ bfc.memory m' = c.
Proof.
  intros Hl Hp HR. destruct (run_text code m c h o Hl) as (m' & He & Hm & Hh & Ho).
  { unfold tape_of. by rewrite Hp. }
  by exists m'.
Qed.

(** ADD with a register source: run on IC with TR1 empty, the body of
    [ADD dst, src] adds the value of [src] to [dst] modulo the base and
    changes no other cell (so [ADD r, r] doubles [r]); nothing is printed and
    the pointer is back on IC. *)
Theorem add_register_adds (i : Instruction) (dst src : string)
    (labels : gmap string Label) (pc : Z) (body : string) (m : bfc.BrainFuckMachine) :
  operands i = [ref dst; ref src] -> BFI.add i labels pc = Ok body ->
  ready m -> loaded body m -> bfc.mp m = cell "IC" -> reg m "TR1" = 0 ->
  exists m', ends m m' /\ bfc.mp m' = cell "IC" /\ bfc.printed m' = bfc.printed m /\
    bfc.memory m' = bump (bfc.data_size m) (cell dst) (reg m src) (bfc.memory m).
Proof.
  intros Hops Hb Hr Hl Hmp H3.
  pose proof (ready_canon m Hr) as Hc. destruct Hr as (HD & HM & Hlen & _).
  destruct (add_reg_body _ _ _ _ _ _ Hops eq_refl Hb) as (-> & Ra & Rs).
  apply (run_from _ m _ _ _ _ Hl Hmp).
  by apply Runs_add_reg_text.
Qed.

Lemma add_register_adds_witness :
  exists m', ends add_R1_R2_machine m' /\ bfc.mp m' = cell "IC" /\
    bfc.printed m' = bfc.printed add_R1_R2_machine /\
    bfc.memory m' =
      bump (bfc.data_size add_R1_R2_machine) (cell "R1") (reg add_R1_R2_machine "R2")
        (bfc.memory add_R1_R2_machine).
Proof.
  apply (add_register_adds add_R1_R2 "R1" "R2" ∅ 0 add_R1_R2_text add_R1_R2_machine).
  - reflexivity.
  - reflexivity.
  - apply ready_machine_at; reflexivity.
  - split; reflexivity.
  - reflexivity.
  - reflexivity.
Defined.

(** ADD with a constant: the body of [ADD dst, #v] adds [int(v)] to [dst]
    modulo the base, and adds nothing when [int(v)] is negative. *)
Theorem add_constant_adds (i : Instruction) (dst v : string) (n : Z)
    (labels : gmap string Label) (pc : Z) (body : string) (m : bfc.BrainFuckMachine) :
  operands i = [ref dst; mkOperand v OperandType.CONSTANT] -> int v = Ok n ->
  BFI.add i labels pc = Ok body ->
  ready m -> loaded body m -> bfc.mp m = cell "IC" ->
  exists m', ends m m' /\ bfc.mp m' = cell "IC" /\ bfc.printed m' = bfc.printed m /\
    bfc.memory m' = bump (bfc.data_size m) (cell dst) (Z.max 0 n) (bfc.memory m).
Proof.
  intros Hops Hn Hb Hr Hl Hmp.
  pose proof (ready_canon m Hr) as Hc. destruct Hr as (HD & HM & Hlen & _).
  destruct (add_const_body _ _ _ _ _ _ _ Hops eq_refl Hn Hb) as (-> & Ra).
  apply (run_from _ m _ _ _ _ Hl Hmp).
  apply Runs_add_const_text; (done || simpl in *; lia).
Qed.

Lemma add_constant_adds_witness :
  exists m', ends add_R1_7_machine m' /\ bfc.mp m' = cell "IC" /\
    bfc.printed m' = bfc.printed add_R1_7_machine /\
    bfc.memory m' =
      bump (bfc.data_size add_R1_7_machine) (cell "R1") (Z.max 0 7)
        (bfc.memory add_R1_7_machine).
Proof.
  apply (add_constant_adds add_R1_7 "R1" "7" 7 ∅ 0 add_R1_7_text add_R1_7_machine).
  - reflexivity.
  - reflexivity.
  - reflexivity.
  - apply ready_machine_at; reflexivity.
  - split; reflexivity.
  - reflexivity.
Defined.

(** MOV: the body of [MOV dst, #v] leaves [int(v)] modulo the base in
    [dst], and 0 when [int(v)] is negative; no other cell changes. *)
Theorem mov_sets (i : Instruction) (dst v : string) (n : Z)
    (labels : gmap string Label) (pc : Z) (body : string) (m : bfc.BrainFuckMachine) :
  operands i = [ref dst; mkOperand v OperandType.CONSTANT] -> int v = Ok n ->
  BFI.mov i labels pc = Ok body ->
  ready m -> loaded body m -> bfc.mp m = cell "IC" ->
  exists m', ends m m' /\ bfc.mp m' = cell "IC" /\ bfc.printed m' = bfc.printed m /\
    bfc.memory m' = upd (cell dst) (Z.max 0 n mod bfc.data_size m) (bfc.memory m).
Proof.
  intros Hops Hn Hb Hr Hl Hmp.
  pose proof (ready_canon m Hr) as Hc. destruct Hr as (HD & HM & Hlen & _).
  destruct (mov_body _ _ _ _ _ _ _ Hops Hn Hb) as (-> & Ra).
  apply (run_from _ m _ _ _ _ Hl Hmp).
  apply Runs_mov_text; (done || simpl in *; lia).
Qed.

Lemma mov_sets_witness :
  exists m', ends mov_dec_machine m' /\ bfc.mp m' = cell "IC" /\
    bfc.printed m' = bfc.printed mov_dec_machine /\
    bfc.memory m' =
      upd (cell "R1") (Z.max 0 16 mod bfc.data_size mov_dec_machine)
        (bfc.memory mov_dec_machine).
Proof.
  apply (mov_sets mov_dec "R1" "16" 16 ∅ 0 mov_dec_text mov_dec_machine).
  - reflexivity.
  - reflexivity.
  - reflexivity.
  - apply ready_machine_at; reflexivity.
  - split; reflexivity.
  - reflexivity.
Defined.

(** OUT: the body of [OUT dst] prints the value of [dst] and changes
    no cell. *)
Theorem out_prints (i : Instruction) (dst : string)
    (labels : gmap string Label) (pc : Z) (body : string) (m : bfc.BrainFuckMachine) :
  operands i = [ref dst] -> BFI.out i labels pc = Ok body ->
  ready m -> loaded body m -> bfc.mp m = cell "IC" ->
  exists m', ends m m' /\ bfc.mp m' = cell "IC" /\
    bfc.printed m' = bfc.printed m ++ [reg m dst] /\ bfc.memory m' = bfc.memory m.
Proof.
  intros Hops Hb Hr Hl Hmp.
  destruct Hr as (HD & HM & Hlen & _).
  destruct (out_body _ _ _ _ _ Hops Hb) as (-> & Ra).
  apply (run_from _ m _ _ _ _ Hl Hmp).
  apply Runs_out_text; (done || simpl in *; lia).
Qed.

Lemma out_prints_witness :
  exists m', ends out_R1_machine m' /\ bfc.mp m' = cell "IC" /\
    bfc.printed m' = bfc.printed out_R1_machine ++ [reg out_R1_machine "R1"] /\
    bfc.memory m' = bfc.memory out_R1_machine.
Proof.
  apply (out_prints out_R1 "R1" ∅ 0 out_R1_text out_R1_machine).
  - reflexivity.
  - reflexivity.
  - apply ready_machine_at; reflexivity.
  - split; reflexivity.
  - reflexivity.
Defined.

Lemma user_cell r :
  In r URegisters ->
  (String.eqb r "CRR" = true /\ cell r = 8) \/
  (String.eqb r "CRR" = false /\ 9 <= cell r < 15).
Proof.
  intros H. simpl in H.
  destruct H as [<-|H]; [by left|].
  repeat (destruct H as [<-|H]; [by right|]). done.
Qed.

(** GT on user registers: CRR is cleared before the operands are read, so
    an operand that is CRR itself counts as 0; run on IC with the scratch
    registers empty, the body of [GT a, b] then leaves 1 in CRR when the
    value of [a] exceeds the value of [b] and 0 otherwise, and changes no
    other cell. *)
Theorem gt_sets_CRR (i : Instruction) (a b : string)
    (labels : gmap string Label) (pc : Z) (body : string) (m : bfc.BrainFuckMachine) :
  operands i = [ref a; ref b] -> In a URegisters -> In b URegisters ->
  BFI.gt i labels pc = Ok body ->
  ready m -> scratch_clear m -> loaded body m -> bfc.mp m = cell "IC" ->
  exists m', ends m m' /\ bfc.mp m' = cell "IC" /\ bfc.printed m' = bfc.printed m /\
    bfc.memory m' =
      upd (cell "CRR")
        (if (if String.eqb a "CRR" then 0 else reg m a)
            >? (if String.eqb b "CRR" then 0 else reg m b) then 1 else 0)
        (bfc.memory m).
Proof.
  intros Hops Ha Hb Hbody Hr Hs Hl Hmp.
  pose proof (ready_canon m Hr) as Hc. destruct Hr as (HD & HM & Hlen & _).
  apply scratch_clear_cells in Hs as Hcl.
  rewrite (gt_body i (ref a) (ref b) labels pc) in Hbody;
    [| unfold BFI.operand; by rewrite Hops ..
     | apply in_or_app; by right | apply in_or_app; by right].
  injection Hbody as <-. cbn [val ref].
  apply (run_from _ m _ _ _ _ Hl Hmp).
  pose proof (user_cell a Ha) as Ua. pose proof (user_cell b Hb) as Ub.
  eapply Runs_to; [apply Runs_gt_instr_text; try done; lia | | done..].
  f_equal. unfold reg.
  replace (rd (upd 7 (rd (upd 8 0 (bfc.memory m)) (cell a)) (upd 8 0 (bfc.memory m))) (cell b))
    with (rd (upd 8 0 (bfc.memory m)) (cell b)) by (rd_norm; eqb_simpl; done).
  rd_norm.
  destruct Ua as [[-> ->]|[-> Ra]], Ub as [[-> ->]|[-> Rb]]; by eqb_simpl.
Qed.

Lemma gt_sets_CRR_witness :
  exists m', ends gt_R1_R2_machine m' /\ bfc.mp m' = cell "IC" /\
    bfc.printed m' = bfc.printed gt_R1_R2_machine /\
    bfc.memory m' =
      upd (cell "CRR")
        (if (if String.eqb "R1" "CRR" then 0 else reg gt_R1_R2_machine "R1")
            >? (if String.eqb "R2" "CRR" then 0 else reg gt_R1_R2_machine "R2")
         then 1 else 0)
        (bfc.memory gt_R1_R2_machine).
Proof.
  apply (gt_sets_CRR gt_R1_R2 "R1" "R2" ∅ 0 gt_R1_R2_text gt_R1_R2_machine).
  - reflexivity.
  - simpl; tauto.
  - simpl; tauto.
  - reflexivity.
  - apply ready_machine_at; reflexivity.
  - repeat constructor.
  - split; reflexivity.
  - reflexivity.
Defined.

(** The branch to a user register: run on IC with the scratch registers
    empty, the body of [B r] adds PC - r + 1 to BJR when the value of PC
    exceeds the value of [r], and r - PC to FJR otherwise, modulo the base;
    no other cell changes. A label of the same name is never looked up. *)
Theorem branch_register_jumps (i : Instruction) (r : string)
    (labels : gmap string Label) (pc : Z) (body : string) (m : bfc.BrainFuckMachine) :
  operands i = [ref r] -> In r URegisters ->
  BFI.branch i labels pc = Ok body ->
  ready m -> scratch_clear m -> loaded body m -> bfc.mp m = cell "IC" ->
  exists m', ends m m' /\ bfc.mp m' = cell "IC" /\ bfc.printed m' = bfc.printed m /\
    bfc.memory m' =
      if reg m "PC" >? reg m r
      then bump (bfc.data_size m) (cell "BJR") (reg m "PC" - reg m r + 1) (bfc.memory m)
      else bump (bfc.data_size m) (cell "FJR") (reg m r - reg m "PC") (bfc.memory m).
Proof.
  intros Hops Hu Hbody Hr Hs Hl Hmp.
  pose proof (ready_canon m Hr) as Hc. destruct Hr as (HD & HM & Hlen & _).
  apply scratch_clear_cells in Hs as Hcl.
  rewrite (branch_reg_body i (ref r) labels pc Hops Hu) in Hbody.
  injection Hbody as <-. cbn [val ref].
  apply (run_from _ m _ _ _ _ Hl Hmp).
  apply cell_user in Hu as [_ Rr].
  by apply Runs_branch_reg_text.
Qed.

Lemma branch_register_jumps_witness :
  exists m', ends b_R1_machine m' /\ bfc.mp m' = cell "IC" /\
    bfc.printed m' = bfc.printed b_R1_machine /\
    bfc.memory m' =
      if reg b_R1_machine "PC" >? reg b_R1_machine "R1"
      then bump (bfc.data_size b_R1_machine) (cell "BJR")
             (reg b_R1_machine "PC" - reg b_R1_machine "R1" + 1) (bfc.memory b_R1_machine)
      else bump (bfc.data_size b_R1_machine) (cell "FJR")
             (reg b_R1_machine "R1" - reg b_R1_machine "PC") (bfc.memory b_R1_machine).
Proof.
  apply (branch_register_jumps b_R1 "R1" ∅ 0 b_R1_text b_R1_machine).
  - reflexivity.
  - simpl; tauto.
  - vm_compute; reflexivity.
  - apply ready_machine_at; reflexivity.
  - repeat constructor.
  - split; vm_compute; reflexivity.
  - reflexivity.
Defined.

(** * The generator on the machine *)

(** [BFGen.mv]: for two different registers, the text run on [src] empties
    [src] into [dst]: [dst] gains the value of [src] modulo the base, [src]
    ends empty, the pointer stays on [src]. *)
Theorem mv_moves (src dst : string) (body : string) (m : bfc.BrainFuckMachine) :
  BFGen.mv src dst = Ok body -> src <> dst ->
  ready m -> loaded body m -> bfc.mp m = cell src ->
  exists m', ends m m' /\ bfc.mp m' = cell src /\ bfc.printed m' = bfc.printed m /\
    bfc.memory m' =
      upd (cell src) 0 (bump (bfc.data_size m) (cell dst) (reg m src) (bfc.memory m)).
Proof.
  intros Hb Hne Hr Hl Hmp.
  pose proof (ready_canon m Hr) as Hc. destruct Hr as (HD & HM & Hlen & _).
  apply mv_inv in Hb as (x & y & Hx & Hy & ->).
  assert (Hxy : x <> y) by (intros ->; apply Hne; by eapply address_inj).
  apply address_of_Ok in Hx as (Hix & Rx & ->). apply address_of_Ok in Hy as (Hiy & Ry & ->).
  fold (cell src) in *. fold (cell dst) in *.
  apply (run_from _ m _ _ _ _ Hl Hmp).
  eapply Runs_to; [apply Runs_mv; (done || lia) | | done..].
  unfold reg. pose proof (Hc (cell src)). pose proof (Hc (cell dst)).
  cells_eq (bfc.data_size m) Hc.
  rewrite rd_bumps by (done || lia || within_solve).
  cbn [weight]. split_eqb; eqb_simpl; simpl; mod_solve (bfc.data_size m).
Qed.

Lemma mv_moves_witness :
  exists m', ends mv_R1_R2_machine m' /\ bfc.mp m' = cell "R1" /\
    bfc.printed m' = bfc.printed mv_R1_R2_machine /\
    bfc.memory m' =
      upd (cell "R1") 0
        (bump (bfc.data_size mv_R1_R2_machine) (cell "R2") (reg mv_R1_R2_machine "R1")
           (bfc.memory mv_R1_R2_machine)).
Proof.
  apply (mv_moves "R1" "R2" mv_R1_R2_text mv_R1_R2_machine).
  - reflexivity.
  - discriminate.
  - apply ready_machine_at; reflexivity.
  - split; reflexivity.
  - reflexivity.
Defined.

(** [BFGen.set]: wherever the pointer is, the text leaves the value modulo
    the base in the cell under it, and 0 for a negative value. *)
Theorem set_sets (v : Z) (m : bfc.BrainFuckMachine) :
  ready m -> loaded (BFGen.set v) m -> 0 <= bfc.mp m < bfc.memory_size m ->
  exists m', ends m m' /\ bfc.mp m' = bfc.mp m /\ bfc.printed m' = bfc.printed m /\
    bfc.memory m' = upd (bfc.mp m) (Z.max 0 v mod bfc.data_size m) (bfc.memory m).
Proof.
  intros Hr Hl Hmp.
  pose proof (ready_canon m Hr) as Hc. destruct Hr as (HD & HM & Hlen & _).
  apply (run_from _ m _ _ _ _ Hl eq_refl).
  by apply Runs_set.
Qed.

Lemma set_sets_witness :
  exists m', ends set_5_machine m' /\ bfc.mp m' = bfc.mp set_5_machine /\
    bfc.printed m' = bfc.printed set_5_machine /\
    bfc.memory m' =
      upd (bfc.mp set_5_machine) (Z.max 0 5 mod bfc.data_size set_5_machine)
        (bfc.memory set_5_machine).
Proof.
  apply (set_sets 5 set_5_machine).
  - apply ready_machine_at; reflexivity.
  - split; reflexivity.
  - vm_compute. split; [discriminate | reflexivity].
Defined.

(** [BFGen.set_pc]: run on FJR, the text leaves the instruction number
    modulo the base in PC and comes back to FJR. *)
Theorem set_pc_sets (k : Z) (body : string) (m : bfc.BrainFuckMachine) :
  BFGen.set_pc k = Ok body -> 0 <= k ->
  ready m -> loaded body m -> bfc.mp m = cell "FJR" ->
  exists m', ends m m' /\ bfc.mp m' = cell "FJR" /\ bfc.printed m' = bfc.printed m /\
    bfc.memory m' = upd (cell "PC") (k mod bfc.data_size m) (bfc.memory m).
Proof.
  intros Hb Hk Hr Hl Hmp.
  pose proof (ready_canon m Hr) as Hc. destruct Hr as (HD & HM & Hlen & _).
  rewrite set_pc_Ok in Hb. injection Hb as <-.
  apply (run_from _ m _ _ _ _ Hl Hmp).
  eapply Runs_to; [by apply Runs_set_pc_text | | done..].
  by rewrite Z.max_r by lia.
Qed.

Lemma set_pc_sets_witness :
  exists m', ends set_pc_3_machine m' /\ bfc.mp m' = cell "FJR" /\
    bfc.printed m' = bfc.printed set_pc_3_machine /\
    bfc.memory m' =
      upd (cell "PC") (3 mod bfc.data_size set_pc_3_machine) (bfc.memory set_pc_3_machine).
Proof.
  apply (set_pc_sets 3 set_pc_3_text set_pc_3_machine).
  - reflexivity.
  - lia.
  - apply ready_machine_at; reflexivity.
  - split; reflexivity.
  - reflexivity.
Defined.

(** * The dispatcher on the machine *)

(** [BFGen.fjump_wrap] with a forward jump pending: entered on FJR with IC
    and TR1 empty, the text around a well-bracketed instruction leaves the
    instruction out, takes one off FJR and comes back to FJR; no other cell
    changes and nothing is printed. *)
Theorem fjump_wrap_skips (inst : string) (m : bfc.BrainFuckMachine) :
  depth inst 0 = Some 0%nat ->
  ready m -> 1 < bfc.data_size m -> loaded (BFGen.fjump_wrap inst) m ->
  bfc.mp m = cell "FJR" -> reg m "FJR" <> 0 -> reg m "IC" = 0 -> reg m "TR1" = 0 ->
  exists m', ends m m' /\ bfc.mp m' = cell "FJR" /\ bfc.printed m' = bfc.printed m /\
    bfc.memory m' = upd (cell "FJR") (reg m "FJR" - 1) (bfc.memory m).
Proof.
  intros Hd Hr HD Hl Hmp H1 H2 H3.
  pose proof (ready_canon m Hr) as Hc. destruct Hr as (_ & HM & Hlen & _).
  apply (run_from _ m _ _ _ _ Hl Hmp).
  apply Runs_fjump_skip; try done; try lia. by apply Bal_depth.
Qed.

Lemma fjump_wrap_skips_witness :
  exists m', ends skip_machine m' /\ bfc.mp m' = cell "FJR" /\
    bfc.printed m' = bfc.printed skip_machine /\
    bfc.memory m' = upd (cell "FJR") (reg skip_machine "FJR" - 1) (bfc.memory skip_machine).
Proof.
  apply (fjump_wrap_skips out_R1_text skip_machine).
  - reflexivity.
  - apply ready_machine_at; reflexivity.
  - simpl; lia.
  - split; reflexivity.
  - reflexivity.
  - discriminate.
  - reflexivity.
  - reflexivity.
Defined.

(** [BFGen.fjump_wrap] with no forward jump pending: entered on FJR with
    FJR, IC and TR1 empty, around an instruction that runs from IC back to IC
    and leaves IC and TR1 empty, the text runs the instruction once; a
    forward jump the instruction has set then loses one, and the pointer is
    back on FJR. *)
Theorem fjump_wrap_runs (inst : string) (m : bfc.BrainFuckMachine) (c2 o2 : list Z) :
  ready m -> 1 < bfc.data_size m -> loaded (BFGen.fjump_wrap inst) m ->
  bfc.mp m = cell "FJR" -> reg m "FJR" = 0 -> reg m "IC" = 0 -> reg m "TR1" = 0 ->
  Runs (bfc.data_size m) (bfc.memory_size m) inst
    (mkTape (bfc.memory m) (cell "IC") (bfc.printed m)) (mkTape c2 (cell "IC") o2) ->
  len c2 = bfc.memory_size m -> canon (bfc.data_size m) c2 ->
  rd c2 (cell "IC") = 0 -> rd c2 (cell "TR1") = 0 ->
  exists m', ends m m' /\ bfc.mp m' = cell "FJR" /\ bfc.printed m' = o2 /\
    bfc.memory m' =
      upd (cell "FJR") (if rd c2 (cell "FJR") =? 0 then 0 else rd c2 (cell "FJR") - 1) c2.
Proof.
  intros Hr HD Hl Hmp H1 H2 H3 Hinst Hl2 Hc2 H22 H23.
  pose proof (ready_canon m Hr) as Hc. destruct Hr as (_ & HM & Hlen & _).
  apply (run_from _ m _ _ _ _ Hl Hmp).
  apply Runs_fjump_exec; try done; lia.
Qed.

Lemma fjump_wrap_runs_witness :
  exists m', ends exec_machine m' /\ bfc.mp m' = cell "FJR" /\ bfc.printed m' = [5] /\
    bfc.memory m' =
      upd (cell "FJR")
        (if rd (mem_with [("R1", 5)]) (cell "FJR") =? 0 then 0
         else rd (mem_with [("R1", 5)]) (cell "FJR") - 1)
        (mem_with [("R1", 5)]).
Proof.
  apply (fjump_wrap_runs out_R1_text exec_machine (mem_with [("R1", 5)]) [5]).
  - apply ready_machine_at; reflexivity.
  - simpl; lia.
  - split; reflexivity.
  - reflexivity.
  - reflexivity.
  - reflexivity.
  - reflexivity.
  - exact (Runs_out_text 256 15 10 (mem_with [("R1", 5)]) []
             ltac:(lia) eq_refl).
  - reflexivity.
  - apply canon_forallb. reflexivity.
  - reflexivity.
  - reflexivity.
Defined.

(** [BFGen.cond] with CRR empty: entered on IC with IC and TR1 empty, the
    text around a well-bracketed instruction leaves the instruction out and
    changes nothing. *)
Theorem cond_skips (inst body : string) (m : bfc.BrainFuckMachine) :
  BFGen.cond inst = Ok body -> depth inst 0 = Some 0%nat ->
  ready m -> loaded body m -> bfc.mp m = cell "IC" ->
  reg m "CRR" = 0 -> reg m "IC" = 0 -> reg m "TR1" = 0 ->
  exists m', ends m m' /\ bfc.mp m' = cell "IC" /\ bfc.printed m' = bfc.printed m /\
    bfc.memory m' = bfc.memory m.
Proof.
  intros Hb Hd Hr Hl Hmp H8 H2 H3.
  pose proof (ready_canon m Hr) as Hc. destruct Hr as (HD & HM & Hlen & _).
  rewrite cond_gate_Ok in Hb. injection Hb as <-.
  apply (run_from _ m _ _ _ _ Hl Hmp).
  apply (Runs_cond_skip (bfc.data_size m) (bfc.memory_size m)); try done.
  by apply Bal_depth.
Qed.

Lemma cond_skips_witness :
  exists m', ends cond_off_machine m' /\ bfc.mp m' = cell "IC" /\
    bfc.printed m' = bfc.printed cond_off_machine /\
    bfc.memory m' = bfc.memory cond_off_machine.
Proof.
  apply (cond_skips out_R1_text cond_out_R1_text cond_off_machine).
  - reflexivity.
  - reflexivity.
  - apply ready_machine_at; reflexivity.
  - split; reflexivity.
  - reflexivity.
  - reflexivity.
  - reflexivity.
  - reflexivity.
Defined.

(** [BFGen.cond] with 1 in CRR: entered on IC with IC and TR1 empty, around
    an instruction that runs from IC back to IC and leaves IC empty, the
    text does what the instruction alone does. *)
Theorem cond_runs_once (inst body : string) (m : bfc.BrainFuckMachine) (c2 o2 : list Z) :
  BFGen.cond inst = Ok body ->
  ready m -> loaded body m -> bfc.mp m = cell "IC" ->
  reg m "CRR" = 1 -> reg m "IC" = 0 -> reg m "TR1" = 0 ->
  Runs (bfc.data_size m) (bfc.memory_size m) inst
    (mkTape (bfc.memory m) (cell "IC") (bfc.printed m)) (mkTape c2 (cell "IC") o2) ->
  len c2 = bfc.memory_size m -> rd c2 (cell "IC") = 0 ->
  exists m', ends m m' /\ bfc.mp m' = cell "IC" /\ bfc.printed m' = o2 /\
    bfc.memory m' = c2.
Proof.
  intros Hb Hr Hl Hmp H8 H2 H3 Hinst Hl2 H22.
  pose proof (ready_canon m Hr) as Hc. destruct Hr as (HD & HM & Hlen & _).
  rewrite cond_gate_Ok in Hb. injection Hb as <-.
  apply (run_from _ m _ _ _ _ Hl Hmp).
  by apply (Runs_cond_once (bfc.data_size m) (bfc.memory_size m)).
Qed.

Lemma cond_runs_once_witness :
  exists m', ends cond_on_machine m' /\ bfc.mp m' = cell "IC" /\ bfc.printed m' = [5] /\
    bfc.memory m' = mem_with [("CRR", 1); ("R1", 5)].
Proof.
  apply (cond_runs_once out_R1_text cond_out_R1_text cond_on_machine
           (mem_with [("CRR", 1); ("R1", 5)]) [5]).
  - reflexivity.
  - apply ready_machine_at; reflexivity.
  - split; reflexivity.
  - reflexivity.
  - reflexivity.
  - reflexivity.
  - reflexivity.
  - exact (Runs_out_text 256 15 10 (mem_with [("CRR", 1); ("R1", 5)]) []
             ltac:(lia) eq_refl).
  - reflexivity.
  - reflexivity.
Defined.

(** * Whole programs on the machine *)

(** A program shorter than the base: started on BJR with BJR, IC and TR1
    empty, the text of [assemble] runs the blocks of its instructions in
    order, each one as [Block] describes (set PC, then run the body or, under
    a pending forward jump, skip it), as long as no block leaves a backward
    jump pending; it ends on FJR. *)
Theorem program_runs_blocks (instrs : list Instruction) (labels : gmap string Label)
    (bodies : list string) (out : string) (m : bfc.BrainFuckMachine) (c' o' : list Z) :
  bodies_of 0 instrs labels = Ok bodies -> assemble instrs labels = Ok out ->
  ready m -> 1 < bfc.data_size m -> len instrs < bfc.data_size m ->
  loaded out m -> bfc.mp m = cell "BJR" ->
  reg m "BJR" = 0 -> reg m "IC" = 0 -> reg m "TR1" = 0 ->
  Blocks (bfc.data_size m) (bfc.memory_size m) 0 bodies (bfc.memory m) (bfc.printed m) c' o' ->
  exists m', ends m m' /\ bfc.mp m' = cell "FJR" /\ bfc.printed m' = o' /\
    bfc.memory m' = c'.
Proof.
  intros Hbs Hasm Hr HD Hn Hl Hmp H0 H2 H3 HB.
  pose proof (ready_canon m Hr) as Hc. destruct Hr as (_ & HM & Hlen & _).
  destruct (assemble_nest _ _ _ Hbs) as [E Hlb].
  assert (Eo : out = BFGen.inc (len instrs) +:+ nl +:+ nest (nl +:+ ">" +:+ nl) 0 bodies)
    by congruence.
  rewrite Eo in Hl. clear Eo E Hasm.
  apply (run_from _ m _ _ _ _ Hl Hmp). rewrite <- Hlb.
  destruct (Runs_program (bfc.data_size m) (bfc.memory_size m) ltac:(lia) HM
              [] bodies (bfc.memory m) (bfc.printed m) c' o') as [HR _]; try done.
  - simpl. rewrite Hlb. apply Z.mod_small. unfold len in *. lia.
Qed.

Lemma program_runs_blocks_witness :
  exists m', ends mov_out_machine m' /\ bfc.mp m' = cell "FJR" /\ bfc.printed m' = [5] /\
    bfc.memory m' = mem_with [("PC", 1); ("R1", 5)].
Proof.
  apply (program_runs_blocks mov_out ∅ mov_out_bodies mov_out_text mov_out_machine
           (mem_with [("PC", 1); ("R1", 5)]) [5]).
  - vm_compute; reflexivity.
  - vm_compute; reflexivity.
  - apply ready_machine_at; reflexivity.
  - reflexivity.
  - reflexivity.
  - split; vm_compute; reflexivity.
  - reflexivity.
  - reflexivity.
  - reflexivity.
  - reflexivity.
  - apply (Blocks_cons 256 15 0 (mov_text 10 5) [out_text 10]
             (mem_with []) [] (mem_with [("R1", 5)]) []
             (mem_with [("PC", 1); ("R1", 5)]) [5]).
    + apply (Block_exec 256 15 0 (mov_text 10 5) (mem_with []) []
               (mem_with [("R1", 5)]) []).
      * reflexivity.
      * apply (Runs_mov_text 256 15); [lia | lia | reflexivity | apply canon_forallb; reflexivity].
      * split; [reflexivity | split; [apply canon_forallb; reflexivity | repeat split]].
    + apply (Blocks_cons 256 15 1 (out_text 10) []
               (mem_with [("R1", 5)]) [] (mem_with [("PC", 1); ("R1", 5)]) [5]
               (mem_with [("PC", 1); ("R1", 5)]) [5]).
      * apply (Block_exec 256 15 1 (out_text 10) (mem_with [("R1", 5)]) []
                 (mem_with [("PC", 1); ("R1", 5)]) [5]).
        -- reflexivity.
        -- apply (Runs_out_text 256 15 10 (mem_with [("PC", 1); ("R1", 5)]) []); [lia | reflexivity].
        -- split; [reflexivity | split; [apply canon_forallb; reflexivity | repeat split]].
      * apply Blocks_nil.
Defined.

(** A program whose length is a multiple of the base: the prologue's
    increments wrap BJR around to 0, so the text of [assemble], started on
    an empty BJR, passes over every instruction: it ends on FJR with no cell
    changed and nothing printed. *)
Theorem program_of_base_length_is_skipped (instrs : list Instruction)
    (labels : gmap string Label) (out : string) (m : bfc.BrainFuckMachine) :
  assemble instrs labels = Ok out ->
  len instrs mod bfc.data_size m = 0 ->
  ready m -> loaded out m -> bfc.mp m = cell "BJR" -> reg m "BJR" = 0 ->
  exists m', ends m m' /\ bfc.mp m' = cell "FJR" /\ bfc.printed m' = bfc.printed m /\
    bfc.memory m' = bfc.memory m.
Proof.
  intros Hasm Hmod Hr Hl Hmp H0.
  pose proof (ready_canon m Hr) as Hc. destruct Hr as (HD & HM & Hlen & _).
  destruct (assemble_bodies_inv _ _ _ Hasm) as (bodies & Hbs).
  destruct (assemble_nest _ _ _ Hbs) as [E Hlb].
  assert (Eo : out = BFGen.inc (len instrs) +:+ nl +:+ nest (nl +:+ ">" +:+ nl) 0 bodies)
    by congruence.
  rewrite Eo in Hl. clear Eo E Hasm.
  apply (run_from _ m _ _ _ _ Hl Hmp).
  unfold reg in H0. change (cell "BJR") with 0 in *. change (cell "FJR") with 1.
  unfold BFGen.inc.
  eapply Runs_app.
  { apply Runs_incs; try done; [unfold len; lia | lia | lia | lia]. }
  eapply Runs_app; [apply Runs_nl|].
  replace (bump (bfc.data_size m) 0 (len instrs) (bfc.memory m)) with (bfc.memory m).
  - apply Runs_nest_skipped; try done. by eapply bodies_of_Neutral.
  - unfold bump. rewrite H0, Z.add_0_l, Hmod. rewrite <- H0 at 2.
    symmetry. apply upd_rd. lia.
Qed.

Lemma program_of_base_length_is_skipped_witness :
  exists m', ends mov_out_small_machine m' /\ bfc.mp m' = cell "FJR" /\
    bfc.printed m' = bfc.printed mov_out_small_machine /\
    bfc.memory m' = bfc.memory mov_out_small_machine.
Proof.
  apply (program_of_base_length_is_skipped mov_out ∅ mov_out_text mov_out_small_machine).
  - vm_compute; reflexivity.
  - reflexivity.
  - apply ready_machine_at; reflexivity.
  - split; vm_compute; reflexivity.
  - reflexivity.
  - reflexivity.
Defined.

(** * The compiler of the tape machine *)

Lemma frames_length P s stk ls : frames P s stk ls -> length ls = length stk.
Proof. induction 1; simpl; congruence. Qed.

Lemma tracks_init : tracks ([bfc.new ISet.NOP 0 0], []) ([], []).
Proof.
  exists 1. split; [|constructor].
  apply frames_top with 0. split; [done|]. by eexists.
Qed.

Lemma compile_char_close_empty pos P :
  bfc.compile_char pos "]" (P, []) = Raise IndexError.
Proof. reflexivity. Qed.

Lemma compile_loop_depth s : forall pos st rs n,
  tracks st rs -> length (snd rs) = n ->
  match depth s n with
  | Some _ => exists st', bfc.compile_loop pos s st = Ok st'
  | None => bfc.compile_loop pos s st = Raise IndexError
  end.
Proof.
  induction s as [|b s IH]; intros pos st rs n Ht Hn; [simpl; eauto|].
  cbn [depth bfc.compile_loop].
  destruct rs as [cur stk]. simpl in Hn.
  pose proof (read_char_depth b cur stk) as Hc.
  destruct (Ascii.eqb b "[") eqn:E1.
  { destruct (compile_char_tracks pos b _ _ _ Ht Hc) as (st1 & -> & Ht1).
    cbn [bind]. apply (IH _ _ _ _ Ht1). simpl. by rewrite Hn. }
  destruct (Ascii.eqb b "]") eqn:E2.
  { destruct stk as [|p stk']; simpl in Hn; subst n.
    - apply Ascii.eqb_eq in E2 as ->. destruct st as [P ls].
      destruct Ht as (start & Hf & _). simpl in Hf.
      apply frames_length in Hf. destruct ls; [|done].
      by rewrite compile_char_close_empty.
    - destruct (compile_char_tracks pos b _ _ _ Ht Hc) as (st1 & -> & Ht1).
      cbn [bind]. by apply (IH _ _ _ _ Ht1). }
  destruct Hc as [cur' Hc].
  destruct (compile_char_tracks pos b _ _ _ Ht Hc) as (st1 & -> & Ht1).
  cbn [bind]. by apply (IH _ _ _ _ Ht1).
Qed.

(** [compile] fails on exactly the texts in which some closing bracket has
    no opening bracket before it, and then with the IndexError of the pop
    from the empty loop stack; an opening bracket left open is accepted. *)
Theorem compile_fails_on_unmatched_close (s : string) :
  match bfc.compile s with
  | Ok _ => depth s 0 <> None
  | Raise e => e = IndexError /\ depth s 0 = None
  end.
Proof.
  unfold bfc.compile.
  pose proof (compile_loop_depth s 0 _ _ 0%nat tracks_init eq_refl) as H.
  destruct (depth s 0) as [k|].
  - destruct H as [st' ->]. done.
  - by rewrite H.
Qed.

Lemma len_app1 {A} (P : list A) x : len (P ++ [x]) - 1 = len P.
Proof. rewrite len_snoc. lia. Qed.

Lemma bump_last op k pos P ins :
  bfc.i ins = op ->
  bfc.bump op k pos (P ++ [ins]) = Ok (P ++ [bfc.add_data ins k]).
Proof.
  intros Hop. unfold bfc.bump.
  assert (Hl : 1 <= len (P ++ [ins])) by (rewrite len_snoc; unfold len; lia).
  assert (Hi : (P ++ [ins]) !! Z.to_nat (len (P ++ [ins]) - 1) = Some ins).
  { rewrite len_app1. unfold len. rewrite Nat2Z.id. by rewrite list_lookup_middle. }
  rewrite (py_index_last _ _ Hl Hi). cbn [bind]. rewrite Hop.
  replace (ISet.eqb op op) with true by (by destruct op).
  rewrite (py_setitem_last _ _ Hl), len_app1. unfold len. rewrite Nat2Z.id.
  f_equal. by rewrite insert_app_r_alt, Nat.sub_diag by lia.
Qed.

Lemma bump_new op k pos P ins :
  ISet.eqb (bfc.i ins) op = false ->
  bfc.bump op k pos (P ++ [ins]) = Ok ((P ++ [ins]) ++ [bfc.new op pos k]).
Proof.
  intros Hop. unfold bfc.bump.
  assert (Hl : 1 <= len (P ++ [ins])) by (rewrite len_snoc; unfold len; lia).
  assert (Hi : (P ++ [ins]) !! Z.to_nat (len (P ++ [ins]) - 1) = Some ins).
  { rewrite len_app1. unfold len. rewrite Nat2Z.id. by rewrite list_lookup_middle. }
  rewrite (py_index_last _ _ Hl Hi). cbn [bind]. by rewrite Hop.
Qed.

Lemma compile_loop_app s1 : forall s2 pos st,
  bfc.compile_loop pos (s1 +:+ s2) st =
  (do st1 <- bfc.compile_loop pos s1 st;
   bfc.compile_loop (pos + Z.of_nat (String.length s1)) s2 st1).
Proof.
  induction s1 as [|b s1 IH]; intros s2 pos st.
  - simpl. by rewrite Z.add_0_r.
  - cbn [String.append bfc.compile_loop String.length].
    destruct (bfc.compile_char pos b st) as [st1|e]; [|done]. cbn [bind].
    rewrite IH. do 2 f_equal. lia.
Qed.

Lemma add_data_add ins a b :
  bfc.add_data (bfc.add_data ins a) b = bfc.add_data ins (a + b).
Proof. unfold bfc.add_data. simpl. f_equal. lia. Qed.

Lemma add_data_0 ins : bfc.add_data ins 0 = ins.
Proof. destruct ins. unfold bfc.add_data. simpl. f_equal. lia. Qed.

Ltac same_data :=
  match goal with
  | |- Ok (_ ++ [bfc.add_data _ ?x], _) = Ok (_ ++ [bfc.add_data _ ?y], _) =>
      replace y with x by lia; reflexivity
  end.

Lemma compile_loop_adds s : forall pos P ins ls,
  bfc.i ins = ISet.ADD -> all_in "+-" s = true ->
  bfc.compile_loop pos s (P ++ [ins], ls)
  = Ok (P ++ [bfc.add_data ins (count_char "+" s - count_char "-" s)], ls).
Proof.
  induction s as [|b s IH]; intros pos P ins ls Hi Hs.
  - simpl. by rewrite add_data_0.
  - cbn [all_in char_in] in Hs. apply andb_true_iff in Hs as [Hb Hs].
    cbn [bfc.compile_loop count_char]. unfold bfc.compile_char.
    destruct (Ascii.eqb b "+") eqn:E1.
    + rewrite (bump_last _ _ _ _ _ Hi). cbn [bind]. rewrite IH by done.
      apply Ascii.eqb_eq in E1 as ->. simpl (Ascii.eqb "+" "-").
      rewrite add_data_add. same_data.
    + destruct (Ascii.eqb b "-") eqn:E2; [|done].
      rewrite (bump_last _ _ _ _ _ Hi). cbn [bind]. rewrite IH by done.
      rewrite add_data_add. same_data.
Qed.

Lemma compile_loop_moves s : forall pos P ins ls,
  bfc.i ins = ISet.MV -> all_in "<>" s = true ->
  bfc.compile_loop pos s (P ++ [ins], ls)
  = Ok (P ++ [bfc.add_data ins (count_char ">" s - count_char "<" s)], ls).
Proof.
  induction s as [|b s IH]; intros pos P ins ls Hi Hs.
  - simpl. by rewrite add_data_0.
  - cbn [all_in char_in] in Hs. apply andb_true_iff in Hs as [Hb Hs].
    cbn [bfc.compile_loop count_char]. unfold bfc.compile_char.
    destruct (Ascii.eqb b ">") eqn:E1.
    + apply Ascii.eqb_eq in E1 as ->. simpl.
      rewrite (bump_last _ _ _ _ _ Hi). cbn [bind]. rewrite IH by done.
      rewrite add_data_add. same_data.
    + destruct (Ascii.eqb b "<") eqn:E2; [|done].
      apply Ascii.eqb_eq in E2 as ->. simpl.
      rewrite (bump_last _ _ _ _ _ Hi). cbn [bind]. rewrite IH by done.
      rewrite add_data_add. same_data.
Qed.

(** [compile] merges runs: a non-empty run of [+] and [-], in any order,
    becomes one ADD that carries their difference (an ADD 0 when they cancel
    out), a non-empty run of [>] and [<] one MV; each records the position of
    the first character of its run. *)
Theorem compile_merges_runs (s1 s2 : string) :
  s1 <> "" -> all_in "+-" s1 = true -> s2 <> "" -> all_in "<>" s2 = true ->
  bfc.compile (s1 +:+ s2)
  = Ok [ bfc.new ISet.NOP 0 0;
         bfc.new ISet.ADD 0 (count_char "+" s1 - count_char "-" s1);
         bfc.new ISet.MV (Z.of_nat (String.length s1))
           (count_char ">" s2 - count_char "<" s2) ].
Proof.
  intros N1 H1 N2 H2. unfold bfc.compile. rewrite compile_loop_app.
  destruct s1 as [|b1 r1]; [done|]. destruct s2 as [|b2 r2]; [done|].
  cbn [all_in] in H1, H2.
  apply andb_true_iff in H1 as [Hb1 H1]. apply andb_true_iff in H2 as [Hb2 H2].
  assert (E1 : bfc.compile_char 0 b1 ([bfc.new ISet.NOP 0 0], [])
               = Ok ([bfc.new ISet.NOP 0 0] ++
                     [bfc.new ISet.ADD 0 (count_char "+" (String b1 "")
                                          - count_char "-" (String b1 ""))], [])).
  { cbn [char_in] in Hb1. unfold bfc.compile_char.
    destruct (Ascii.eqb b1 "+") eqn:E; [apply Ascii.eqb_eq in E as ->; done|].
    destruct (Ascii.eqb b1 "-") eqn:E'; [apply Ascii.eqb_eq in E' as ->; done|done]. }
  cbn [bfc.compile_loop]. rewrite E1. cbn [bind].
  rewrite compile_loop_adds by done. cbn [bind].
  set (a := bfc.add_data _ _).
  assert (E2 : bfc.compile_char (0 + Z.of_nat (String.length (String b1 r1))) b2
                 ([bfc.new ISet.NOP 0 0] ++ [a], [])
               = Ok (([bfc.new ISet.NOP 0 0] ++ [a]) ++
                     [bfc.new ISet.MV (Z.of_nat (String.length (String b1 r1)))
                        (count_char ">" (String b2 "") - count_char "<" (String b2 ""))], [])).
  { cbn [char_in] in Hb2. unfold bfc.compile_char.
    destruct (Ascii.eqb b2 "<") eqn:E; [apply Ascii.eqb_eq in E as ->; done|].
    destruct (Ascii.eqb b2 ">") eqn:E'; [apply Ascii.eqb_eq in E' as ->; done|done]. }
  rewrite E2. cbn [bind]. rewrite compile_loop_moves by done. cbn [bind fst].
  unfold a, bfc.add_data, bfc.new. cbn [app bfc.i bfc.data bfc.bfp count_char].
  repeat f_equal; lia.
Qed.

Lemma compile_merges_runs_witness :
  bfc.compile ("++-" +:+ ">><")
  = Ok [ bfc.new ISet.NOP 0 0;
         bfc.new ISet.ADD 0 (count_char "+" "++-" - count_char "-" "++-");
         bfc.new ISet.MV (Z.of_nat (String.length "++-"))
           (count_char ">" ">><" - count_char "<" ">><") ].
Proof.
  apply (compile_merges_runs "++-" ">><").
  - discriminate.
  - reflexivity.
  - discriminate.
  - reflexivity.
Defined.


Lemma len_code P : len (code_of P) = len P.
Proof. unfold len, code_of. by rewrite length_map. Qed.

Lemma py_index_code P k :
  py_index (code_of P) k
  = match py_index P k with Ok a => Ok (proj_code a) | Raise e => Raise e end.
Proof.
  unfold py_index. rewrite len_code. unfold code_of.
  destruct (_ && _).
  - rewrite list_lookup_fmap. by destruct (P !! _).
  - destruct (_ && _); [|done]. rewrite list_lookup_fmap. by destruct (P !! _).
Qed.

Lemma py_setitem_code P k a :
  py_setitem (code_of P) k (proj_code a)
  = match py_setitem P k a with Ok Q => Ok (code_of Q) | Raise e => Raise e end.
Proof.
  unfold py_setitem. rewrite len_code. unfold code_of.
  destruct (_ && _); [by rewrite list_fmap_insert|].
  destruct (_ && _); [by rewrite list_fmap_insert|done].
Qed.

Lemma code_snoc P x : code_of (P ++ [x]) = code_of P ++ [proj_code x].
Proof. unfold code_of. by rewrite map_app. Qed.


Lemma py_index_same P Q k :
  code_of P = code_of Q ->
  match py_index P k, py_index Q k with
  | Ok a, Ok b => proj_code a = proj_code b
  | Raise e, Raise e' => e = e'
  | _, _ => False
  end.
Proof.
  intros E. pose proof (py_index_code P k) as HP. pose proof (py_index_code Q k) as HQ.
  rewrite E, HQ in HP. destruct (py_index P k), (py_index Q k); congruence.
Qed.

Lemma py_setitem_same P Q k a b :
  code_of P = code_of Q -> proj_code a = proj_code b ->
  same_code (fun P => (code_of P, [])) (py_setitem P k a) (py_setitem Q k b).
Proof.
  intros E Eab. pose proof (py_setitem_code P k a) as HP.
  pose proof (py_setitem_code Q k b) as HQ.
  rewrite E, Eab, HQ in HP. unfold same_code.
  destruct (py_setitem P k a), (py_setitem Q k b); congruence.
Qed.

Lemma bump_same op k pos pos' P Q :
  code_of P = code_of Q ->
  same_code (fun P => (code_of P, [])) (bfc.bump op k pos P) (bfc.bump op k pos' Q).
Proof.
  intros E. unfold bfc.bump. pose proof (py_index_same P Q (-1) E) as Hi.
  destruct (py_index P (-1)) as [a|e], (py_index Q (-1)) as [b|e']; try done.
  cbn [bind].
  assert (Ei : bfc.i a = bfc.i b) by (by injection Hi).
  rewrite Ei. destruct (ISet.eqb (bfc.i b) op).
  - apply py_setitem_same; [done|]. unfold proj_code, bfc.add_data in *. simpl.
    injection Hi as -> ->. done.
  - simpl. by rewrite !code_snoc, E.
Qed.


Lemma lift_same ls r r' :
  same_code (fun P => (code_of P, [])) r r' ->
  same_code state_code (do p <- r; Ok (p, ls)) (do p <- r'; Ok (p, ls)).
Proof.
  destruct r, r'; simpl; try done. unfold state_code. simpl. congruence.
Qed.

Lemma compile_char_same pos pos' b st st' :
  state_code st = state_code st' ->
  same_code state_code (bfc.compile_char pos b st) (bfc.compile_char pos' b st').
Proof.
  destruct st as [P ls], st' as [Q ls']. unfold state_code. simpl.
  intros [= E <-]. unfold bfc.compile_char.
  repeat (destruct (Ascii.eqb b _);
          [first [ by apply lift_same, bump_same
                 | simpl; unfold state_code; simpl; by rewrite !code_snoc, E ] |]).
  destruct (Ascii.eqb b "[").
  { simpl. unfold state_code. simpl. rewrite !code_snoc, E. do 2 f_equal.
    rewrite <- (len_code (P ++ _)), <- (len_code (Q ++ _)), !code_snoc. by rewrite E. }
  destruct (Ascii.eqb b "]"); [|unfold same_code, state_code; simpl; by rewrite E].
  destruct ls as [|addr ls]; [done|].
  set (P' := P ++ [bfc.new ISet.JMP pos addr]).
  set (Q' := Q ++ [bfc.new ISet.JMP pos' addr]).
  assert (E' : code_of P' = code_of Q') by (unfold P', Q'; by rewrite !code_snoc, E).
  pose proof (py_index_same P' Q' addr E') as Hi.
  destruct (py_index P' addr) as [a|e], (py_index Q' addr) as [c|e']; try done.
  cbn [bind].
  assert (Hl : len P' = len Q') by (by rewrite <- (len_code P'), <- (len_code Q'), E').
  rewrite Hl.
  assert (Eset : proj_code (bfc.set_data a (len Q')) = proj_code (bfc.set_data c (len Q'))).
  { unfold proj_code, bfc.set_data in *. simpl. by injection Hi as ->. }
  pose proof (py_setitem_same P' Q' addr _ _ E' Eset) as Hs.
  destruct (py_setitem P' addr _), (py_setitem Q' addr _); simpl in *; try done.
  unfold state_code. simpl. congruence.
Qed.

Lemma compile_char_other pos b st :
  char_in b "+-><.![]" = false -> bfc.compile_char pos b st = Ok st.
Proof.
  cbn [char_in]. intros H. repeat (apply orb_false_iff in H as [? H]).
  unfold bfc.compile_char. destruct st as [P ls].
  repeat match goal with E : Ascii.eqb b _ = false |- _ => rewrite E; clear E end.
  done.
Qed.

Lemma compile_loop_same s : forall pos pos' st st',
  state_code st = state_code st' ->
  same_code state_code (bfc.compile_loop pos s st) (bfc.compile_loop pos' (ops_of s) st').
Proof.
  induction s as [|b s IH]; intros pos pos' st st' E.
  - done.
  - cbn [ops_of bfc.compile_loop].
    destruct (char_in b "+-><.![]") eqn:Eb.
    + cbn [bfc.compile_loop].
      pose proof (compile_char_same pos pos' b st st' E) as Hc.
      destruct (bfc.compile_char pos b st) as [st1|e],
               (bfc.compile_char pos' b st') as [st1'|e']; try done.
      cbn [bind]. by apply IH.
    + rewrite compile_char_other by done. cbn [bind]. by apply IH.
Qed.

(** [compile] acts on its eight command characters only: the
    program compiled from a text and the program compiled from its eight
    kinds of characters alone are the same up to the recorded positions (so a
    run of [+] is merged across a comment), and one fails when the other
    does. *)
Theorem compile_ignores_other_characters (s : string) :
  match bfc.compile s, bfc.compile (ops_of s) with
  | Ok P, Ok Q => code_of P = code_of Q
  | Raise e, Raise e' => e = e'
  | _, _ => False
  end.
Proof.
  unfold bfc.compile.
  pose proof (compile_loop_same s 0 0 ([bfc.new ISet.NOP 0 0], []) _ eq_refl) as H.
  destruct (bfc.compile_loop 0 s _) as [st|e],
           (bfc.compile_loop 0 (ops_of s) _) as [st'|e']; try done.
  simpl. unfold same_code, state_code in H. congruence.
Qed.

(** * The tape machine *)

Lemma step_END m m' :
  bfc.step m = Ok (Result.END, m') -> bfc.pc m' = len (bfc.program m').
Proof.
  unfold bfc.step. destruct (_ || _); [done|]. intros H.
  apply bind_Ok in H as (ins & _ & H). apply bind_Ok in H as (r & Hr & H).
  destruct r as [res|m1].
  - apply execute_early in Hr as ->. done.
  - destruct (Z.eqb_spec (bfc.pc m1) (len (bfc.program m1))); [|done].
    by injection H as <-.
Qed.

Lemma run_END fuel : forall m m',
  bfc.run fuel m = Some (Ok (Result.END, m')) -> bfc.pc m' = len (bfc.program m').
Proof.
  induction fuel as [|fuel IH]; intros m m' H; [done|]. simpl in H.
  destruct (bfc.step m) as [[r m1]|e] eqn:E; [|done].
  destruct r; [by apply (IH m1) | | done..].
  injection H as <-. by apply step_END in E.
Qed.

(** Stepping a machine that has come to its normal end raises IndexError:
    [step] rejects a program counter beyond the length of the program only,
    and then reads the instruction at the length itself. *)
Theorem step_after_the_end_raises (m m' : bfc.BrainFuckMachine) :
  ends m m' -> bfc.step m' = Raise IndexError.
Proof.
  intros [fuel H]. apply run_END in H. unfold bfc.step.
  assert (Hl : 0 <= len (bfc.program m')) by (unfold len; lia).
  replace ((bfc.pc m' <? 0) || (bfc.pc m' >? len (bfc.program m'))) with false
    by (symmetry; apply orb_false_iff; lia).
  unfold py_index. rewrite H.
  replace ((0 <=? len (bfc.program m')) && (len (bfc.program m') <? len (bfc.program m')))
    with false by (symmetry; apply andb_false_iff; lia).
  replace ((- len (bfc.program m') <=? len (bfc.program m')) && (len (bfc.program m') <? 0))
    with false by (symmetry; apply andb_false_iff; lia).
  done.
Qed.

Lemma step_after_the_end_raises_witness : bfc.step plus_machine_end = Raise IndexError.
Proof.
  apply (step_after_the_end_raises plus_machine plus_machine_end).
  exists 10%nat. vm_compute. reflexivity.
Defined.

(** The pointer is never checked when it moves, and only ADD checks it
    before use: with the pointer left of cell 0, but by no more than the
    number of cells, OUT prints the cell counted from the end of the memory
    and the machine goes on, where an ADD reports SEGFAULT. *)
Theorem out_left_of_the_tape_wraps (m : bfc.BrainFuckMachine) (ins : bfc.Instruction) :
  0 <= bfc.pc m -> bfc.program m !! Z.to_nat (bfc.pc m) = Some ins ->
  bfc.i ins = ISet.OUT -> - len (bfc.memory m) <= bfc.mp m < 0 ->
  bfc.step m
  = Ok (if bfc.pc m + 1 =? len (bfc.program m) then Result.END else Result.OK,
        bfc.pcinc (bfc.print m (rd (bfc.memory m) (len (bfc.memory m) + bfc.mp m))) 1) /\
  forall ins', bfc.i ins' = ISet.ADD -> bfc.execute ins' m = Ok (inl Result.SEGFAULT).
Proof.
  intros Hpc Hins Hi Hmp. split.
  - assert (Hlt : bfc.pc m < len (bfc.program m)).
    { apply lookup_lt_Some in Hins. unfold len. lia. }
    unfold bfc.step.
    replace ((bfc.pc m <? 0) || (bfc.pc m >? len (bfc.program m))) with false
      by (symmetry; apply orb_false_iff; lia).
    rewrite (py_index_ok _ _ _ Hpc Hins). cbn [bind].
    unfold bfc.execute. rewrite Hi.
    unfold py_index.
    replace ((0 <=? bfc.mp m) && (bfc.mp m <? len (bfc.memory m))) with false
      by (symmetry; apply andb_false_iff; lia).
    replace ((- len (bfc.memory m) <=? bfc.mp m) && (bfc.mp m <? 0)) with true
      by (symmetry; apply andb_true_iff; lia).
    assert (Hk : (Z.to_nat (bfc.mp m + len (bfc.memory m)) < length (bfc.memory m))%nat)
      by (unfold len in *; lia).
    apply list_lookup_lookup_total_lt in Hk. rewrite Hk. cbn [bind].
    unfold rd. rewrite (Z.add_comm (len _)). cbn [bfc.pc bfc.pcinc bfc.pcset bfc.program bfc.print].
    by destruct (_ =? _).
  - intros ins' Hi'. unfold bfc.execute. rewrite Hi'.
    by replace (bfc.mp m <? 0) with true by (symmetry; apply Z.ltb_lt; lia).
Qed.

Lemma out_left_of_the_tape_wraps_witness :
  bfc.step left_machine
  = Ok (if bfc.pc left_machine + 1 =? len (bfc.program left_machine)
        then Result.END else Result.OK,
        bfc.pcinc
          (bfc.print left_machine
             (rd (bfc.memory left_machine)
                (len (bfc.memory left_machine) + bfc.mp left_machine))) 1) /\
  forall ins', bfc.i ins' = ISet.ADD -> bfc.execute ins' left_machine = Ok (inl Result.SEGFAULT).
Proof.
  apply (out_left_of_the_tape_wraps left_machine (bfc.new ISet.OUT 1 0)).
  - vm_compute; discriminate.
  - reflexivity.
  - reflexivity.
  - vm_compute. split; [discriminate | reflexivity].
Defined.

Lemma ready_upd m v :
  ready m -> 0 <= bfc.mp m < bfc.memory_size m -> 0 <= v < bfc.data_size m ->
  ready (bfc.pcinc (bfc.set_memory m (upd (bfc.mp m) v (bfc.memory m))) 1).
Proof.
  intros (HD & HM & Hlen & Hall) Hmp Hv. unfold ready. simpl.
  repeat split; try done; [by rewrite len_upd|].
  unfold upd. by apply Forall_insert.
Qed.

Lemma execute_ready ins m m' :
  ready m -> bfc.execute ins m = Ok (inr m') -> ready m' /\ same_setup m m'.
Proof.
  intros Hr. pose proof Hr as (HD & HM & Hlen & Hall).
  unfold bfc.execute. destruct (bfc.i ins).
  - by intros [= <-].
  - destruct (_ || _) eqn:E; [done|]. apply orb_false_iff in E as [E1 E2]. intros H.
    assert (Hmp : 0 <= bfc.mp m < bfc.memory_size m) by lia.
    rewrite py_index_rd in H by lia. cbn [bind] in H.
    rewrite py_setitem_ok in H by lia. cbn [bind] in H.
    fold (upd (bfc.mp m) (rd (bfc.memory m) (bfc.mp m) + bfc.data ins) (bfc.memory m)) in H.
    rewrite py_index_rd in H by (rewrite len_upd; lia).
    rewrite rd_upd_eq in H by lia. cbn [bind] in H. unfold bfc.py_mod in H.
    destruct (bfc.data_size m =? 0) eqn:E; [lia|]. cbn [bind] in H.
    rewrite py_setitem_ok in H by (rewrite len_upd; lia). cbn [bind] in H.
    fold (upd (bfc.mp m) ((rd (bfc.memory m) (bfc.mp m) + bfc.data ins) mod bfc.data_size m)
            (upd (bfc.mp m) (rd (bfc.memory m) (bfc.mp m) + bfc.data ins) (bfc.memory m))) in H.
    rewrite upd_upd_eq in H. injection H as <-.
    split; [|done]. apply ready_upd; [done..|]. apply Z.mod_pos_bound. lia.
  - by intros [= <-].
  - by intros [= <-].
  - intros H. apply bind_Ok in H as (v & _ & H). by destruct (v =? 0); injection H as <-.
  - intros H. apply bind_Ok in H as (v & _ & H). by injection H as <-.
  - by intros [= <-].
Qed.

Lemma step_ready m r m' :
  ready m -> bfc.step m = Ok (r, m') -> ready m' /\ same_setup m m'.
Proof.
  intros Hr. unfold bfc.step. destruct (_ || _); [by intros [= _ <-]|]. intros H.
  apply bind_Ok in H as (ins & _ & H). apply bind_Ok in H as (x & Hx & H).
  destruct x as [res|m1]; [by injection H as _ <-|].
  apply (execute_ready _ _ _ Hr) in Hx.
  by destruct (_ =? _); injection H as _ <-.
Qed.

(** A run keeps the machine well formed: whatever the result reported
    (END, SEGFAULT or BUSFAULT, never OK), the memory keeps its length and
    every cell stays at least 0 and below the base, and the program and the
    two sizes are as they were. *)
Theorem run_keeps_cells_in_range (fuel : nat) (m m' : bfc.BrainFuckMachine) (r : Result.t) :
  ready m -> bfc.run fuel m = Some (Ok (r, m')) ->
  ready m' /\ same_setup m m' /\ r <> Result.OK.
Proof.
  revert m. induction fuel as [|fuel IH]; intros m Hr H; [done|]. simpl in H.
  destruct (bfc.step m) as [[res m1]|e] eqn:E; [|done].
  destruct (step_ready _ _ _ Hr E) as [Hr1 Hs1].
  destruct res.
  - destruct (IH m1 Hr1 H) as (Hr' & Hs' & Hn).
    split; [done|]. split; [by eapply same_setup_trans | done].
  - injection H as <- <-. done.
  - injection H as <- <-. done.
  - injection H as <- <-. done.
Qed.

Lemma run_keeps_cells_in_range_witness :
  ready plus_machine_end /\ same_setup plus_machine plus_machine_end /\
  Result.END <> Result.OK.
Proof.
  apply (run_keeps_cells_in_range 10 plus_machine plus_machine_end Result.END).
  - apply ready_machine_at; reflexivity.
  - vm_compute; reflexivity.
Defined.

(** * The register file *)

(** [address_of] and indexing [Registers] are inverse to each other: a
    name has address [k] exactly when [k] is one of the fifteen offsets and
    the entry of [Registers] at [k] is that name. *)
Theorem address_of_inverts_the_index (r : string) (k : Z) :
  address_of r = Ok k <-> 0 <= k < 15 /\ py_index Registers k = Ok r.
Proof.
  split.
  - intros H. apply address_of_Ok in H as (Hin & Hk & ->). split; [done|].
    simpl in Hin. repeat (destruct Hin as [<-|Hin]; [reflexivity|]). done.
  - intros [Hk H].
    assert (Hn : exists n, k = Z.of_nat n /\ (n < 15)%nat) by (exists (Z.to_nat k); lia).
    destruct Hn as (n & -> & Hn).
    do 15 (destruct n as [|n]; [by injection H as <-|]). lia.
Qed.

(** The user registers are the registers in the high range: [check_ureg]
    accepts a name exactly when it has an address and that address is at
    least 8, the number of internal registers. *)
Theorem user_registers_are_the_high_range (r : string) :
  check_ureg r = Ok tt <-> exists k, address_of r = Ok k /\ 8 <= k.
Proof.
  split.
  - intros H. apply check_ureg_Ok in H as [H Hr]. exists (cell r). split; [done | lia].
  - intros (k & H & Hk). apply address_of_Ok in H as (Hin & _ & ->).
    simpl in Hin. repeat (destruct Hin as [<-|Hin]; [first [reflexivity | by simpl in Hk]|]).
    done.
Qed.

(** * The parser *)

Lemma parser_loop_app a : forall b l,
  bfas.parser_loop (a ++ b) l = (do l1 <- bfas.parser_loop a l; bfas.parser_loop b l1).
Proof.
  induction a as [|t a IH]; intros b l; [done|]. cbn [app bfas.parser_loop].
  destruct (bfas.parser_step t l); [apply IH | done].
Qed.

Lemma parser_unfold tokens :
  bfas.parser tokens
  = (do l <- bfas.parser_loop tokens parser_init; Ok (bfas.instructions l, bfas.labels l)).
Proof. reflexivity. Qed.

Lemma parser_loop_inv (I : bfas.locals -> Prop) :
  (forall t l l', I l -> bfas.parser_step t l = Ok l' -> I l') ->
  forall tokens l l', I l -> bfas.parser_loop tokens l = Ok l' -> I l'.
Proof.
  intros Hstep. induction tokens as [|t tokens IH]; intros l l' Hl H; simpl in H.
  - by injection H as <-.
  - apply bind_Ok in H as (l1 & H1 & H). eauto.
Qed.

(** Taking one step of the parser apart. *)
Ltac step_cases H :=
  unfold bfas.parser_step, bfas.unexpected, bfas.is_ in H;
  repeat match type of H with
  | context [match token_type ?t with _ => _ end] => destruct (token_type t) eqn:?
  | context [match bfas.state ?l with _ => _ end] => destruct (bfas.state l) eqn:?
  end;
  try discriminate H; injection H as <-.

(** The parser drops comments: a token list and the same list without its
    COMMENT tokens give the same instructions and labels, or the same
    error. *)
Theorem parser_ignores_comments (tokens : list Token) :
  bfas.parser tokens = bfas.parser (List.filter (fun t => negb (is_comment t)) tokens).
Proof.
  rewrite !parser_unfold. f_equal. generalize parser_init as l.
  induction tokens as [|t tokens IH]; intros l; [done|]. cbn [List.filter].
  unfold is_comment at 1. cbn [bfas.parser_loop].
  destruct (token_type t) eqn:E; cbn [negb bfas.parser_loop];
    try (destruct (bfas.parser_step t l); [apply IH | done]).
  unfold bfas.parser_step. rewrite E. cbn [bind]. apply IH.
Qed.

(** Every label the parser returns is stored under its own name and
    points at an instruction of the result or just past the last one. *)
Theorem parser_labels_in_range (tokens : list Token) (instrs : list Instruction)
    (labels : gmap string Label) (k : string) (lbl : Label) :
  bfas.parser tokens = Ok (instrs, labels) -> labels !! k = Some lbl ->
  label_name lbl = k /\ 0 <= ip lbl <= len instrs.
Proof.
  rewrite parser_unfold. intros H Hk. apply bind_Ok in H as (l & Hl & H).
  injection H as <- <-.
  set (I := fun l : bfas.locals =>
              bfas.ic l = len (bfas.instructions l) /\
              forall k lbl, bfas.labels l !! k = Some lbl ->
                label_name lbl = k /\ 0 <= ip lbl <= bfas.ic l).
  assert (HI : I l).
  { apply (parser_loop_inv I) with tokens parser_init; [|done|done].
    clear. intros t l l' [Hic Hlab] H.
    assert (Hc : I (bfas.complete_instruction l)).
    { split; simpl; [rewrite len_snoc; lia|].
      intros k lbl Hk. destruct (Hlab k lbl Hk). split; [done | lia]. }
    assert (H0 : 0 <= bfas.ic l) by (rewrite Hic; unfold len; lia).
    step_cases H; try done; try (split; [done|]; simpl; done).
    split; [done|]. simpl. intros k lbl Hk.
    destruct (decide (value t = k)) as [<-|Hne].
    - rewrite lookup_insert_eq in Hk. injection Hk as <-. simpl. split; [done | lia].
    - rewrite lookup_insert_ne in Hk by done. by apply Hlab. }
  destruct HI as [Hic Hlab]. rewrite <- Hic. by apply Hlab.
Qed.

Lemma parser_labels_in_range_witness :
  label_name (mkLabel "L" 0) = "L" /\ 0 <= ip (mkLabel "L" 0) <= len ([] : list Instruction).
Proof.
  apply (parser_labels_in_range label_line [] (<["L" := mkLabel "L" 0]> ∅) "L" (mkLabel "L" 0)).
  - vm_compute; reflexivity.
  - vm_compute; reflexivity.
Defined.

Lemma last_or_init_snoc (l : list Instruction) x :
  match last (l ++ [x]) with Some i => i | None => mkInstruction "" [] end = x.
Proof. by rewrite last_snoc. Qed.

(** An instruction written without operands is left with the operands of
    the instruction completed before it (and with none when it is the
    first): the current instruction is renamed by the first word of a line,
    and its operands are replaced only when an operand follows. *)
Theorem operandless_instruction_inherits_operands (ts : list Token) (nl1 w nl2 : Token)
    (instrs : list Instruction) (labels : gmap string Label) :
  token_type nl1 = TokenType.NEWLINE -> token_type w = TokenType.WORD ->
  token_type nl2 = TokenType.NEWLINE ->
  bfas.parser (ts ++ [nl1]) = Ok (instrs, labels) ->
  bfas.parser (ts ++ [nl1; w; nl2])
  = Ok (instrs ++ [mkInstruction (value w) (inherited instrs)], labels).
Proof.
  intros E1 Ew E2. rewrite !parser_unfold.
  change [nl1; w; nl2] with ([nl1] ++ [w; nl2]). rewrite app_assoc.
  rewrite (parser_loop_app (ts ++ [nl1])). intros H.
  apply bind_Ok in H as (l & Hl & H). injection H as <- <-. rewrite Hl. cbn [bind].
  set (I := fun l : bfas.locals =>
              bfas.state l = ParserState.STATEMENT ->
              bfas.curr_inst l =
                match last (bfas.instructions l) with
                | Some i => i | None => mkInstruction "" [] end).
  assert (HI : I l).
  { apply (parser_loop_inv I) with (ts ++ [nl1]) parser_init; [|done|done].
    clear. intros t l l' Hl H.
    step_cases H; intros Hs; simpl in *; try done; try (by apply Hl);
      by rewrite last_snoc. }
  assert (Hst : bfas.state l = ParserState.STATEMENT).
  { rewrite parser_loop_app in Hl. apply bind_Ok in Hl as (l0 & _ & Hl).
    simpl in Hl. apply bind_Ok in Hl as (l1 & Hl & H). injection H as <-.
    step_cases Hl; try done; congruence. }
  specialize (HI Hst). cbn [bfas.parser_loop].
  unfold bfas.parser_step at 1. rewrite Ew, Hst. cbn [bind].
  unfold bfas.parser_step. cbn [token_type bfas.state bfas.set_state]. rewrite E2.
  cbn [bind bfas.parser_loop bfas.instructions bfas.labels bfas.set_state
       bfas.complete_instruction bfas.set_curr_inst bfas.curr_inst].
  rewrite HI. unfold inherited. by destruct (last (bfas.instructions l)).
Qed.

Lemma operandless_instruction_inherits_operands_witness :
  bfas.parser (out_line ++ [tok "" TokenType.NEWLINE; tok "HLT" TokenType.WORD;
                            tok "" TokenType.NEWLINE])
  = Ok ([out_R1] ++ [mkInstruction (value (tok "HLT" TokenType.WORD)) (inherited [out_R1])], ∅).
Proof.
  apply (operandless_instruction_inherits_operands out_line (tok "" TokenType.NEWLINE)
           (tok "HLT" TokenType.WORD) (tok "" TokenType.NEWLINE) [out_R1] ∅).
  - reflexivity.
  - reflexivity.
  - reflexivity.
  - vm_compute; reflexivity.
Defined.

Lemma step_keeps_instructions t l l' :
  token_type t <> TokenType.NEWLINE -> bfas.parser_step t l = Ok l' ->
  bfas.instructions l' = bfas.instructions l.
Proof. intros Hn H. step_cases H; done. Qed.

(** Only a NEWLINE token completes an instruction: the tokens that follow
    the last NEWLINE add none, so a last line that is not terminated is
    dropped. *)
Theorem tokens_after_the_last_newline_add_no_instruction (ts rest : list Token)
    (instrs : list Instruction) (labels : gmap string Label) :
  forallb (fun t => negb (is_newline t)) rest = true ->
  bfas.parser (ts ++ rest) = Ok (instrs, labels) ->
  exists labels0, bfas.parser ts = Ok (instrs, labels0).
Proof.
  intros Hrest. rewrite !parser_unfold, parser_loop_app. intros H.
  apply bind_Ok in H as (l2 & H & E). apply bind_Ok in H as (l1 & -> & H).
  injection E as <- <-. cbn [bind]. exists (bfas.labels l1). do 2 f_equal.
  revert l1 H. induction rest as [|t rest IH]; intros l1 H; simpl in *.
  - by injection H as <-.
  - apply andb_true_iff in Hrest as [Ht Hrest].
    apply bind_Ok in H as (l & Hl & H). rewrite <- (IH Hrest _ H).
    symmetry. apply (step_keeps_instructions t); [|done].
    unfold is_newline in Ht. by destruct (token_type t).
Qed.

Lemma tokens_after_the_last_newline_add_no_instruction_witness :
  exists labels0, bfas.parser (out_line ++ [tok "" TokenType.NEWLINE]) = Ok ([out_R1], labels0).
Proof.
  apply (tokens_after_the_last_newline_add_no_instruction
           (out_line ++ [tok "" TokenType.NEWLINE]) [tok "HLT" TokenType.WORD] [out_R1] ∅).
  - reflexivity.
  - vm_compute; reflexivity.
Defined.

(** The first operand of every instruction the parser returns is a
    reference (a register or a label by name): a constant or an address is
    accepted from the second operand on only. *)
Theorem first_operand_is_a_reference (tokens : list Token) (instrs : list Instruction)
    (labels : gmap string Label) (i : Instruction) :
  bfas.parser tokens = Ok (instrs, labels) -> In i instrs ->
  head_is_reference (operands i).
Proof.
  rewrite parser_unfold. intros H Hin. apply bind_Ok in H as (l & Hl & H).
  injection H as <- <-.
  set (I := fun l : bfas.locals =>
              Forall (fun i => head_is_reference (operands i)) (bfas.instructions l) /\
              head_is_reference (operands (bfas.curr_inst l)) /\
              (bfas.state l = ParserState.OPERAND_CONT \/
               bfas.state l = ParserState.OPERAND_2 ->
               operands (bfas.curr_inst l) <> [])).
  assert (HI : I l).
  { apply (parser_loop_inv I) with tokens parser_init;
      [| split; [constructor | split; [done | intros [?|?]; done]] | done].
    clear. intros t l l' (Hall & Hc & Hne) H.
    assert (Hsn : Forall (fun i => head_is_reference (operands i))
                    (bfas.instructions l ++ [bfas.curr_inst l])).
    { apply Forall_app. split; [done | by constructor]. }
    step_cases H; unfold I; simpl; (split; [|split]); try done;
      try (intros [?|?]; congruence); try (intros _; by apply Hne; auto).
    all: try (intros _; by destruct (operands (bfas.curr_inst l))).
    all: destruct (operands (bfas.curr_inst l)) eqn:E;
           [exfalso; apply Hne; auto | done]. }
  destruct HI as (Hall & _).
  by apply (proj1 (List.Forall_forall _ _) Hall).
Qed.

Lemma first_operand_is_a_reference_witness : head_is_reference (operands out_R1).
Proof.
  apply (first_operand_is_a_reference (out_line ++ [tok "" TokenType.NEWLINE]) [out_R1] ∅ out_R1).
  - vm_compute; reflexivity.
  - simpl; tauto.
Defined.

(** * The assembler and the compiler together *)

(** Whatever [assemble] returns, [compile] accepts: the text of a program
    is well bracketed, so the loop stack is never popped empty. *)
Theorem assembled_text_compiles (instrs : list Instruction) (labels : gmap string Label)
    (out : string) :
  assemble instrs labels = Ok out ->
  depth out 0 = Some 0%nat /\ exists P, bfc.compile out = Ok P.
Proof.
  intros H. destruct (assemble_bodies_inv _ _ _ H) as (bodies & Hbs).
  destruct (assemble_nest _ _ _ Hbs) as [E _].
  assert (Eo : out = BFGen.inc (len instrs) +:+ nl +:+ nest (nl +:+ ">" +:+ nl) 0 bodies)
    by congruence.
  assert (Hn : Neutral out).
  { rewrite Eo. apply Neutral_app; [apply Neutral_inc|].
    apply Neutral_app; [by intros k|].
    apply Neutral_nest; [by intros k | by eapply bodies_of_Neutral]. }
  split; [apply Hn|].
  pose proof (compile_loop_depth out 0 _ _ 0%nat tracks_init eq_refl) as Hc.
  rewrite (Hn 0%nat) in Hc. destruct Hc as [st' Hc].
  unfold bfc.compile. rewrite Hc. by eexists.
Qed.

Lemma assembled_text_compiles_witness :
  depth mov_out_text 0 = Some 0%nat /\ exists P, bfc.compile mov_out_text = Ok P.
Proof.
  apply (assembled_text_compiles mov_out ∅ mov_out_text).
  vm_compute; reflexivity.
Defined.

Lemma holds_lookup P k op d ins :
  holds P k op d -> P !! Z.to_nat k = Some ins -> bfc.i ins = op /\ bfc.data ins = d.
Proof. intros (_ & ins' & H & Hi & Hd) H'. by replace ins with ins' by congruence. Qed.

Lemma placed_jumps P b c e :
  placed P b c e ->
  forall k ins, b <= k < e -> P !! Z.to_nat k = Some ins ->
    (bfc.i ins = ISet.JZ ->
       k < bfc.data ins - 1 < e /\ holds P (bfc.data ins - 1) ISet.JMP k) /\
    (bfc.i ins = ISet.JMP ->
       b <= bfc.data ins < k /\ holds P (bfc.data ins) ISet.JZ (k + 1)).
Proof.
  induction 1 as [b | b d c e Hh Hr IH | b d c e Hh Hr IH | b d c e Hh Hr IH
                 | b d c e Hh Hr IH | b body m c e Hjz Hb IHb Hjmp Hr IHr];
    intros k ins Hk Hins; [lia| | | | |].
  1-4: pose proof (placed_le _ _ _ _ Hr);
       destruct (Z.eq_dec k b) as [->|Hne];
         [ destruct (holds_lookup _ _ _ _ _ Hh Hins) as [Hi _]; rewrite Hi; by split
         | destruct (IH k ins ltac:(lia) Hins) as [H1 H2];
           split; intros Hi; [destruct (H1 Hi) | destruct (H2 Hi)]; split; (done || lia) ].
  pose proof (placed_le _ _ _ _ Hb) as Hle1. pose proof (placed_le _ _ _ _ Hr) as Hle2.
  destruct (Z.eq_dec k b) as [->|Hne1].
  { destruct (holds_lookup _ _ _ _ _ Hjz Hins) as [Hi ->]. rewrite Hi.
    split; [intros _|done]. replace (m + 1 - 1) with m by lia. split; [lia | done]. }
  destruct (Z_lt_dec k m) as [Hlt|Hge].
  { destruct (IHb k ins ltac:(lia) Hins) as [H1 H2].
    split; intros Hi; [destruct (H1 Hi) | destruct (H2 Hi)]; split; (done || lia). }
  destruct (Z.eq_dec k m) as [->|Hne2].
  { destruct (holds_lookup _ _ _ _ _ Hjmp Hins) as [Hi ->]. rewrite Hi.
    split; [done | intros _]. split; [lia | done]. }
  destruct (IHr k ins ltac:(lia) Hins) as [H1 H2].
  split; intros Hi; [destruct (H1 Hi) | destruct (H2 Hi)]; split; (done || lia).
Qed.

(** In the program compiled from a well-bracketed text the jumps are
    paired: every JZ points just past a later JMP that points back at it,
    and every JMP points at an earlier JZ that points just past it. *)
Theorem compiled_jumps_are_paired (s : string) (P : list bfc.Instruction)
    (k : Z) (ins : bfc.Instruction) :
  depth s 0 = Some 0%nat -> bfc.compile s = Ok P ->
  0 <= k -> P !! Z.to_nat k = Some ins ->
  (bfc.i ins = ISet.JZ ->
     k < bfc.data ins - 1 < len P /\ holds P (bfc.data ins - 1) ISet.JMP k) /\
  (bfc.i ins = ISet.JMP ->
     1 <= bfc.data ins < k /\ holds P (bfc.data ins) ISet.JZ (k + 1)).
Proof.
  intros Hd Hc Hk Hins.
  destruct (read_depth s _ _ [] [] Hd eq_refl) as (cur' & stk' & Hread & Hlen).
  destruct stk'; [|done].
  destruct (compile_loop_tracks s 0 _ _ _ tracks_init Hread) as ([P' ls] & Hcl & start & Hf & Hp).
  unfold bfc.compile in Hc. rewrite Hcl in Hc. simpl in Hc. injection Hc as ->.
  simpl in Hf, Hp. inversion Hf as [d Hnop|]; subst.
  assert (Hlt : k < len P) by (apply lookup_lt_Some in Hins; unfold len; lia).
  destruct (Z.eq_dec k 0) as [->|Hne].
  - destruct (holds_lookup _ _ _ _ _ Hnop Hins) as [Hi _]. rewrite Hi. by split.
  - by apply (placed_jumps _ _ _ _ Hp k ins ltac:(lia) Hins).
Qed.

Lemma compiled_jumps_are_paired_witness :
  (bfc.i (bfc.new ISet.JZ 0 4) = ISet.JZ ->
     1 < bfc.data (bfc.new ISet.JZ 0 4) - 1 < len clr_program /\
     holds clr_program (bfc.data (bfc.new ISet.JZ 0 4) - 1) ISet.JMP 1) /\
  (bfc.i (bfc.new ISet.JZ 0 4) = ISet.JMP ->
     1 <= bfc.data (bfc.new ISet.JZ 0 4) < 1 /\
     holds clr_program (bfc.data (bfc.new ISet.JZ 0 4)) ISet.JZ (1 + 1)).
Proof.
  apply (compiled_jumps_are_paired "[-]" clr_program 1 (bfc.new ISet.JZ 0 4)).
  - reflexivity.
  - vm_compute; reflexivity.
  - lia.
  - reflexivity.
Defined.
